(** * 100zombies: population manager, spatial sampler and agent behaviour core

    A shallow embedding of [src/entities/EnemyManager.js] and
    [src/entities/Zombie.js].

    Conventions of the embedding.
    - A JavaScript number is a rational ([Q]): every finite double is one.
      The comparisons the source writes ([<=], [>], [<]) are the boolean
      comparisons of [Q].  Sums, products and differences are exact, with
      one exception: the countdown of [Zombie.updatePerception], which is
      decremented at every update and compared with zero, so that the last
      bit of the difference decides whether the perception scan runs.  That
      subtraction is the subtraction of doubles ([js_sub]: the exact
      difference rounded to the nearest binary64 value, ties to even), and
      the literal it is reset to is the double that the literal denotes.
      The only place that needs [Math.cos] / [Math.sin] is the sampling of a
      point in a spawn area; that part is stated over the reals ([R]).
    - Counts that the source uses as loop bounds and array indices
      ([maxEnemies], [initialActiveCount], [activationRate], indices into
      [preloadedZombies]) are natural numbers.
    - [Math.random()] is an input: every function that draws takes the drawn
      value(s) as arguments, in the order in which the source draws them.
    - An optional property of a configuration object is an [option]; the
      idiom [x || d] is [js_or].
    - Objects that are shared by reference (the zombies held by both rosters)
      live in a store and are named by handles.
    - Calls to external collaborators ([engine.entityManager],
      [player.takeDamage], [setTimeout], [setInterval]) are recorded: the
      registry as a log of calls, the timers as explicit pending queues. *)

From Stdlib Require Import QArith Qround Qabs Qpower.
From Stdlib Require Import ZArith Znat Reals Lqa Lra Lia.
From Stdlib Require Import List String Bool Arith.
From Stdlib Require Floats.
Import ListNotations.

Local Open Scope Q_scope.

(** ** JavaScript idioms *)

Module Js.

(** [a < b] on numbers. *)
Definition Qlt_bool (a b : Q) : bool := negb (Qle_bool b a).

(** [x || d] where [x] is a numeric property that may be absent:
    [undefined] and [0] are falsy. *)
Definition js_or (x : option Q) (d : Q) : Q :=
  match x with
  | Some v => if Qeq_bool v 0 then d else v
  | None => d
  end.

(** [x || d] where [x] is a string property that may be absent:
    [undefined] and the empty string are falsy. *)
Definition js_or_string (x : option string) (d : string) : string :=
  match x with
  | Some v => if String.eqb v EmptyString then d else v
  | None => d
  end.

(** Truncation toward zero, and the remainder operator [a % b] of
    JavaScript (the result has the sign of the dividend). *)
Definition Qtrunc (x : Q) : Z :=
  if Qle_bool 0 x then Qfloor x else Qceiling x.

Definition js_rem (a b : Q) : Q := a - b * inject_Z (Qtrunc (a / b)).

(** *** Double-precision subtraction

    [ilog2 x] is the exponent of the binade of a positive [x]: the largest
    [e] with [2 ^ e <= x]. *)
Definition ilog2 (x : Q) : Z :=
  let e := (Z.log2 (Qnum x) - Z.log2 (Zpos (Qden x)))%Z in
  if Qle_bool (2 ^ e) x then e else (e - 1)%Z.

(** Rounding to the nearest integer, a tie going to the even one. *)
Definition roundHalfEven (q : Q) : Z :=
  let f := Qfloor q in
  match Qcompare (q - inject_Z f) (1 # 2) with
  | Lt => f
  | Gt => (f + 1)%Z
  | Eq => if Z.even f then f else (f + 1)%Z
  end.

(** The binary64 value nearest to a positive rational: a significand of 53
    bits in the binade of [x], and multiples of [2 ^ -1074] below
    [2 ^ -1022] (the subnormal numbers). *)
Definition binary64_pos (x : Q) : Q :=
  let e := Z.max (ilog2 x) (-1022) in
  inject_Z (roundHalfEven (x * 2 ^ (52 - e))) * 2 ^ (e - 52).

(** The binary64 value nearest to a rational, ties to even: the value of a
    numeric literal, and the rounding that ends every arithmetic operation
    on doubles.  Magnitudes of [2 ^ 1024] and more, which round to an
    infinity, are outside the model. *)
Definition binary64 (x : Q) : Q :=
  match Qnum x with
  | Z0 => 0
  | Zpos _ => Qred (binary64_pos (Qred x))
  | Zneg _ => - Qred (binary64_pos (Qred (- x)))
  end.

(** [a - b] on doubles. *)
Definition js_sub (a b : Q) : Q := binary64 (a - b).

Arguments binary64 : simpl never.
Arguments js_sub : simpl never.

(** The rational that a finite double of the kernel stands for, to compare
    [js_sub] with the subtraction of the kernel's own binary64 numbers. *)
Definition SF2Q (f : SpecFloat.spec_float) : option Q :=
  match f with
  | SpecFloat.S754_zero _ => Some 0
  | SpecFloat.S754_finite s m e =>
      Some (Qred ((if s then - (1) else 1) * inject_Z (Zpos m) * 2 ^ e))
  | _ => None
  end.

Definition float2Q (f : PrimFloat.float) : option Q := SF2Q (FloatOps.Prim2SF f).

(** The double with significand [m] and exponent [e]: [m * 2 ^ e]. *)
Definition double (m : positive) (e : Z) : PrimFloat.float :=
  FloatOps.SF2Prim (SpecFloat.S754_finite false m e).

(** A JavaScript [Map] with string keys: iteration follows insertion
    order, and [set] on an existing key keeps the key's position. *)
Definition JsMap (V : Type) : Type := list (string * V).

Fixpoint map_set {V} (k : string) (v : V) (m : JsMap V) : JsMap V :=
  match m with
  | [] => [(k, v)]
  | (k', v') :: m' =>
      if String.eqb k k' then (k, v) :: m' else (k', v') :: map_set k v m'
  end.

Fixpoint map_get {V} (k : string) (m : JsMap V) : option V :=
  match m with
  | [] => None
  | (k', v') :: m' => if String.eqb k k' then Some v' else map_get k m'
  end.

Definition map_values {V} (m : JsMap V) : list V := List.map snd m.

End Js.
Import Js.

(** The three components of a [THREE.Vector3]. *)
Record Vector3 (num : Type) : Type := mkVector3 { vx : num; vy : num; vz : num }.
Arguments mkVector3 {num} _ _ _.
Arguments vx {num} _.
Arguments vy {num} _.
Arguments vz {num} _.


(** ** The agent ([Zombie.js])

    The fields that only feed rendering, animation and the physics body
    ([position], [rotation], [quaternion], [physicsBody], [speed],
    [moveDirection], [object], [mixer], [animations], [bones], the very-far
    physics switch) are left out.  Wherever the source evaluates
    [this.position.distanceTo(player.position)] the model reads the distance
    measured at that instant, which is part of the observation of the player
    handed to the method; within one call of [update] the zombie's position
    is not written before the last such evaluation, so one observation serves
    the whole call.  [transitions] records the lines that [changeState]
    prints, newest first. *)

Module Zombie.

Inductive State : Type := idle | chase | attack | death.

Definition State_eqb (a b : State) : bool :=
  match a, b with
  | idle, idle | chase, chase | attack, attack | death, death => true
  | _, _ => false
  end.

Record t : Type := mk {
  zombieType : string;
  enabled : bool;
  isAlive : bool;
  state : State;
  timeInCurrentState : Q;
  timeSinceSpawn : Q;
  canSeePlayer : bool;
  detectionRange : Q;
  updatePerceptionTime : Q;
  perceptionUpdateRate : Q;
  lastKnownPlayerPosition : option (Vector3 Q);
  health : Q;
  maxHealth : Q;
  attackRange : Q;
  attackCooldown : Q;
  attackDamage : Q;
  lastAttackTime : Q;
  skipAnimationWhenFar : bool;
  farDistance : Q;
  transitions : list (State * State)
}.

Definition with_enabled (v : bool) (z : t) : t :=
  {| zombieType := zombieType z; enabled := v; isAlive := isAlive z;
     state := state z; timeInCurrentState := timeInCurrentState z;
     timeSinceSpawn := timeSinceSpawn z; canSeePlayer := canSeePlayer z;
     detectionRange := detectionRange z;
     updatePerceptionTime := updatePerceptionTime z;
     perceptionUpdateRate := perceptionUpdateRate z;
     lastKnownPlayerPosition := lastKnownPlayerPosition z; health := health z;
     maxHealth := maxHealth z; attackRange := attackRange z;
     attackCooldown := attackCooldown z; attackDamage := attackDamage z;
     lastAttackTime := lastAttackTime z;
     skipAnimationWhenFar := skipAnimationWhenFar z; farDistance := farDistance z;
     transitions := transitions z |}.

Definition with_isAlive (v : bool) (z : t) : t :=
  {| zombieType := zombieType z; enabled := enabled z; isAlive := v;
     state := state z; timeInCurrentState := timeInCurrentState z;
     timeSinceSpawn := timeSinceSpawn z; canSeePlayer := canSeePlayer z;
     detectionRange := detectionRange z;
     updatePerceptionTime := updatePerceptionTime z;
     perceptionUpdateRate := perceptionUpdateRate z;
     lastKnownPlayerPosition := lastKnownPlayerPosition z; health := health z;
     maxHealth := maxHealth z; attackRange := attackRange z;
     attackCooldown := attackCooldown z; attackDamage := attackDamage z;
     lastAttackTime := lastAttackTime z;
     skipAnimationWhenFar := skipAnimationWhenFar z; farDistance := farDistance z;
     transitions := transitions z |}.

Definition with_state (v : State) (z : t) : t :=
  {| zombieType := zombieType z; enabled := enabled z; isAlive := isAlive z;
     state := v; timeInCurrentState := timeInCurrentState z;
     timeSinceSpawn := timeSinceSpawn z; canSeePlayer := canSeePlayer z;
     detectionRange := detectionRange z;
     updatePerceptionTime := updatePerceptionTime z;
     perceptionUpdateRate := perceptionUpdateRate z;
     lastKnownPlayerPosition := lastKnownPlayerPosition z; health := health z;
     maxHealth := maxHealth z; attackRange := attackRange z;
     attackCooldown := attackCooldown z; attackDamage := attackDamage z;
     lastAttackTime := lastAttackTime z;
     skipAnimationWhenFar := skipAnimationWhenFar z; farDistance := farDistance z;
     transitions := transitions z |}.

Definition with_timeInCurrentState (v : Q) (z : t) : t :=
  {| zombieType := zombieType z; enabled := enabled z; isAlive := isAlive z;
     state := state z; timeInCurrentState := v; timeSinceSpawn := timeSinceSpawn z;
     canSeePlayer := canSeePlayer z; detectionRange := detectionRange z;
     updatePerceptionTime := updatePerceptionTime z;
     perceptionUpdateRate := perceptionUpdateRate z;
     lastKnownPlayerPosition := lastKnownPlayerPosition z; health := health z;
     maxHealth := maxHealth z; attackRange := attackRange z;
     attackCooldown := attackCooldown z; attackDamage := attackDamage z;
     lastAttackTime := lastAttackTime z;
     skipAnimationWhenFar := skipAnimationWhenFar z; farDistance := farDistance z;
     transitions := transitions z |}.

Definition with_timeSinceSpawn (v : Q) (z : t) : t :=
  {| zombieType := zombieType z; enabled := enabled z; isAlive := isAlive z;
     state := state z; timeInCurrentState := timeInCurrentState z;
     timeSinceSpawn := v; canSeePlayer := canSeePlayer z;
     detectionRange := detectionRange z;
     updatePerceptionTime := updatePerceptionTime z;
     perceptionUpdateRate := perceptionUpdateRate z;
     lastKnownPlayerPosition := lastKnownPlayerPosition z; health := health z;
     maxHealth := maxHealth z; attackRange := attackRange z;
     attackCooldown := attackCooldown z; attackDamage := attackDamage z;
     lastAttackTime := lastAttackTime z;
     skipAnimationWhenFar := skipAnimationWhenFar z; farDistance := farDistance z;
     transitions := transitions z |}.

Definition with_canSeePlayer (v : bool) (z : t) : t :=
  {| zombieType := zombieType z; enabled := enabled z; isAlive := isAlive z;
     state := state z; timeInCurrentState := timeInCurrentState z;
     timeSinceSpawn := timeSinceSpawn z; canSeePlayer := v;
     detectionRange := detectionRange z;
     updatePerceptionTime := updatePerceptionTime z;
     perceptionUpdateRate := perceptionUpdateRate z;
     lastKnownPlayerPosition := lastKnownPlayerPosition z; health := health z;
     maxHealth := maxHealth z; attackRange := attackRange z;
     attackCooldown := attackCooldown z; attackDamage := attackDamage z;
     lastAttackTime := lastAttackTime z;
     skipAnimationWhenFar := skipAnimationWhenFar z; farDistance := farDistance z;
     transitions := transitions z |}.

Definition with_updatePerceptionTime (v : Q) (z : t) : t :=
  {| zombieType := zombieType z; enabled := enabled z; isAlive := isAlive z;
     state := state z; timeInCurrentState := timeInCurrentState z;
     timeSinceSpawn := timeSinceSpawn z; canSeePlayer := canSeePlayer z;
     detectionRange := detectionRange z; updatePerceptionTime := v;
     perceptionUpdateRate := perceptionUpdateRate z;
     lastKnownPlayerPosition := lastKnownPlayerPosition z; health := health z;
     maxHealth := maxHealth z; attackRange := attackRange z;
     attackCooldown := attackCooldown z; attackDamage := attackDamage z;
     lastAttackTime := lastAttackTime z;
     skipAnimationWhenFar := skipAnimationWhenFar z; farDistance := farDistance z;
     transitions := transitions z |}.

Definition with_lastKnownPlayerPosition (v : option (Vector3 Q)) (z : t) : t :=
  {| zombieType := zombieType z; enabled := enabled z; isAlive := isAlive z;
     state := state z; timeInCurrentState := timeInCurrentState z;
     timeSinceSpawn := timeSinceSpawn z; canSeePlayer := canSeePlayer z;
     detectionRange := detectionRange z;
     updatePerceptionTime := updatePerceptionTime z;
     perceptionUpdateRate := perceptionUpdateRate z; lastKnownPlayerPosition := v;
     health := health z; maxHealth := maxHealth z; attackRange := attackRange z;
     attackCooldown := attackCooldown z; attackDamage := attackDamage z;
     lastAttackTime := lastAttackTime z;
     skipAnimationWhenFar := skipAnimationWhenFar z; farDistance := farDistance z;
     transitions := transitions z |}.

Definition with_health (v : Q) (z : t) : t :=
  {| zombieType := zombieType z; enabled := enabled z; isAlive := isAlive z;
     state := state z; timeInCurrentState := timeInCurrentState z;
     timeSinceSpawn := timeSinceSpawn z; canSeePlayer := canSeePlayer z;
     detectionRange := detectionRange z;
     updatePerceptionTime := updatePerceptionTime z;
     perceptionUpdateRate := perceptionUpdateRate z;
     lastKnownPlayerPosition := lastKnownPlayerPosition z; health := v;
     maxHealth := maxHealth z; attackRange := attackRange z;
     attackCooldown := attackCooldown z; attackDamage := attackDamage z;
     lastAttackTime := lastAttackTime z;
     skipAnimationWhenFar := skipAnimationWhenFar z; farDistance := farDistance z;
     transitions := transitions z |}.

Definition with_lastAttackTime (v : Q) (z : t) : t :=
  {| zombieType := zombieType z; enabled := enabled z; isAlive := isAlive z;
     state := state z; timeInCurrentState := timeInCurrentState z;
     timeSinceSpawn := timeSinceSpawn z; canSeePlayer := canSeePlayer z;
     detectionRange := detectionRange z;
     updatePerceptionTime := updatePerceptionTime z;
     perceptionUpdateRate := perceptionUpdateRate z;
     lastKnownPlayerPosition := lastKnownPlayerPosition z; health := health z;
     maxHealth := maxHealth z; attackRange := attackRange z;
     attackCooldown := attackCooldown z; attackDamage := attackDamage z;
     lastAttackTime := v; skipAnimationWhenFar := skipAnimationWhenFar z;
     farDistance := farDistance z; transitions := transitions z |}.

Definition with_transitions (v : list (State * State)) (z : t) : t :=
  {| zombieType := zombieType z; enabled := enabled z; isAlive := isAlive z;
     state := state z; timeInCurrentState := timeInCurrentState z;
     timeSinceSpawn := timeSinceSpawn z; canSeePlayer := canSeePlayer z;
     detectionRange := detectionRange z;
     updatePerceptionTime := updatePerceptionTime z;
     perceptionUpdateRate := perceptionUpdateRate z;
     lastKnownPlayerPosition := lastKnownPlayerPosition z; health := health z;
     maxHealth := maxHealth z; attackRange := attackRange z;
     attackCooldown := attackCooldown z; attackDamage := attackDamage z;
     lastAttackTime := lastAttackTime z;
     skipAnimationWhenFar := skipAnimationWhenFar z; farDistance := farDistance z;
     transitions := v |}.

Definition with_far (skip : bool) (far : Q) (z : t) : t :=
  mk (zombieType z) (enabled z) (isAlive z) (state z) (timeInCurrentState z)
     (timeSinceSpawn z) (canSeePlayer z) (detectionRange z)
     (updatePerceptionTime z) (perceptionUpdateRate z)
     (lastKnownPlayerPosition z) (health z) (maxHealth z) (attackRange z)
     (attackCooldown z) (attackDamage z) (lastAttackTime z) skip far
     (transitions z).

(** The [properties] argument of the constructor. *)
Record Properties : Type := mkProperties {
  p_health : option Q;
  p_speed : option Q;
  p_damage : option Q;
  p_detectionRange : option Q;
  p_type : option string
}.

(** What a method reads from [engine.player] when it runs: the player's
    position, the measured distance from the zombie to it, and whether the
    player object has a [takeDamage] method. *)
Record PlayerObs : Type := mkPlayerObs {
  player_position : Vector3 Q;
  distanceToPlayer : Q;
  player_takeDamage : bool
}.

(** The two closures that [processAttackState] hands to [setTimeout]. *)
Inductive Callback : Type := DealDamage | ReturnToChase.

Record TimeoutCall : Type := mkTimeoutCall { callback : Callback; delay : Q }.

(** [constructor(engine, position, properties)].  The perception period
    is the double that the literal [0.2] denotes, a little above 1/5. *)
Definition new (properties : Properties) : t :=
  {| zombieType := js_or_string (p_type properties) "standard";
     enabled := true;
     isAlive := true;
     state := idle;
     timeInCurrentState := 0;
     timeSinceSpawn := 0;
     canSeePlayer := false;
     detectionRange := js_or (p_detectionRange properties) 15;
     updatePerceptionTime := 0;
     perceptionUpdateRate := binary64 0.2;
     lastKnownPlayerPosition := None;
     health := js_or (p_health properties) 100;
     maxHealth := js_or (p_health properties) 100;
     attackRange := 1.8;
     attackCooldown := 1.2;
     attackDamage := js_or (p_damage properties) 20;
     lastAttackTime := 0;
     skipAnimationWhenFar := false;
     farDistance := 50;
     transitions := [] |}.

Definition optimizeForLargeNumbers (z : t) : t := with_far true 50 z.

(** [changeState(newState)]. *)
Definition changeState (newState : State) (z : t) : t :=
  if State_eqb newState (state z) then z
  else
    let oldState := state z in
    let z := with_timeInCurrentState 0 (with_state newState z) in
    let z := with_transitions ((oldState, newState) :: transitions z) z in
    match newState with
    | death => with_isAlive false z
    | _ => z
    end.

(** [init(engine)]: the physics body and the model are attached, then the
    optimisation switches are set and the initial state is entered. *)
Definition init (z : t) : t := changeState idle (optimizeForLargeNumbers z).

(** [takeDamage(amount)]. *)
Definition takeDamage (amount : Q) (z : t) : t :=
  let z := with_health (health z - amount) z in
  if Qle_bool (health z) 0 && isAlive z then changeState death z else z.

Definition onPlayerSpotted (z : t) : t := changeState chase z.

(** [updatePerception(deltaTime)].  The statement
    [this.updatePerceptionTime -= deltaTime] is a subtraction of doubles,
    and the test [<= 0] that follows reads its rounded result. *)
Definition updatePerception (deltaTime : Q) (player : option PlayerObs) (z : t) : t :=
  let z := with_updatePerceptionTime (js_sub (updatePerceptionTime z) deltaTime) z in
  if Qle_bool (updatePerceptionTime z) 0 then
    let z := with_updatePerceptionTime (perceptionUpdateRate z) z in
    let previouslyCouldSeePlayer := canSeePlayer z in
    let z := with_canSeePlayer false z in
    match player with
    | None => z
    | Some p =>
        if Qle_bool (distanceToPlayer p) (detectionRange z) then
          let z := with_canSeePlayer true z in
          if negb previouslyCouldSeePlayer && State_eqb (state z) idle
          then onPlayerSpotted z
          else z
        else z
    end
  else z.

(** [processIdleState]: a random small rotation and the idle animation. *)
Definition processIdleState (z : t) : t := z.

(** The last statement of [processChaseState]. *)
Definition loseTrack (z : t) : t :=
  if negb (canSeePlayer z) && Qlt_bool 8 (timeInCurrentState z)
  then changeState idle z
  else z.

(** [processChaseState(deltaTime)]. *)
Definition processChaseState (player : option PlayerObs) (z : t) : t :=
  match player with
  | None => z
  | Some p =>
      let z := if canSeePlayer z
               then with_lastKnownPlayerPosition (Some (player_position p)) z
               else z in
      match lastKnownPlayerPosition z with
      | Some _ =>
          if Qle_bool (distanceToPlayer p) (attackRange z)
          then changeState attack z
          else loseTrack z
      | None => loseTrack z
      end
  end.

(** [processAttackState(deltaTime)]: the new zombie and the calls of
    [setTimeout], in order. *)
Definition processAttackState (player : option PlayerObs) (z : t) : t * list TimeoutCall :=
  match player with
  | None => (z, [])
  | Some p =>
      if Qlt_bool (attackRange z * 1.2) (distanceToPlayer p)
      then (changeState chase z, [])
      else if Qlt_bool (attackCooldown z) (timeSinceSpawn z - lastAttackTime z)
      then (with_lastAttackTime (timeSinceSpawn z) z,
            [mkTimeoutCall DealDamage 500; mkTimeoutCall ReturnToChase 1200])
      else (z, [])
  end.

(** [processStateMachine(deltaTime)]. *)
Definition processStateMachine (player : option PlayerObs) (z : t) : t * list TimeoutCall :=
  let z := if State_eqb (state z) idle && canSeePlayer z
           then changeState chase z
           else z in
  match state z with
  | idle => (processIdleState z, [])
  | chase => (processChaseState player z, [])
  | attack => processAttackState player z
  | death => (z, [])
  end.

(** Whether [distanceToPlayer > this.farDistance]; without a player the
    distance is [Infinity]. *)
Definition isFar (player : option PlayerObs) (z : t) : bool :=
  match player with
  | Some p => Qlt_bool (farDistance z) (distanceToPlayer p)
  | None => true
  end.

(** [update(deltaTime)]. *)
Definition update (deltaTime : Q) (player : option PlayerObs) (z : t) : t * list TimeoutCall :=
  if negb (enabled z) || negb (isAlive z) then (z, [])
  else
    let z := with_timeSinceSpawn (timeSinceSpawn z + deltaTime) z in
    let z := with_timeInCurrentState (timeInCurrentState z + deltaTime) z in
    if skipAnimationWhenFar z && isFar player z then
      if Qlt_bool (js_rem (timeSinceSpawn z) 3) 0.1
      then processStateMachine player (updatePerception deltaTime player z)
      else (z, [])
    else processStateMachine player (updatePerception deltaTime player z).

(** The first closure of [processAttackState]: the amount handed to
    [player.takeDamage], if the call is made.  The closure holds the player
    object that the trigger read, so the player exists when it runs. *)
Definition dealDamage (p : PlayerObs) (z : t) : option Q :=
  if State_eqb (state z) attack && player_takeDamage p
     && Qle_bool (distanceToPlayer p) (attackRange z)
  then Some 20
  else None.

(** The second closure of [processAttackState]. *)
Definition returnToChase (z : t) : t :=
  if State_eqb (state z) attack then changeState chase z else z.

(** *** Animation clips ([mapAnimations], [playAnimation])

    [this.animations] is the table of loaded clips; it is represented by the
    list of its keys.  [this.mixer] is represented by whether it is set. *)







(** *** One agent, its timers and the player

    [setTimeout] is a queue of pending callbacks with the wall-clock
    instant (in milliseconds) at which each becomes due; the host runs a
    pending callback only once it is due.  [playerHits] records the calls
    of [player.takeDamage], newest first.

    The events are the calls that reach the agent from outside: [update]
    from the entity system ([Tick]), [takeDamage] from a weapon ([Hit]), the
    manager writing [zombie.enabled] ([SetEnabled]: [false] after the
    preload, [true] at activation), the passing of wall-clock time
    ([Elapse]) and the host running the [n]-th pending callback ([Fire]). *)

Record PendingTimer : Type := mkPendingTimer { due : Q; pending_callback : Callback }.

Record PlayerHit : Type := mkPlayerHit { hit_amount : Q; hit_time : Q }.

Record World : Type := mkWorld {
  zombie : t;
  clock : Q;
  pending : list PendingTimer;
  playerHits : list PlayerHit
}.

Inductive Event : Type :=
| Tick (deltaTime : Q) (player : option PlayerObs)
| Hit (amount : Q)
| SetEnabled (b : bool)
| Elapse (ms : Q)
| Fire (n : nat) (p : PlayerObs).

Definition schedule (now : Q) (ts : list TimeoutCall) : list PendingTimer :=
  List.map (fun x => mkPendingTimer (now + delay x) (callback x)) ts.

Fixpoint remove_nth {A} (n : nat) (l : list A) : list A :=
  match l, n with
  | [], _ => []
  | _ :: l', O => l'
  | x :: l', S n' => x :: remove_nth n' l'
  end.

Definition runCallback (c : Callback) (p : PlayerObs) (w : World) : World :=
  match c with
  | DealDamage =>
      match dealDamage p (zombie w) with
      | Some amount =>
          mkWorld (zombie w) (clock w) (pending w)
                  (mkPlayerHit amount (clock w) :: playerHits w)
      | None => w
      end
  | ReturnToChase =>
      mkWorld (returnToChase (zombie w)) (clock w) (pending w) (playerHits w)
  end.

Definition step (w : World) (e : Event) : World :=
  match e with
  | Tick deltaTime player =>
      let (z, ts) := update deltaTime player (zombie w) in
      mkWorld z (clock w) (pending w ++ schedule (clock w) ts) (playerHits w)
  | Hit amount =>
      mkWorld (takeDamage amount (zombie w)) (clock w) (pending w) (playerHits w)
  | SetEnabled b =>
      mkWorld (with_enabled b (zombie w)) (clock w) (pending w) (playerHits w)
  | Elapse ms =>
      if Qle_bool 0 ms
      then mkWorld (zombie w) (clock w + ms) (pending w) (playerHits w)
      else w
  | Fire n p =>
      match nth_error (pending w) n with
      | Some tm =>
          if Qle_bool (due tm) (clock w)
          then runCallback (pending_callback tm) p
                 (mkWorld (zombie w) (clock w) (remove_nth n (pending w)) (playerHits w))
          else w
      | None => w
      end
  end.

Definition run (w : World) (es : list Event) : World := fold_left step es w.

(** A freshly created and initialised agent, no timer pending. *)
Definition spawn (properties : Properties) : World :=
  mkWorld (init (new properties)) 0 [] [].

End Zombie.

(** ** The population manager ([EnemyManager.js]) *)

Module EnemyManager.


(** The object built for each entry by [configureSpawnAreas].  [center],
    [radius] and [size] are set according to [type]; a field that the source
    leaves unset is [None]. *)
Record SpawnArea (num : Type) : Type := mkSpawnArea {
  area_id : string;
  area_type : string;
  area_weight : num;
  minDistance : num;
  maxDistance : num;
  center : option (Vector3 num);
  radius : option num;
  size : option (num * num)
}.
Arguments mkSpawnArea {num} _ _ _ _ _ _ _ _.
Arguments area_id {num} _.
Arguments area_type {num} _.
Arguments area_weight {num} _.
Arguments minDistance {num} _.
Arguments maxDistance {num} _.
Arguments center {num} _.
Arguments radius {num} _.
Arguments size {num} _.

(** An entry of the map data handed to [configureSpawnAreas]. *)
Record AreaData : Type := mkAreaData {
  ad_id : string;
  ad_type : option string;
  ad_weight : option Q;
  ad_minDistance : option Q;
  ad_maxDistance : option Q;
  ad_center : option Q * option Q * option Q;
  ad_radius : option Q;
  ad_size : option Q * option Q
}.

(** The value stored in [enemyTypes]. *)
Record EnemyType : Type := mkEnemyType {
  type_id : string;
  type_weight : Q;
  type_health : Q;
  type_speed : Q;
  type_damage : Q;
  type_detectionRange : Q
}.

(** An entry of [config.enemyTypes]. *)
Record TypeData : Type := mkTypeData {
  td_id : string;
  td_weight : option Q;
  td_health : option Q;
  td_speed : option Q;
  td_damage : option Q;
  td_detectionRange : option Q
}.

(** [this.config]. *)
Record Config : Type := mkConfig {
  maxEnemies : nat;
  preloadAtStart : bool;
  initialActiveCount : nat;
  activationRate : nat;
  activationInterval : nat
}.

(** The argument of [configure]: every property may be absent. *)
Record ConfigData : Type := mkConfigData {
  cd_maxEnemies : option nat;
  cd_preloadAtStart : option bool;
  cd_initialActiveCount : option nat;
  cd_activationRate : option nat;
  cd_activationInterval : option nat;
  cd_enemyTypes : option (list TypeData)
}.

(** Handles name the zombie objects in the store. *)
Definition Handle : Type := nat.

(** The fields of an [EnemyManager] instance. *)
Record t : Type := mk {
  enemies : list Handle;
  config : Config;
  enemyTypes : JsMap EnemyType;
  spawnAreas : list (SpawnArea Q);
  totalSpawnWeight : Q;
  enabled : bool;
  preloadComplete : bool;
  preloadedZombies : list Handle;
  preloadProgress : Q
}.

(** The constructor. *)
Definition new : t :=
  {| enemies := [];
     config := {| maxEnemies := 100; preloadAtStart := true;
                  initialActiveCount := 20; activationRate := 2;
                  activationInterval := 1000 |};
     enemyTypes := [];
     spawnAreas := [];
     totalSpawnWeight := 0;
     enabled := true;
     preloadComplete := false;
     preloadedZombies := [];
     preloadProgress := 0 |}.

Definition with_enemyTypes (types : JsMap EnemyType) (m : t) : t :=
  {| enemies := enemies m; config := config m; enemyTypes := types;
     spawnAreas := spawnAreas m; totalSpawnWeight := totalSpawnWeight m;
     enabled := enabled m; preloadComplete := preloadComplete m;
     preloadedZombies := preloadedZombies m; preloadProgress := preloadProgress m |}.

Definition with_config (c : Config) (m : t) : t :=
  {| enemies := enemies m; config := c; enemyTypes := enemyTypes m;
     spawnAreas := spawnAreas m; totalSpawnWeight := totalSpawnWeight m;
     enabled := enabled m; preloadComplete := preloadComplete m;
     preloadedZombies := preloadedZombies m; preloadProgress := preloadProgress m |}.

Definition with_spawnAreas (a : list (SpawnArea Q)) (w : Q) (m : t) : t :=
  {| enemies := enemies m; config := config m; enemyTypes := enemyTypes m;
     spawnAreas := a; totalSpawnWeight := w;
     enabled := enabled m; preloadComplete := preloadComplete m;
     preloadedZombies := preloadedZombies m; preloadProgress := preloadProgress m |}.

Definition with_enemies (l : list Handle) (m : t) : t :=
  {| enemies := l; config := config m; enemyTypes := enemyTypes m;
     spawnAreas := spawnAreas m; totalSpawnWeight := totalSpawnWeight m;
     enabled := enabled m; preloadComplete := preloadComplete m;
     preloadedZombies := preloadedZombies m; preloadProgress := preloadProgress m |}.

Definition with_preloaded (l : list Handle) (m : t) : t :=
  {| enemies := enemies m; config := config m; enemyTypes := enemyTypes m;
     spawnAreas := spawnAreas m; totalSpawnWeight := totalSpawnWeight m;
     enabled := enabled m; preloadComplete := preloadComplete m;
     preloadedZombies := l; preloadProgress := preloadProgress m |}.

Definition with_preloadComplete (b : bool) (m : t) : t :=
  {| enemies := enemies m; config := config m; enemyTypes := enemyTypes m;
     spawnAreas := spawnAreas m; totalSpawnWeight := totalSpawnWeight m;
     enabled := enabled m; preloadComplete := b;
     preloadedZombies := preloadedZombies m; preloadProgress := preloadProgress m |}.

Definition with_preloadProgress (p : Q) (m : t) : t :=
  {| enemies := enemies m; config := config m; enemyTypes := enemyTypes m;
     spawnAreas := spawnAreas m; totalSpawnWeight := totalSpawnWeight m;
     enabled := enabled m; preloadComplete := preloadComplete m;
     preloadedZombies := preloadedZombies m; preloadProgress := p |}.

(** [registerDefaultEnemyTypes], called by [init]. *)
Definition standardType : EnemyType :=
  {| type_id := "standard"; type_weight := 1; type_health := 100;
     type_speed := 3; type_damage := 20; type_detectionRange := 15 |}.

Definition registerDefaultEnemyTypes (m : t) : t :=
  with_enemyTypes (map_set "standard" standardType (enemyTypes m)) m.

Definition init (m : t) : t := registerDefaultEnemyTypes m.

(** The object literal that [configure] stores for one entry of
    [config.enemyTypes]. *)
Definition registerType (td : TypeData) : EnemyType :=
  {| type_id := td_id td;
     type_weight := js_or (td_weight td) 1;
     type_health := js_or (td_health td) 100;
     type_speed := js_or (td_speed td) 3;
     type_damage := js_or (td_damage td) 20;
     type_detectionRange := js_or (td_detectionRange td) 15 |}.

(** The merge [{...this.config, ...config}]. *)
Definition mergeConfig (old : Config) (c : ConfigData) : Config :=
  {| maxEnemies := match cd_maxEnemies c with Some v => v | None => maxEnemies old end;
     preloadAtStart := match cd_preloadAtStart c with Some v => v | None => preloadAtStart old end;
     initialActiveCount :=
       match cd_initialActiveCount c with Some v => v | None => initialActiveCount old end;
     activationRate := match cd_activationRate c with Some v => v | None => activationRate old end;
     activationInterval :=
       match cd_activationInterval c with Some v => v | None => activationInterval old end |}.

(** [configure(config)]. *)
Definition configure (c : ConfigData) (m : t) : t :=
  let m := with_config (mergeConfig (config m) c) m in
  match cd_enemyTypes c with
  | Some (td :: tds) =>
      with_enemyTypes
        (fold_left (fun acc typeData => map_set (td_id typeData) (registerType typeData) acc) (td :: tds) [])
        m
  | _ => m
  end.

(** The object built for one entry by [configureSpawnAreas]. *)
Definition buildArea (d : AreaData) : SpawnArea Q :=
  let ty := js_or_string (ad_type d) "circle" in
  let ctr :=
    match ad_center d with
    | (x, y, z) => mkVector3 (js_or x 0) (js_or y 0) (js_or z 0)
    end in
  {| area_id := ad_id d;
     area_type := ty;
     area_weight := js_or (ad_weight d) 1;
     minDistance := js_or (ad_minDistance d) 30;
     maxDistance := js_or (ad_maxDistance d) 80;
     center := if String.eqb ty "circle" then Some ctr
               else if String.eqb ty "rectangle" then Some ctr else None;
     radius := if String.eqb ty "circle" then Some (js_or (ad_radius d) 30) else None;
     size := if String.eqb ty "circle" then None
             else if String.eqb ty "rectangle"
                  then Some (js_or (fst (ad_size d)) 60, js_or (snd (ad_size d)) 60)
                  else None |}.

(** [configureSpawnAreas(spawnAreaData)]. *)
Definition configureSpawnAreas (data : list AreaData) (m : t) : t :=
  fold_left
    (fun acc d =>
       let area := buildArea d in
       with_spawnAreas (spawnAreas acc ++ [area])
                       (totalSpawnWeight acc + area_weight area) acc)
    data
    (with_spawnAreas [] 0 m).

(** The loop of [selectWeightedSpawnArea]: [weightSum] is the running sum,
    the result is the area at which the loop returns, if it does. *)
Fixpoint walkAreas (randomValue weightSum : Q) (areas : list (SpawnArea Q))
  : option (SpawnArea Q) :=
  match areas with
  | [] => None
  | area :: rest =>
      let weightSum := weightSum + area_weight area in
      if Qle_bool randomValue weightSum then Some area
      else walkAreas randomValue weightSum rest
  end.

(** [selectWeightedSpawnArea] once [randomValue] has been drawn.  The last
    line is [return this.spawnAreas[0]], which is [undefined] ([None]) on an
    empty array. *)
Definition selectWeightedSpawnAreaAt (areas : list (SpawnArea Q)) (randomValue : Q)
  : option (SpawnArea Q) :=
  match walkAreas randomValue 0 areas with
  | Some area => Some area
  | None => nth_error areas 0
  end.

(** [selectWeightedSpawnArea()], where [rnd] is the value of [Math.random()]. *)
Definition selectWeightedSpawnArea (m : t) (rnd : Q) : option (SpawnArea Q) :=
  selectWeightedSpawnAreaAt (spawnAreas m) (rnd * totalSpawnWeight m).

(** The two loops of [getRandomEnemyType]. *)
Definition totalTypeWeight (types : list EnemyType) : Q :=
  fold_left (fun acc t => acc + type_weight t) types 0.

Fixpoint walkTypes (randomValue currentWeight : Q) (types : list EnemyType)
  : option EnemyType :=
  match types with
  | [] => None
  | t :: rest =>
      let currentWeight := currentWeight + type_weight t in
      if Qle_bool randomValue currentWeight then Some t
      else walkTypes randomValue currentWeight rest
  end.

(** [getRandomEnemyType()], where [rnd] is the value of [Math.random()].
    The fallback [this.enemyTypes.values().next().value] is [undefined]
    ([None]) on an empty map. *)
Definition getRandomEnemyType (m : t) (rnd : Q) : option EnemyType :=
  let types := map_values (enemyTypes m) in
  let randomValue := rnd * totalTypeWeight types in
  match walkTypes randomValue 0 types with
  | Some t => Some t
  | None => nth_error types 0
  end.

(** *** The manager in its engine

    The zombies are objects shared between [preloadedZombies], [enemies] and
    the entity registry: they live in [store] and a handle is an index into
    it.  [entityManager] is the log of the calls made to
    [engine.entityManager], oldest first.  [intervals] holds the closures
    registered with [setInterval] that have not been cleared, each with the
    current value of its captured [index]. *)

Inductive RegistryCall : Type :=
| AddEntity (h : Handle)
| RemoveEntity (h : Handle).

Record Interval : Type := mkInterval {
  interval_id : nat;
  interval_index : nat;
  interval_period : nat
}.

Record Engine : Type := mkEngine {
  manager : t;
  store : list Zombie.t;
  player : bool;
  entityManager : list RegistryCall;
  intervals : list Interval;
  nextInterval : nat
}.

Definition with_manager (m : t) (e : Engine) : Engine :=
  mkEngine m (store e) (player e) (entityManager e) (intervals e) (nextInterval e).

Definition with_intervals (l : list Interval) (e : Engine) : Engine :=
  mkEngine (manager e) (store e) (player e) (entityManager e) l (nextInterval e).

(** [enemy.isAlive] for the object named by [h]. *)
Definition isAliveAt (s : list Zombie.t) (h : Handle) : bool :=
  match nth_error s h with
  | Some z => Zombie.isAlive z
  | None => false
  end.

(** [update(deltaTime)]. *)
Definition update (deltaTime : Q) (e : Engine) : Engine :=
  let m := manager e in
  if negb (enabled m) then e
  else if negb (preloadComplete m) then e
  else with_manager (with_enemies (filter (isAliveAt (store e)) (enemies m)) m) e.

Fixpoint update_nth {A} (n : nat) (f : A -> A) (l : list A) : list A :=
  match l, n with
  | [], _ => []
  | x :: l', O => f x :: l'
  | x :: l', S n' => x :: update_nth n' f l'
  end.

(** The three statements that activate one zombie:
    [zombie.enabled = true; addEntity(zombie); this.enemies.push(zombie)]. *)
Definition activate (h : Handle) (e : Engine) : Engine :=
  let m := manager e in
  mkEngine (with_enemies (enemies m ++ [h]) m)
           (update_nth h (Zombie.with_enabled true) (store e))
           (player e)
           (entityManager e ++ [AddEntity h])
           (intervals e)
           (nextInterval e).

(** The loop [for (let i = 0; i < initialCount; i++)] of
    [activatePreloadedZombies]; [count] iterations remain.  An index past the
    end of [preloadedZombies] would read [undefined]; [initialCount] never
    exceeds the length. *)
Fixpoint activateInitial (count i : nat) (e : Engine) : Engine :=
  match count with
  | O => e
  | S count' =>
      match nth_error (preloadedZombies (manager e)) i with
      | Some h => activateInitial count' (S i) (activate h e)
      | None => e
      end
  end.

(** [scheduleRemainingZombies(startIndex)]: the closure is registered with
    [setInterval] and holds [index = startIndex]. *)
Definition scheduleRemainingZombies (startIndex : nat) (e : Engine) : Engine :=
  mkEngine (manager e) (store e) (player e) (entityManager e)
           (intervals e ++
              [mkInterval (nextInterval e) startIndex
                          (activationInterval (config (manager e)))])
           (S (nextInterval e)).

(** [activatePreloadedZombies()]. *)
Definition activatePreloadedZombies (e : Engine) : Engine :=
  let m := manager e in
  let initialCount :=
    Nat.min (initialActiveCount (config m)) (List.length (preloadedZombies m)) in
  scheduleRemainingZombies initialCount (activateInitial initialCount 0 e).

(** The loop of the interval closure,
    [for (i = 0; i < activationRate && index < length; i++, index++)];
    [budget] is [activationRate - i].  The result carries the final
    [index]. *)
Fixpoint activateBatch (budget index : nat) (e : Engine) : nat * Engine :=
  match budget with
  | O => (index, e)
  | S budget' =>
      match nth_error (preloadedZombies (manager e)) index with
      | Some h => activateBatch budget' (S index) (activate h e)
      | None => (index, e)
      end
  end.

(** One firing of the interval closure registered under [id]; a closure that
    has been cleared does not fire. *)
Definition fireInterval (id : nat) (e : Engine) : Engine :=
  match find (fun iv => Nat.eqb (interval_id iv) id) (intervals e) with
  | None => e
  | Some iv =>
      if Nat.leb (List.length (preloadedZombies (manager e))) (interval_index iv)
      then with_intervals
             (filter (fun iv' => negb (Nat.eqb (interval_id iv') id)) (intervals e)) e
      else
        let (index, e') :=
          activateBatch (activationRate (config (manager e))) (interval_index iv) e in
        with_intervals
          (List.map (fun iv' => if Nat.eqb (interval_id iv') id
                                then mkInterval id index (interval_period iv')
                                else iv')
                    (intervals e'))
          e'
  end.

(** [clear()].  What [removeEntity] does with a zombie is the registry's
    business, and the registry is not part of these sources: the call is
    recorded and the zombie is left as it is. *)
Definition clear (e : Engine) : Engine :=
  let m := manager e in
  mkEngine (with_preloadComplete false (with_preloaded [] (with_enemies [] m)))
           (store e)
           (player e)
           (entityManager e ++ List.map RemoveEntity (enemies m))
           (intervals e)
           (nextInterval e).

(** The [properties] that [preloadZombies] and [spawnZombie] hand to the
    [Zombie] constructor. *)
Definition propertiesOf (ty : EnemyType) : Zombie.Properties :=
  {| Zombie.p_health := Some (type_health ty);
     Zombie.p_speed := Some (type_speed ty);
     Zombie.p_damage := Some (type_damage ty);
     Zombie.p_detectionRange := Some (type_detectionRange ty);
     Zombie.p_type := Some (type_id ty) |}.

(** The number of values one iteration of the loop of [preloadZombies]
    draws: one in [getRandomEnemyType], and in [getSpawnPosition] two for the
    default position, or one for the area and two for the point in it. *)
Definition drawsPerZombie (m : t) : nat :=
  match spawnAreas m with
  | [] => 3
  | _ :: _ => 4
  end.

(** The loop of [preloadZombies]; [count] iterations remain and [i] is the
    loop variable.  [rnd k] is the [k]-th value that [Math.random()] returns
    during the call.  The spawn point feeds only the zombie's position (see
    the conventions of [Zombie]).  The boolean is [false] when
    [getRandomEnemyType] returns [undefined] and reading [zombieType.health]
    throws. *)
Fixpoint preloadLoop (count i : nat) (rnd : nat -> Q) (e : Engine) : Engine * bool :=
  match count with
  | O => (e, true)
  | S count' =>
      let m := manager e in
      let m := with_preloadProgress
                 (inject_Z (Z.of_nat i) / inject_Z (Z.of_nat (maxEnemies (config m))) * 100)
                 m in
      match getRandomEnemyType m (rnd (i * drawsPerZombie m)%nat) with
      | None => (with_manager m e, false)
      | Some zombieType =>
          let zombie :=
            Zombie.with_enabled false (Zombie.init (Zombie.new (propertiesOf zombieType))) in
          let h := List.length (store e) in
          preloadLoop count' (S i) rnd
            (mkEngine (with_preloaded (preloadedZombies m ++ [h]) m)
                      (store e ++ [zombie])
                      (player e) (entityManager e) (intervals e) (nextInterval e))
      end
  end.

(** [preloadZombies()]: the resolved value of the promise, or [None] when it
    is rejected.  The points at which the function yields to the host
    ([await]) are not interleaved with other events. *)
Definition preloadZombies (rnd : nat -> Q) (e : Engine) : Engine * option bool :=
  if negb (player e) then (e, Some false)
  else
    match preloadLoop (maxEnemies (config (manager e))) 0 rnd e with
    | (e', true) => (with_manager (with_preloadComplete true (manager e')) e', Some true)
    | (e', false) => (e', None)
    end.

(** [spawnZombie(position, typeId = 'standard')]: the zombie's handle, or
    [None] when the method returns [null].  With no type under [typeId] and
    none under ['standard'], reading [typeData.health] throws before the
    zombie is constructed, and the exception is caught. *)
Definition spawnZombie (typeId : option string) (e : Engine) : Engine * option Handle :=
  let typeId := match typeId with Some id => id | None => "standard"%string end in
  let m := manager e in
  let typeData :=
    match map_get typeId (enemyTypes m) with
    | Some ty => Some ty
    | None => map_get "standard" (enemyTypes m)
    end in
  match typeData with
  | None => (e, None)
  | Some typeData =>
      let zombie := Zombie.init (Zombie.new (propertiesOf typeData)) in
      let h := List.length (store e) in
      (mkEngine (with_enemies (enemies m ++ [h]) m)
                (store e ++ [zombie])
                (player e)
                (entityManager e ++ [AddEntity h])
                (intervals e)
                (nextInterval e),
       Some h)
  end.

(** An engine whose manager has just been constructed and initialised. *)
Definition newEngine (hasPlayer : bool) : Engine :=
  mkEngine (init new) [] hasPlayer [] [] 0.

(** *** Sampling a point ([Math.cos], [Math.sin]: over the reals) *)

Definition vectorToR (v : Vector3 Q) : Vector3 R :=
  mkVector3 (Q2R (vx v)) (Q2R (vy v)) (Q2R (vz v)).

Definition areaToR (a : SpawnArea Q) : SpawnArea R :=
  {| area_id := area_id a;
     area_type := area_type a;
     area_weight := Q2R (area_weight a);
     minDistance := Q2R (minDistance a);
     maxDistance := Q2R (maxDistance a);
     center := option_map vectorToR (center a);
     radius := option_map Q2R (radius a);
     size := option_map (fun s => (Q2R (fst s), Q2R (snd s))) (size a) |}.

(** [getDefaultSpawnPosition(playerPosition)]; [u1] and [u2] are the two
    values of [Math.random()], in the order of the calls. *)
Definition getDefaultSpawnPosition (playerPosition : Vector3 R) (u1 u2 : R) : Vector3 R :=
  let angle := (u1 * PI * 2)%R in
  let distance := (30 + u2 * 50)%R in
  mkVector3 (vx playerPosition + cos angle * distance)%R
            (vy playerPosition)
            (vz playerPosition + sin angle * distance)%R.

(** [getPositionInArea(area, playerPosition)]; [None] when the source reads
    a property of an [undefined] [center] or [size]. *)
Definition getPositionInArea (area : SpawnArea R) (playerPosition : Vector3 R) (u1 u2 : R)
  : option (Vector3 R) :=
  if String.eqb (area_type area) "circle" then
    match center area, radius area with
    | Some c, Some r =>
        let angle := (u1 * PI * 2)%R in
        let distanceFromCenter := (u2 * r)%R in
        Some (mkVector3 (vx c + cos angle * distanceFromCenter)%R
                        (vy c)
                        (vz c + sin angle * distanceFromCenter)%R)
    | _, _ => None
    end
  else if String.eqb (area_type area) "rectangle" then
    match center area, size area with
    | Some c, Some (sx, sz) =>
        Some (mkVector3 (vx c + (u1 * 2 - 1) * sx / 2)%R
                        (vy c)
                        (vz c + (u2 * 2 - 1) * sz / 2)%R)
    | _, _ => None
    end
  else Some (getDefaultSpawnPosition playerPosition u1 u2).

(** [getSpawnPosition(playerPosition)]; [rnd] is the draw of
    [selectWeightedSpawnArea]. *)
Definition getSpawnPosition (m : t) (playerPosition : Vector3 R) (rnd : Q) (u1 u2 : R)
  : option (Vector3 R) :=
  match spawnAreas m with
  | [] => Some (getDefaultSpawnPosition playerPosition u1 u2)
  | _ :: _ =>
      match selectWeightedSpawnArea m rnd with
      | Some area => getPositionInArea (areaToR area) playerPosition u1 u2
      | None => None
      end
  end.

(** The horizontal distance between two points. *)
Definition horizontalDistance (p q : Vector3 R) : R :=
  sqrt ((vx p - vx q) * (vx p - vx q) + (vz p - vz q) * (vz p - vz q))%R.

End EnemyManager.

Import EnemyManager.

(** ** Vocabulary of the statements *)

(** The running sum of the weights of the regions at positions [0..k], in
    configuration order, started at [s]. *)
Definition weightSumFrom (s : Q) (areas : list (SpawnArea Q)) (k : nat) : Q :=
  fold_left Qplus (List.map area_weight (firstn (S k) areas)) s.

(** The cumulative weight of the region at position [k]. *)
Definition cumulativeWeight (areas : list (SpawnArea Q)) (k : nat) : Q :=
  weightSumFrom 0 areas k.

(** The map that the loop of [configure] builds from [tds], started from
    [acc]. *)
Definition registerAll (tds : list TypeData) (acc : JsMap EnemyType) : JsMap EnemyType :=
  fold_left (fun acc typeData => map_set (td_id typeData) (registerType typeData) acc)
            tds acc.

(** An entry of the map data: a circle of radius 30 and weight [w] centred
    at [(x, 0, z)], as in the example map. *)
Definition circleData (id : string) (w : Q) (x z : Q) : AreaData :=
  mkAreaData id (Some "circle"%string) (Some w) (Some 30) (Some 80)
             (Some x, Some 0, Some z) (Some 30) (None, None).

(** The fields of an agent that no method writes after construction and
    initialisation. *)
Definition sameStats (z z' : Zombie.t) : Prop :=
  Zombie.zombieType z' = Zombie.zombieType z
  /\ Zombie.detectionRange z' = Zombie.detectionRange z
  /\ Zombie.perceptionUpdateRate z' = Zombie.perceptionUpdateRate z
  /\ Zombie.maxHealth z' = Zombie.maxHealth z
  /\ Zombie.attackRange z' = Zombie.attackRange z
  /\ Zombie.attackCooldown z' = Zombie.attackCooldown z
  /\ Zombie.attackDamage z' = Zombie.attackDamage z
  /\ Zombie.skipAnimationWhenFar z' = Zombie.skipAnimationWhenFar z
  /\ Zombie.farDistance z' = Zombie.farDistance z.

(** [isAlive] is false exactly in state [death]. *)
Definition consistent (z : Zombie.t) : Prop :=
  Zombie.isAlive z = negb (Zombie.State_eqb (Zombie.state z) Zombie.death).

(** An idle agent does not hold a stale sighting of the player. *)
Definition settled (z : Zombie.t) : Prop :=
  Zombie.state z = Zombie.idle -> Zombie.canSeePlayer z = false.

(** The perception countdown never exceeds the perception period, and the
    period is the double that the literal [0.2] denotes. *)
Definition paced (z : Zombie.t) : Prop :=
  Zombie.updatePerceptionTime z <= Zombie.perceptionUpdateRate z
  /\ Zombie.perceptionUpdateRate z == binary64 0.2.

(** Simulated time does not run backwards. *)
Definition forward (e : Zombie.Event) : Prop :=
  match e with
  | Zombie.Tick deltaTime _ => 0 <= deltaTime
  | _ => True
  end.

(** A method leaves the construction-time fields alone and only appends to
    the log of transitions. *)
Definition grows (z z' : Zombie.t) : Prop :=
  sameStats z z'
  /\ exists l, Zombie.transitions z' = l ++ Zombie.transitions z.

(** The same, and the perception countdown is left alone too. *)
Definition evolves (z z' : Zombie.t) : Prop :=
  grows z z' /\ Zombie.updatePerceptionTime z' = Zombie.updatePerceptionTime z.

(** The agent is alive and not in its terminal state. *)
Definition live (z : Zombie.t) : Prop :=
  Zombie.isAlive z = true /\ Zombie.state z <> Zombie.death.

(** The invariant of an agent between two events. *)
Definition invariant (z : Zombie.t) : Prop :=
  consistent z /\ settled z /\ paced z.

(** The agent has reached its terminal state. *)
Definition dead (z : Zombie.t) : Prop :=
  Zombie.state z = Zombie.death /\ Zombie.isAlive z = false.

(** [n] successive calls of [takeDamage(amount)]. *)
Fixpoint repeatDamage (n : nat) (amount : Q) (z : Zombie.t) : Zombie.t :=
  match n with
  | O => z
  | S n' => Zombie.takeDamage amount (repeatDamage n' amount z)
  end.

(** A player standing at the origin, observed at distance [d], who can be
    damaged. *)
Definition playerAt (d : Q) : Zombie.PlayerObs :=
  Zombie.mkPlayerObs (mkVector3 0 0 0) d true.

(** A call of [update] with the player present, and the simulated time that
    a list of such calls covers. *)
Definition asTick (tk : Q * Zombie.PlayerObs) : Zombie.Event :=
  Zombie.Tick (fst tk) (Some (snd tk)).

Definition totalTime (ticks : list (Q * Zombie.PlayerObs)) : Q :=
  fold_right (fun tk acc => fst tk + acc) 0 ticks.

(** The most that the rounding of the countdown can add to it over [n]
    updates: [2 ^ -56] seconds per update. *)
Definition roundingSlack (n : nat) : Q := inject_Z (Z.of_nat n) * (1 # 2 ^ 56).

(** The properties of an agent built without an archetype, and of the
    [tank] archetype of the example map. *)
Definition defaultProperties : Zombie.Properties :=
  Zombie.mkProperties None None None None None.

Definition tankProperties : Zombie.Properties :=
  Zombie.mkProperties (Some 200) (Some 2) (Some 35) (Some 12) (Some "tank"%string).

(** [k] successive firings of the interval closure registered under [id]. *)
Fixpoint fireTimes (k : nat) (id : nat) (e : Engine) : Engine :=
  match k with
  | O => e
  | S k' => fireInterval id (fireTimes k' id e)
  end.

(** The ceiling of [a / b] on natural numbers. *)
Definition ceilDiv (a b : nat) : nat := ((a + b - 1) / b)%nat.

(** A weapon hit on the zombie named by [h]: the shared object is updated in
    the store. *)
Definition hitZombie (h : Handle) (amount : Q) (e : Engine) : Engine :=
  mkEngine (manager e) (update_nth h (Zombie.takeDamage amount) (store e))
           (player e) (entityManager e) (intervals e) (nextInterval e).

(** [enabled] of the zombie named by [h]. *)
Definition enabledAt (s : list Zombie.t) (h : Handle) : bool :=
  match nth_error s h with
  | Some z => Zombie.enabled z
  | None => false
  end.

(** An engine with a player, whose manager has been initialised and then
    configured with [c] and the spawn areas [areas]. *)
Definition configuredEngine (c : ConfigData) (areas : list AreaData) : Engine :=
  with_manager (configureSpawnAreas areas (configure c (manager (newEngine true))))
               (newEngine true).

(** The state of the staged activation of [n] preloaded agents after some
    firings of the timer registered under id 0: [index] agents are active,
    and the closure is registered with that index or, once the preloaded
    roster is exhausted, has cancelled itself. *)
Definition staged (n rate index : nat) (e : Engine) : Prop :=
  List.length (enemies (manager e)) = index
  /\ List.length (preloadedZombies (manager e)) = n
  /\ activationRate (config (manager e)) = rate
  /\ (index <= n)%nat
  /\ ((exists period, intervals e = [mkInterval 0 index period])
      \/ (intervals e = [] /\ index = n)).

(** The sum of the weights of a list of regions, accumulated from zero in
    configuration order. *)
Definition totalWeightOf (areas : list (SpawnArea Q)) : Q :=
  fold_left (fun s a => s + area_weight a) areas 0.

(** The zombie that [preloadZombies] builds from the archetype [ty]. *)
Definition preloadedFrom (ty : EnemyType) : Zombie.t :=
  Zombie.with_enabled false (Zombie.init (Zombie.new (propertiesOf ty))).

(** What a successful [spawnZombie] with the archetype [ty] does to the
    engine [e]: a new enabled zombie built from [ty] is stored under a fresh
    handle, appended to the active roster and registered, and nothing else
    changes. *)
Definition spawnedFrom (ty : EnemyType) (e : Engine) (r : Engine * option Handle) : Prop :=
  let h := List.length (store e) in
  snd r = Some h
  /\ store (fst r) = store e ++ [Zombie.init (Zombie.new (propertiesOf ty))]
  /\ enabledAt (store (fst r)) h = true
  /\ isAliveAt (store (fst r)) h = true
  /\ enemies (manager (fst r)) = enemies (manager e) ++ [h]
  /\ entityManager (fst r) = entityManager e ++ [AddEntity h]
  /\ preloadedZombies (manager (fst r)) = preloadedZombies (manager e)
  /\ config (manager (fst r)) = config (manager e)
  /\ intervals (fst r) = intervals e.

(** The store after [zombie.enabled = true] has been executed for the
    handles [hs], in order. *)
Definition enableAll (hs : list Handle) (s : list Zombie.t) : list Zombie.t :=
  fold_left (fun s h => update_nth h (Zombie.with_enabled true) s) hs s.

(** The state of a staged activation started on the engine [e0], whose timer
    is registered under [id] with period [period], when the first [index]
    preloaded agents have been activated: they have been appended to the
    active roster and registered, in preload order, [enabled] has been set
    on them, and the timer holds [index] or, the roster being exhausted, has
    been removed. *)
Definition activatedPrefix (e0 : Engine) (id period index : nat) (e : Engine) : Prop :=
  let P := preloadedZombies (manager e0) in
  enemies (manager e) = enemies (manager e0) ++ firstn index P
  /\ preloadedZombies (manager e) = P
  /\ config (manager e) = config (manager e0)
  /\ entityManager e = entityManager e0 ++ List.map AddEntity (firstn index P)
  /\ store e = enableAll (firstn index P) (store e0)
  /\ (index <= List.length P)%nat
  /\ (intervals e = intervals e0 ++ [mkInterval id index period]
      \/ (intervals e = intervals e0 /\ index = List.length P)).

(** The transitions of the behaviour state machine: idle to chase, chase to
    attack, chase back to idle, attack back to chase, and from any state
    but [death] to [death]. *)
Definition allowedTransition (tr : Zombie.State * Zombie.State) : Prop :=
  match tr with
  | (Zombie.idle, Zombie.chase) => True
  | (Zombie.chase, Zombie.attack) => True
  | (Zombie.chase, Zombie.idle) => True
  | (Zombie.attack, Zombie.chase) => True
  | (s, Zombie.death) => s <> Zombie.death
  | _ => False
  end.

(** [log] (newest entry first) is a path of allowed transitions that starts
    in [idle] and ends in [s]. *)
Fixpoint pathTo (s : Zombie.State) (log : list (Zombie.State * Zombie.State)) : Prop :=
  match log with
  | [] => s = Zombie.idle
  | (a, b) :: older => b = s /\ allowedTransition (a, b) /\ pathTo a older
  end.

(** The log of an agent is such a path to its current state. *)
Definition tracked (z : Zombie.t) : Prop :=
  pathTo (Zombie.state z) (Zombie.transitions z).

(** The sum of the amounts of the [takeDamage] calls among the events. *)
Definition totalDamage (es : list Zombie.Event) : Q :=
  fold_right (fun e acc => match e with Zombie.Hit amount => amount + acc | _ => acc end)
             0 es.
(** * Rounding to double precision

    The facts about [binary64] that the countdown of the agent needs: it
    keeps the sign, it is monotone, and below 1/4 it adds at most
    [2 ^ -56]. *)

Section Rounding.

Lemma two_pos (e : Z) : 0 < 2 ^ e.
Proof. apply Qpower_0_lt. reflexivity. Qed.

Lemma two_plus (a b : Z) : 2 ^ (a + b) == 2 ^ a * 2 ^ b.
Proof. apply Qpower_plus. discriminate. Qed.

Lemma two_succ (a : Z) : 2 ^ (a + 1) == 2 * 2 ^ a.
Proof. rewrite two_plus. change (2 ^ 1) with 2. apply Qmult_comm. Qed.

Lemma two_le (a b : Z) : (a <= b)%Z -> 2 ^ a <= 2 ^ b.
Proof. intros H. apply Qpower_le_compat_l; [exact H | discriminate]. Qed.

Lemma two_inject (a : Z) : (0 <= a)%Z -> inject_Z (2 ^ a) == 2 ^ a.
Proof. intros H. now rewrite Zpower_Qpower. Qed.

Lemma ilog2_spec (x : Q) : 0 < x -> 2 ^ ilog2 x <= x /\ x < 2 ^ (ilog2 x + 1).
Proof.
  intros Hx. destruct x as [n d].
  assert (Hn : (0 < n)%Z).
  { unfold Qlt in Hx. cbn in Hx. lia. }
  unfold ilog2. cbn [Qnum Qden].
  set (a := Z.log2 n). set (b := Z.log2 (Z.pos d)).
  assert (Ha0 : (0 <= a)%Z) by apply Z.log2_nonneg.
  assert (Hb0 : (0 <= b)%Z) by apply Z.log2_nonneg.
  destruct (Z.log2_spec n Hn) as [Ha1 Ha2]. fold a in Ha1, Ha2.
  destruct (Z.log2_spec (Z.pos d) eq_refl) as [Hb1 Hb2]. fold b in Hb1, Hb2.
  assert (HA1 : 2 ^ a <= inject_Z n).
  { rewrite <- two_inject by exact Ha0. rewrite Zle_Qle in Ha1; exact Ha1. }
  assert (HA2 : inject_Z n < 2 * 2 ^ a).
  { rewrite <- two_succ, <- two_inject by lia.
    rewrite <- Z.add_1_r in Ha2. rewrite Zlt_Qlt in Ha2; exact Ha2. }
  assert (HB1 : 2 ^ b <= inject_Z (Z.pos d)).
  { rewrite <- two_inject by exact Hb0. rewrite Zle_Qle in Hb1; exact Hb1. }
  assert (HB2 : inject_Z (Z.pos d) < 2 * 2 ^ b).
  { rewrite <- two_succ, <- two_inject by lia.
    rewrite <- Z.add_1_r in Hb2. rewrite Zlt_Qlt in Hb2; exact Hb2. }
  assert (Hx' : n # d == inject_Z n / inject_Z (Z.pos d)) by apply Qmake_Qdiv.
  assert (HD : 0 < inject_Z (Z.pos d)) by reflexivity.
  pose proof (two_pos a) as PA. pose proof (two_pos b) as PB.
  assert (Hab : 2 ^ (a - b) * 2 ^ b == 2 ^ a).
  { rewrite <- two_plus. now replace (a - b + b)%Z with a by lia. }
  pose proof (two_pos (a - b)) as PAB.
  assert (Hup : n # d < 2 * 2 ^ (a - b)).
  { rewrite Hx'. apply Qlt_shift_div_r; [exact HD|].
    apply Qlt_le_trans with (2 * 2 ^ a); [exact HA2|].
    rewrite <- Hab. rewrite <- !Qmult_assoc.
    apply Qmult_le_l; [reflexivity|]. apply Qmult_le_l; assumption. }
  assert (Hlow : 2 ^ (a - b) < 2 * (n # d)).
  { rewrite Hx'. unfold Qdiv. rewrite Qmult_assoc.
    apply Qlt_shift_div_l; [exact HD|].
    apply Qlt_le_trans with (2 ^ (a - b) * (2 * 2 ^ b)).
    - apply Qmult_lt_l; assumption.
    - rewrite (Qmult_comm 2 (2 ^ b)), Qmult_assoc, Hab.
      rewrite (Qmult_comm (2 ^ a) 2).
      apply Qmult_le_l; [reflexivity | exact HA1]. }
  destruct (Qle_bool (2 ^ (a - b)) (n # d)) eqn:E.
  - apply Qle_bool_iff in E. split; [exact E|]. now rewrite two_succ.
  - assert (E' : n # d < 2 ^ (a - b)).
    { apply Qnot_le_lt. intros H. apply Qle_bool_iff in H. congruence. }
    replace (a - b - 1 + 1)%Z with (a - b)%Z by lia.
    split; [|exact E'].
    assert (H2 : 2 ^ (a - b) == 2 * 2 ^ (a - b - 1)).
    { rewrite <- two_succ. now replace (a - b - 1 + 1)%Z with (a - b)%Z by lia. }
    rewrite H2 in Hlow. apply Qmult_lt_l in Hlow; [|reflexivity].
    now apply Qlt_le_weak.
Qed.

Lemma ilog2_mono (x y : Q) : 0 < x -> x <= y -> (ilog2 x <= ilog2 y)%Z.
Proof.
  intros Hx Hxy.
  destruct (ilog2_spec x Hx) as [H1 _].
  destruct (ilog2_spec y) as [_ H2]; [eapply Qlt_le_trans; eassumption|].
  assert (H : 2 ^ ilog2 x < 2 ^ (ilog2 y + 1)).
  { eapply Qle_lt_trans; [exact H1|]. eapply Qle_lt_trans; eassumption. }
  apply Qpower_lt_compat_l_inv in H; [lia | reflexivity].
Qed.

Lemma roundHalfEven_floor (q : Q) :
  roundHalfEven q = Qfloor q \/ roundHalfEven q = (Qfloor q + 1)%Z.
Proof.
  unfold roundHalfEven. destruct (Qcompare _ _); [destruct (Z.even _)| |]; auto.
Qed.

Lemma roundHalfEven_Z (k : Z) : roundHalfEven (inject_Z k) = k.
Proof.
  unfold roundHalfEven. rewrite Qfloor_Z.
  assert (H : Qcompare (inject_Z k - inject_Z k) (1 # 2) = Lt).
  { apply Qlt_alt. setoid_replace (inject_Z k - inject_Z k) with 0 by ring. reflexivity. }
  now rewrite H.
Qed.

Lemma roundHalfEven_mono (p q : Q) : p <= q -> (roundHalfEven p <= roundHalfEven q)%Z.
Proof.
  intros Hpq.
  pose proof (Qfloor_resp_le p q Hpq) as Hf.
  destruct (Z.eq_dec (Qfloor p) (Qfloor q)) as [E|N].
  - unfold roundHalfEven. rewrite E.
    destruct (Qcompare (p - inject_Z (Qfloor q)) (1 # 2)) eqn:Cp;
      destruct (Qcompare (q - inject_Z (Qfloor q)) (1 # 2)) eqn:Cq;
      try destruct (Z.even (Qfloor q)); try lia; exfalso;
      first [apply Qeq_alt in Cp | apply Qlt_alt in Cp | apply Qgt_alt in Cp];
      first [apply Qeq_alt in Cq | apply Qlt_alt in Cq | apply Qgt_alt in Cq];
      Lqa.lra.
  - destruct (roundHalfEven_floor p) as [-> | ->];
      destruct (roundHalfEven_floor q) as [-> | ->]; lia.
Qed.

Lemma roundHalfEven_upper (q : Q) : inject_Z (roundHalfEven q) <= q + (1 # 2).
Proof.
  pose proof (Qfloor_le q) as H.
  unfold roundHalfEven.
  destruct (Qcompare (q - inject_Z (Qfloor q)) (1 # 2)) eqn:C.
  - apply Qeq_alt in C. destruct (Z.even _); [Lqa.lra|].
    rewrite inject_Z_plus. change (inject_Z 1) with 1. Lqa.lra.
  - Lqa.lra.
  - apply Qgt_alt in C. rewrite inject_Z_plus. change (inject_Z 1) with 1.
    pose proof (Qlt_floor q) as H'. rewrite inject_Z_plus in H'.
    change (inject_Z 1) with 1 in H'. Lqa.lra.
Qed.

Lemma binary64_pos_nonneg (x : Q) : 0 <= x -> 0 <= binary64_pos x.
Proof.
  intros Hx. unfold binary64_pos.
  set (e := Z.max _ _).
  apply Qmult_le_0_compat; [|apply Qlt_le_weak, two_pos].
  change 0 with (inject_Z 0). rewrite <- Zle_Qle.
  rewrite <- (roundHalfEven_Z 0). apply roundHalfEven_mono.
  apply Qmult_le_0_compat; [exact Hx | apply Qlt_le_weak, two_pos].
Qed.

Lemma binary64_pos_mono (x y : Q) :
  0 < x -> x <= y -> binary64_pos x <= binary64_pos y.
Proof.
  intros Hx Hxy.
  assert (Hy : 0 < y) by (eapply Qlt_le_trans; eassumption).
  pose proof (ilog2_mono x y Hx Hxy) as Hl.
  destruct (ilog2_spec x Hx) as [_ Hx2].
  destruct (ilog2_spec y Hy) as [Hy1 _].
  unfold binary64_pos.
  set (ex := Z.max (ilog2 x) (-1022)). set (ey := Z.max (ilog2 y) (-1022)).
  assert (Hle : (ex <= ey)%Z) by (unfold ex, ey; lia).
  destruct (Z.eq_dec ex ey) as [E|N].
  - rewrite E. apply Qmult_le_compat_r; [|apply Qlt_le_weak, two_pos].
    rewrite <- Zle_Qle. apply roundHalfEven_mono.
    apply Qmult_le_compat_r; [exact Hxy | apply Qlt_le_weak, two_pos].
  - assert (Hlt : (ex < ey)%Z) by lia.
    assert (Hey : ey = ilog2 y) by (unfold ex, ey in *; lia).
    apply Qle_trans with (2 ^ ey).
    + (* the result for [x] does not leave its binade *)
      apply Qle_trans with (2 ^ (ex + 1)); [|apply two_le; lia].
      assert (Hq : x * 2 ^ (52 - ex) <= inject_Z (2 ^ 53)).
      { rewrite two_inject by lia.
        replace 53%Z with ((ex + 1) + (52 - ex))%Z at 1 by lia.
        rewrite two_plus.
        apply Qmult_le_compat_r; [|apply Qlt_le_weak, two_pos].
        apply Qlt_le_weak. eapply Qlt_le_trans; [exact Hx2|].
        apply two_le. unfold ex. lia. }
      apply roundHalfEven_mono in Hq. rewrite roundHalfEven_Z in Hq.
      rewrite Zle_Qle in Hq. rewrite two_inject in Hq by lia.
      replace (ex + 1)%Z with (53 + (ex - 52))%Z by lia.
      rewrite two_plus.
      apply Qmult_le_compat_r; [exact Hq | apply Qlt_le_weak, two_pos].
    + assert (Hq : inject_Z (2 ^ 52) <= y * 2 ^ (52 - ey)).
      { rewrite two_inject by lia.
        replace 52%Z with (ey + (52 - ey))%Z at 1 by lia.
        rewrite two_plus.
        apply Qmult_le_compat_r; [|apply Qlt_le_weak, two_pos].
        now rewrite Hey. }
      apply roundHalfEven_mono in Hq. rewrite roundHalfEven_Z in Hq.
      rewrite Zle_Qle in Hq. rewrite two_inject in Hq by lia.
      replace ey with (52 + (ey - 52))%Z at 1 by lia.
      rewrite two_plus.
      apply Qmult_le_compat_r; [exact Hq | apply Qlt_le_weak, two_pos].
Qed.

Lemma binary64_pos_upper (x : Q) (k : Z) :
  0 < x -> x < 2 ^ (k + 1) -> (-1022 <= k)%Z -> binary64_pos x <= x + 2 ^ (k - 53).
Proof.
  intros Hx Hk Hmin.
  destruct (ilog2_spec x Hx) as [H1 _].
  assert (Hl : (ilog2 x <= k)%Z).
  { assert (H : 2 ^ ilog2 x < 2 ^ (k + 1)) by (eapply Qle_lt_trans; eassumption).
    apply Qpower_lt_compat_l_inv in H; [lia | reflexivity]. }
  unfold binary64_pos. set (e := Z.max (ilog2 x) (-1022)).
  assert (He : (e <= k)%Z) by (unfold e; lia).
  pose proof (roundHalfEven_upper (x * 2 ^ (52 - e))) as Hr.
  apply Qle_trans with ((x * 2 ^ (52 - e) + (1 # 2)) * 2 ^ (e - 52)).
  - apply Qmult_le_compat_r; [exact Hr | apply Qlt_le_weak, two_pos].
  - assert (E1 : 2 ^ (52 - e) * 2 ^ (e - 52) == 1).
    { rewrite <- two_plus. now replace (52 - e + (e - 52))%Z with 0%Z by lia. }
    assert (E2 : (1 # 2) * 2 ^ (e - 52) == 2 ^ (e - 53)).
    { replace (e - 52)%Z with ((e - 53) + 1)%Z by lia. rewrite two_succ. field. }
    rewrite Qmult_plus_distr_l, <- Qmult_assoc, E1, E2, Qmult_1_r.
    apply Qplus_le_r. apply two_le. lia.
Qed.

Lemma binary64_comp (x y : Q) : x == y -> binary64 x = binary64 y.
Proof.
  intros H. unfold binary64.
  rewrite (Qred_complete x y H).
  rewrite (Qred_complete (- x) (- y)) by now rewrite H.
  unfold Qeq in H.
  destruct (Qnum x), (Qnum y); try reflexivity; lia.
Qed.

Lemma binary64_nonneg (x : Q) : 0 <= x -> 0 <= binary64 x.
Proof.
  intros Hx. unfold binary64. destruct x as [[|n|n] d]; cbn [Qnum].
  - apply Qle_refl.
  - rewrite Qred_correct. apply binary64_pos_nonneg. now rewrite Qred_correct.
  - exfalso. unfold Qle in Hx. cbn in Hx. lia.
Qed.

Lemma binary64_nonpos (x : Q) : x <= 0 -> binary64 x <= 0.
Proof.
  intros Hx. unfold binary64. destruct x as [[|n|n] d]; cbn [Qnum].
  - apply Qle_refl.
  - exfalso. unfold Qle in Hx. cbn in Hx. lia.
  - rewrite Qred_correct.
    assert (H : 0 <= binary64_pos (Qred (- (Z.neg n # d)))).
    { apply binary64_pos_nonneg. rewrite Qred_correct. Lqa.lra. }
    Lqa.lra.
Qed.

Lemma binary64_mono (x y : Q) : x <= y -> binary64 x <= binary64 y.
Proof.
  intros Hxy.
  destruct (Qlt_le_dec 0 x) as [Hx|Hx].
  - (* both positive *)
    assert (Hy : 0 < y) by (eapply Qlt_le_trans; eassumption).
    unfold binary64.
    destruct x as [[|n|n] d]; [discriminate Hx| |discriminate Hx].
    destruct y as [[|n'|n'] d']; [discriminate Hy| |discriminate Hy].
    cbn [Qnum]. apply Qred_le.
    apply binary64_pos_mono; rewrite ?Qred_correct; assumption.
  - destruct (Qlt_le_dec 0 y) as [Hy|Hy].
    + apply Qle_trans with 0; [now apply binary64_nonpos|].
      apply binary64_nonneg. now apply Qlt_le_weak.
    + (* both negative or zero *)
      unfold binary64.
      destruct y as [[|n'|n'] d']; cbn [Qnum].
      * change (binary64 x <= 0). now apply binary64_nonpos.
      * exfalso. unfold Qle in Hy. cbn in Hy. lia.
      * destruct x as [[|n|n] d]; cbn [Qnum].
        -- exfalso. unfold Qle in Hxy. cbn in Hxy. lia.
        -- exfalso. unfold Qle in Hx. cbn in Hx. lia.
        -- apply Qopp_le_compat. apply Qred_le.
           apply binary64_pos_mono; rewrite ?Qred_correct.
           ++ reflexivity.
           ++ now apply Qopp_le_compat.
Qed.

(** Below 1/4 two neighbouring doubles are at most [2 ^ -55] apart, so
    rounding adds at most [2 ^ -56]. *)
Lemma binary64_upper_quarter (x : Q) :
  0 < x -> x < 1 # 4 -> binary64 x <= x + (1 # 2 ^ 56).
Proof.
  intros Hx Hq. unfold binary64.
  destruct x as [[|n|n] d]; [discriminate Hx| |discriminate Hx].
  cbn [Qnum]. rewrite Qred_correct.
  set (x := Z.pos n # d) in *.
  assert (H : binary64_pos (Qred x) <= Qred x + 2 ^ (-3 - 53)).
  { apply binary64_pos_upper; rewrite ?Qred_correct; [exact Hx | exact Hq | lia]. }
  eapply Qle_trans; [exact H|].
  apply Qplus_le_compat; [rewrite Qred_correct; apply Qle_refl | vm_compute; discriminate].
Qed.

(** On the values that the countdown takes when an agent is updated every
    0.05 seconds, and on ties, negative and subnormal values, [binary64] and
    [js_sub] agree with the binary64 numbers of the kernel. *)
Lemma js_sub_agrees_with_kernel_floats :
  let d02 := double 7205759403792794 (-55) in
  let d005 := double 7205759403792794 (-57) in
  float2Q d02 = Some (binary64 0.2)
  /\ float2Q d005 = Some (binary64 0.05)
  /\ float2Q (PrimFloat.sub d02 d005) = Some (js_sub (binary64 0.2) (binary64 0.05))
  /\ float2Q (PrimFloat.sub (PrimFloat.sub d02 d005) d005)
     = Some (js_sub (js_sub (binary64 0.2) (binary64 0.05)) (binary64 0.05))
  /\ float2Q (PrimFloat.sub (PrimFloat.sub (PrimFloat.sub (PrimFloat.sub d02 d005) d005)
                                           d005) d005)
     = Some (js_sub (js_sub (js_sub (js_sub (binary64 0.2) (binary64 0.05))
                                    (binary64 0.05)) (binary64 0.05)) (binary64 0.05))
  /\ float2Q (PrimFloat.sub d005 d02) = Some (js_sub (binary64 0.05) (binary64 0.2))
  /\ float2Q (PrimFloat.div (double 1 0) (double 3 0)) = Some (binary64 (1 # 3))
  /\ float2Q (PrimFloat.div (double 1 (-1074)) (double 2 0)) = Some (binary64 (2 ^ (-1075)))
  /\ float2Q (PrimFloat.div (double 3 (-1074)) (double 2 0))
     = Some (binary64 (3 * 2 ^ (-1075))).
Proof.
  vm_compute. repeat split; reflexivity.
Qed.

(** The double that [0.2] denotes is a fixed point of the rounding, and it
    is less than [2 ^ -56] above 0.2. *)
Lemma binary64_period :
  binary64 (binary64 0.2) = binary64 0.2
  /\ 0 < binary64 0.2
  /\ binary64 0.2 < 1 # 4
  /\ binary64 0.2 <= 0.2 + (1 # 2 ^ 56).
Proof.
  vm_compute. repeat split; discriminate.
Qed.

(** The subtraction of the countdown: it does not stay positive when the
    exact difference is not, it does not rise above the period, and it
    exceeds the exact difference by at most [2 ^ -56]. *)
Lemma js_sub_nonpos (c deltaTime : Q) : c <= deltaTime -> js_sub c deltaTime <= 0.
Proof.
  intros H. unfold js_sub. apply binary64_nonpos. Lqa.lra.
Qed.

Lemma js_sub_below_period (c deltaTime rate : Q) :
  0 <= deltaTime -> c <= rate -> rate == binary64 0.2 -> js_sub c deltaTime <= rate.
Proof.
  intros Hdt Hc Hr. unfold js_sub.
  apply Qle_trans with (binary64 rate).
  - apply binary64_mono. Lqa.lra.
  - rewrite (binary64_comp rate (binary64 0.2) Hr).
    destruct binary64_period as [-> _]. rewrite Hr. apply Qle_refl.
Qed.

Lemma js_sub_upper (c deltaTime rate : Q) :
  0 <= deltaTime -> c <= rate -> rate == binary64 0.2 ->
  0 < js_sub c deltaTime ->
  0 < c - deltaTime /\ js_sub c deltaTime <= c - deltaTime + (1 # 2 ^ 56).
Proof.
  intros Hdt Hc Hr Hpos.
  assert (Hd : 0 < c - deltaTime).
  { apply Qnot_le_lt. intros H.
    assert (H' : js_sub c deltaTime <= 0) by (apply js_sub_nonpos; Lqa.lra).
    Lqa.lra. }
  split; [exact Hd|].
  unfold js_sub. apply binary64_upper_quarter; [exact Hd|].
  destruct binary64_period as [_ [_ [Hq _]]]. Lqa.lra.
Qed.

End Rounding.

(** * Weighted selection of a spawn area *)

Section WeightedWalk.

Lemma walkAreas_first_match (areas : list (SpawnArea Q)) :
  forall (r s : Q) (k : nat) (a : SpawnArea Q),
    nth_error areas k = Some a ->
    r <= weightSumFrom s areas k ->
    (forall j, (j < k)%nat -> ~ r <= weightSumFrom s areas j) ->
    walkAreas r s areas = Some a.
Proof.
  induction areas as [|area rest IH]; intros r s k a Hnth Hle Hfirst.
  - destruct k; discriminate.
  - destruct k as [|k]; simpl in *.
    + injection Hnth as <-.
      unfold weightSumFrom in Hle; simpl in Hle.
      apply Qle_bool_iff in Hle. now rewrite Hle.
    + assert (Hhead : Qle_bool r (s + area_weight area) = false).
      { destruct (Qle_bool r (s + area_weight area)) eqn:E; [|reflexivity].
        exfalso. apply (Hfirst 0%nat); [lia|].
        unfold weightSumFrom; simpl. now apply Qle_bool_iff. }
      rewrite Hhead.
      apply (IH r (s + area_weight area) k a Hnth).
      * exact Hle.
      * intros j Hj. apply (Hfirst (S j)). lia.
Qed.

Lemma walkAreas_no_match (areas : list (SpawnArea Q)) :
  forall (r s : Q),
    (forall k, (k < List.length areas)%nat -> ~ r <= weightSumFrom s areas k) ->
    walkAreas r s areas = None.
Proof.
  induction areas as [|area rest IH]; intros r s Hnone; simpl.
  - reflexivity.
  - destruct (Qle_bool r (s + area_weight area)) eqn:E.
    + exfalso. apply (Hnone 0%nat); [simpl; lia|].
      unfold weightSumFrom; simpl. now apply Qle_bool_iff.
    + apply IH. intros k Hk. apply (Hnone (S k)). simpl; lia.
Qed.


(** C1 (as amended).  For every non-empty list of spawn regions and every
  value [r] of the draw, the selection returns a region; it is the first
  region, in configuration order, whose cumulative weight is at least [r];
  when no cumulative weight reaches [r], it is the first region of the
  list. *)
Theorem selectWeightedSpawnArea_first_match_else_first :
forall (areas : list (SpawnArea Q)) (r : Q),
  areas <> [] ->
  (exists a, selectWeightedSpawnAreaAt areas r = Some a)
  /\ (forall k a,
        nth_error areas k = Some a ->
        r <= cumulativeWeight areas k ->
        (forall j, (j < k)%nat -> ~ r <= cumulativeWeight areas j) ->
        selectWeightedSpawnAreaAt areas r = Some a)
  /\ ((forall k, (k < List.length areas)%nat -> ~ r <= cumulativeWeight areas k) ->
      selectWeightedSpawnAreaAt areas r = hd_error areas).
Proof.
intros areas r Hne. unfold selectWeightedSpawnAreaAt.
split; [|split].
- destruct (walkAreas r 0 areas) as [a|]; [now exists a|].
  destruct areas as [|a rest]; [contradiction|]. now exists a.
- intros k a Hnth Hle Hfirst.
  now rewrite (walkAreas_first_match areas r 0 k a Hnth Hle Hfirst).
- intros Hnone. rewrite (walkAreas_no_match areas r 0 Hnone).
  now destruct areas.
Qed.

Lemma selectWeightedSpawnArea_first_match_else_first_witness :
let north := buildArea (circleData "north_area" 2 0 (-50)) in
let east := buildArea (circleData "east_area" 1 50 0) in
selectWeightedSpawnAreaAt [north; east] (5 # 2) = Some east
/\ selectWeightedSpawnAreaAt [north; east] 4 = Some north.
Proof.
intros north east.
assert (Hne : [north; east] <> []) by discriminate.
split.
- apply (selectWeightedSpawnArea_first_match_else_first [north; east] (5 # 2) Hne)
    with (k := 1%nat).
  + reflexivity.
  + vm_compute. discriminate.
  + intros j Hj. assert (j = 0%nat) as -> by lia. vm_compute. intros H; now apply H.
- apply (selectWeightedSpawnArea_first_match_else_first [north; east] 4 Hne).
  intros k Hk. simpl in Hk.
  destruct k as [|[|k]]; [| |lia]; vm_compute; intros H; now apply H.
Defined.

(** C1, the claim as written fails: with two regions of weights 2 and 1 and
  a draw that no cumulative weight reaches, the region returned is the
  first one, which is not the last one.  The same happens with a draw
  [Math.random() = 1/4] on a configured list whose weights are negative. *)
Lemma selectWeightedSpawnArea_fallback_is_not_last :
let north := buildArea (circleData "north_area" 2 0 (-50)) in
let east := buildArea (circleData "east_area" 1 50 0) in
let m := configureSpawnAreas
           [circleData "north_area" (-1) 0 (-50); circleData "east_area" (-1) 50 0]
           new in
((forall k, (k < 2)%nat -> ~ 4 <= cumulativeWeight [north; east] k)
 /\ selectWeightedSpawnAreaAt [north; east] 4 = Some north
 /\ selectWeightedSpawnAreaAt [north; east] 4 <> Some (last [north; east] north))
/\ (walkAreas ((1 # 4) * totalSpawnWeight m) 0
                           (spawnAreas m) = None
    /\ selectWeightedSpawnArea m (1 # 4) = hd_error (spawnAreas m)
    /\ selectWeightedSpawnArea m (1 # 4)
       <> Some (last (spawnAreas m) north)).
Proof.
intros north east m. split; [split; [|split]|split; [|split]].
- intros k Hk. destruct k as [|[|k]]; [| |lia]; vm_compute; intros H; now apply H.
- reflexivity.
- vm_compute. discriminate.
- reflexivity.
- reflexivity.
- vm_compute. discriminate.
Qed.

End WeightedWalk.

(** * Registration of archetypes *)

Section Archetypes.

Lemma js_or_nonzero (x : option Q) (d : Q) : ~ d == 0 -> ~ js_or x d == 0.
Proof.
  intros Hd. unfold js_or. destruct x as [v|]; [|exact Hd].
  destruct (Qeq_bool v 0) eqn:E; [exact Hd|].
  now apply Qeq_bool_neq.
Qed.

Lemma map_get_set_same {V} (k : string) (v : V) (m : JsMap V) :
  map_get k (map_set k v m) = Some v.
Proof.
  induction m as [|[k' v'] m IH]; simpl.
  - now rewrite String.eqb_refl.
  - destruct (String.eqb k k') eqn:E; simpl.
    + now rewrite String.eqb_refl.
    + now rewrite E.
Qed.

Lemma map_get_set_other {V} (k k' : string) (v : V) (m : JsMap V) :
  k <> k' -> map_get k' (map_set k v m) = map_get k' m.
Proof.
  intros Hne. induction m as [|[k0 v0] m IH]; simpl.
  - destruct (String.eqb k' k) eqn:E; [|reflexivity].
    apply String.eqb_eq in E. congruence.
  - destruct (String.eqb k k0) eqn:E; simpl.
    + apply String.eqb_eq in E. subst k0.
      destruct (String.eqb k' k) eqn:E'; [|reflexivity].
      apply String.eqb_eq in E'. congruence.
    + now rewrite IH.
Qed.

Lemma map_values_set {V} (k : string) (v x : V) (m : JsMap V) :
  In x (map_values (map_set k v m)) -> x = v \/ In x (map_values m).
Proof.
  unfold map_values. induction m as [|[k' v'] m IH]; simpl.
  - intros [H|[]]; now left.
  - destruct (String.eqb k k'); simpl.
    + intros [H|H]; [now left | now right; right].
    + intros [H|H]; [now right; left|].
      destruct (IH H) as [H'|H']; [now left | now right; right].
Qed.

Lemma registerAll_values (tds : list TypeData) :
  forall acc ty,
    In ty (map_values (registerAll tds acc)) ->
    In ty (map_values acc) \/ exists td, In td tds /\ ty = registerType td.
Proof.
  induction tds as [|td tds IH]; intros acc ty Hin; simpl in *.
  - now left.
  - destruct (IH _ _ Hin) as [H|[td' [H1 H2]]].
    + apply map_values_set in H. destruct H as [->|H]; [|now left].
      right. exists td. now split; [left|].
    + right. exists td'. now split; [right|].
Qed.

Lemma registerAll_keeps_key (tds : list TypeData) :
  forall acc k,
    (exists ty, map_get k acc = Some ty) ->
    exists ty, map_get k (registerAll tds acc) = Some ty.
Proof.
  induction tds as [|td tds IH]; intros acc k Hk; simpl.
  - exact Hk.
  - apply IH. destruct (string_dec (td_id td) k) as [<-|Hne].
    + eexists. apply map_get_set_same.
    + now rewrite map_get_set_other.
Qed.

Lemma registerAll_key (tds : list TypeData) :
  forall acc td,
    In td tds -> exists ty, map_get (td_id td) (registerAll tds acc) = Some ty.
Proof.
  induction tds as [|td0 tds IH]; intros acc td Hin; [destruct Hin|].
  destruct Hin as [->|Hin]; simpl.
  - apply registerAll_keeps_key. eexists. apply map_get_set_same.
  - now apply IH.
Qed.

(** C3 (as amended).  An archetype handed to [configure] with weight 0 is not
    rejected: it is registered, and the weight stored for it is the default
    1.  Every archetype registered by the call comes from the list and has a
    stored weight different from 0. *)
Theorem configure_registers_zero_weight_with_default :
  forall (m : t) (c : ConfigData) (tds : list TypeData) (td : TypeData) (w : Q),
    cd_enemyTypes c = Some tds ->
    In td tds ->
    td_weight td = Some w ->
    w == 0 ->
    (exists ty, map_get (td_id td) (enemyTypes (configure c m)) = Some ty)
    /\ type_weight (registerType td) = 1
    /\ (forall ty,
          In ty (map_values (enemyTypes (configure c m))) ->
          (exists td', In td' tds /\ ty = registerType td') /\ ~ type_weight ty == 0).
Proof.
  intros m c tds td w Hc Hin Hw Hzero.
  unfold configure. rewrite Hc.
  destruct tds as [|td0 tds0]; [destruct Hin|].
  set (tds := td0 :: tds0) in *.
  change (enemyTypes (with_enemyTypes (registerAll tds []) (with_config (mergeConfig (config m) c) m)))
    with (registerAll tds []).
  split; [|split].
  - now apply registerAll_key.
  - unfold registerType; simpl. rewrite Hw. simpl.
    apply Qeq_bool_iff in Hzero. now rewrite Hzero.
  - intros ty Hty. apply registerAll_values in Hty.
    destruct Hty as [[]|[td' [H1 ->]]].
    split; [now exists td'|].
    simpl. apply js_or_nonzero. discriminate.
Qed.

Lemma configure_registers_zero_weight_with_default_witness :
  let ghost := mkTypeData "ghost" (Some 0) (Some 50) None None None in
  let c := mkConfigData None None None None None (Some [ghost]) in
  (exists ty, map_get "ghost" (enemyTypes (configure c (init new))) = Some ty)
  /\ type_weight (registerType ghost) = 1
  /\ (forall ty,
        In ty (map_values (enemyTypes (configure c (init new)))) ->
        (exists td', In td' [ghost] /\ ty = registerType td') /\ ~ type_weight ty == 0).
Proof.
  intros ghost c.
  apply (configure_registers_zero_weight_with_default (init new) c [ghost] ghost 0).
  - reflexivity.
  - simpl. now left.
  - reflexivity.
  - reflexivity.
Defined.

(** C3, the claim as written fails: an archetype configured with weight 0 is
    present in the registered set after [configure], and [getRandomEnemyType]
    returns it. *)
Lemma zero_weight_archetype_is_registered_and_drawn :
  let ghost := mkTypeData "ghost" (Some 0) (Some 50) None None None in
  let m := configure (mkConfigData None None None None None (Some [ghost])) (init new) in
  td_weight ghost = Some 0
  /\ map_get "ghost" (enemyTypes m) = Some (registerType ghost)
  /\ getRandomEnemyType m (1 # 2) = Some (registerType ghost).
Proof.
  intros ghost m. repeat split.
Qed.

End Archetypes.

(** * Sampling a point in a circle *)

Section CircleSampling.

Local Open Scope R_scope.

(** C9.  For a circle region of radius [r >= 0] and draws [u1] (angle) and
    [u2] in [[0,1)] (radius factor), the sampled point has the elevation of
    the centre, its horizontal distance to the centre is exactly [u2 * r]
    (the draw scaled by the radius: uniform in radius), and that distance is
    at most [r]. *)
Theorem getPositionInArea_circle_radius :
  forall (area : SpawnArea R) (c playerPosition : Vector3 R) (r u1 u2 : R),
    area_type area = "circle"%string ->
    center area = Some c ->
    radius area = Some r ->
    0 <= r ->
    0 <= u2 < 1 ->
    exists p,
      getPositionInArea area playerPosition u1 u2 = Some p
      /\ vy p = vy c
      /\ horizontalDistance p c = u2 * r
      /\ horizontalDistance p c <= r.
Proof.
  intros area c pp r u1 u2 Hty Hc Hr Hr0 [Hu0 Hu1].
  unfold getPositionInArea. rewrite Hty, Hc, Hr. simpl.
  eexists. split; [reflexivity|].
  assert (Hd : 0 <= u2 * r) by (apply Rmult_le_pos; assumption).
  assert (Hdist :
    horizontalDistance
      (mkVector3 (vx c + cos (u1 * PI * 2) * (u2 * r)) (vy c)
                 (vz c + sin (u1 * PI * 2) * (u2 * r))) c = u2 * r).
  { unfold horizontalDistance; simpl.
    replace ((vx c + cos (u1 * PI * 2) * (u2 * r) - vx c) *
             (vx c + cos (u1 * PI * 2) * (u2 * r) - vx c) +
             (vz c + sin (u1 * PI * 2) * (u2 * r) - vz c) *
             (vz c + sin (u1 * PI * 2) * (u2 * r) - vz c))
      with ((u2 * r) * (u2 * r) *
            (Rsqr (sin (u1 * PI * 2)) + Rsqr (cos (u1 * PI * 2))))
      by (unfold Rsqr; ring).
    rewrite sin2_cos2, Rmult_1_r.
    now apply sqrt_square. }
  split; [reflexivity|]. split; [exact Hdist|].
  rewrite Hdist. nra.
Qed.

Lemma getPositionInArea_circle_radius_witness :
  let c := mkVector3 0 0 (-50) in
  let area := mkSpawnArea "north_area" "circle" 2 30 80 (Some c) (Some 30) None in
  exists p,
    getPositionInArea area (mkVector3 0 2 0) (1 / 4) (1 / 2) = Some p
    /\ vy p = vy c
    /\ horizontalDistance p c = 1 / 2 * 30
    /\ horizontalDistance p c <= 30.
Proof.
  intros c area.
  apply (getPositionInArea_circle_radius area c (mkVector3 0 2 0) 30 (1 / 4) (1 / 2)).
  - reflexivity.
  - reflexivity.
  - reflexivity.
  - lra.
  - lra.
Defined.

End CircleSampling.

(** * The agent: invariants of the state machine *)

Section AgentInvariants.

Import Zombie.

Ltac split_ifs :=
  repeat match goal with
         | |- context [if ?b then _ else _] => destruct b eqn:?
         | |- context [match ?x with Some _ => _ | None => _ end] => destruct x eqn:?
         end.

Lemma State_eqb_eq (a b : State) : State_eqb a b = true <-> a = b.
Proof. destruct a, b; simpl; split; congruence. Qed.

Lemma Qlt_bool_iff (a b : Q) : Qlt_bool a b = true <-> a < b.
Proof.
  unfold Qlt_bool. rewrite negb_true_iff. split.
  - intros H. apply Qnot_le_lt. intros Hle. apply Qle_bool_iff in Hle. congruence.
  - intros H. destruct (Qle_bool b a) eqn:E; [|reflexivity].
    apply Qle_bool_iff in E. exfalso. now apply (Qlt_not_le a b).
Qed.

Lemma Qle_bool_false (a b : Q) : Qle_bool a b = false <-> b < a.
Proof.
  rewrite <- Qlt_bool_iff. unfold Qlt_bool. now rewrite negb_true_iff.
Qed.

(** ** What [changeState] does *)

Lemma changeState_state (s : State) (z : t) : state (changeState s z) = s.
Proof.
  unfold changeState. destruct (State_eqb s (state z)) eqn:E.
  - apply State_eqb_eq in E. congruence.
  - destruct s; reflexivity.
Qed.

Lemma changeState_canSeePlayer (s : State) (z : t) :
  canSeePlayer (changeState s z) = canSeePlayer z.
Proof.
  unfold changeState. destruct (State_eqb s (state z)); [reflexivity|].
  destruct s; reflexivity.
Qed.

Lemma changeState_isAlive (s : State) (z : t) :
  s <> death -> isAlive (changeState s z) = isAlive z.
Proof.
  intros Hs. unfold changeState. destruct (State_eqb s (state z)); [reflexivity|].
  destruct s; try reflexivity. congruence.
Qed.

Lemma changeState_log (s : State) (z : t) :
  state z <> s -> transitions (changeState s z) = (state z, s) :: transitions z.
Proof.
  intros Hs. unfold changeState.
  destruct (State_eqb s (state z)) eqn:E.
  - apply State_eqb_eq in E. congruence.
  - destruct s; reflexivity.
Qed.

(** ** Frame: every method [evolves] the agent *)

Lemma grows_refl (z : t) : grows z z.
Proof. repeat split. now exists []. Qed.

Lemma grows_trans (a b c : t) : grows a b -> grows b c -> grows a c.
Proof.
  intros [Hs1 [l1 Hl1]] [Hs2 [l2 Hl2]].
  unfold sameStats in *.
  split.
  - repeat match goal with H : _ /\ _ |- _ => destruct H end.
    repeat split; congruence.
  - exists (l2 ++ l1). rewrite Hl2, Hl1. now rewrite app_assoc.
Qed.

Lemma evolves_refl (z : t) : evolves z z.
Proof. split; [apply grows_refl | reflexivity]. Qed.

Lemma evolves_trans (a b c : t) : evolves a b -> evolves b c -> evolves a c.
Proof.
  intros [H1 U1] [H2 U2]. split; [now apply (grows_trans a b c) | congruence].
Qed.

Ltac by_setter := repeat split; now exists [].

Lemma changeState_evolves (s : State) (z : t) : evolves z (changeState s z).
Proof.
  unfold changeState.
  destruct (State_eqb s (state z)); [apply evolves_refl|].
  destruct s; repeat split; now eexists [_].
Qed.

Lemma loseTrack_evolves (z : t) : evolves z (loseTrack z).
Proof.
  unfold loseTrack. split_ifs; [apply changeState_evolves | apply evolves_refl].
Qed.

Lemma processChaseState_evolves (player : option PlayerObs) (z : t) :
  evolves z (processChaseState player z).
Proof.
  unfold processChaseState. destruct player as [p|]; [|apply evolves_refl].
  destruct (canSeePlayer z).
  - simpl. destruct (Qle_bool _ _).
    + eapply evolves_trans; [|apply changeState_evolves]. by_setter.
    + eapply evolves_trans; [|apply loseTrack_evolves]. by_setter.
  - destruct (lastKnownPlayerPosition z); [destruct (Qle_bool _ _)|];
      first [apply changeState_evolves | apply loseTrack_evolves].
Qed.

Lemma processAttackState_evolves (player : option PlayerObs) (z : t) :
  evolves z (fst (processAttackState player z)).
Proof.
  unfold processAttackState. destruct player as [p|]; [|apply evolves_refl].
  split_ifs; simpl; [apply changeState_evolves | by_setter | apply evolves_refl].
Qed.

Lemma processStateMachine_evolves (player : option PlayerObs) (z : t) :
  evolves z (fst (processStateMachine player z)).
Proof.
  unfold processStateMachine.
  set (z1 := if State_eqb (state z) idle && canSeePlayer z then changeState chase z else z).
  assert (H1 : evolves z z1).
  { unfold z1. destruct (_ && _); [apply changeState_evolves | apply evolves_refl]. }
  eapply evolves_trans; [exact H1|].
  destruct (state z1); simpl;
    [apply evolves_refl | apply processChaseState_evolves
     | apply processAttackState_evolves | apply evolves_refl].
Qed.

Lemma takeDamage_evolves (amount : Q) (z : t) : evolves z (takeDamage amount z).
Proof.
  unfold takeDamage. destruct (_ && _).
  - eapply evolves_trans; [|apply changeState_evolves]. by_setter.
  - by_setter.
Qed.

Lemma returnToChase_evolves (z : t) : evolves z (returnToChase z).
Proof.
  unfold returnToChase. destruct (State_eqb _ _);
    [apply changeState_evolves | apply evolves_refl].
Qed.

Lemma updatePerception_grows (deltaTime : Q) (player : option PlayerObs) (z : t) :
  grows z (updatePerception deltaTime player z).
Proof.
  unfold updatePerception, onPlayerSpotted. simpl.
  destruct (Qle_bool _ _); [|by_setter].
  destruct player as [p|]; [|by_setter].
  simpl. destruct (Qle_bool _ _); [|by_setter].
  destruct (_ && _); [|by_setter].
  eapply grows_trans; [|apply changeState_evolves]. by_setter.
Qed.

Lemma update_grows (deltaTime : Q) (player : option PlayerObs) (z : t) :
  grows z (fst (update deltaTime player z)).
Proof.
  unfold update.
  destruct (_ || _); [apply grows_refl|].
  assert (H : forall z0, grows z z0 ->
                grows z (fst (processStateMachine player (updatePerception deltaTime player z0)))).
  { intros z0 H0. eapply grows_trans; [exact H0|].
    eapply grows_trans; [apply updatePerception_grows|].
    apply processStateMachine_evolves. }
  destruct (_ && _); [destruct (Qlt_bool _ _)|]; try (apply H); by_setter.
Qed.

(** ** [isAlive] is false exactly in state [death] *)

Lemma consistent_live (z : t) : consistent z -> isAlive z = true -> live z.
Proof.
  unfold consistent, live. intros Hc Ha. split; [exact Ha|].
  intros Hs. rewrite Hs, Ha in Hc. discriminate.
Qed.

Lemma live_consistent (z : t) : live z -> consistent z.
Proof.
  unfold consistent, live. intros [Ha Hs]. rewrite Ha.
  destruct (state z); try reflexivity. congruence.
Qed.

Lemma changeState_live (s : State) (z : t) :
  live z -> s <> death -> live (changeState s z).
Proof.
  intros [Ha Hs] Hne. split.
  - now rewrite changeState_isAlive.
  - now rewrite changeState_state.
Qed.

Lemma changeState_death (z : t) :
  state z <> death ->
  state (changeState death z) = death /\ isAlive (changeState death z) = false.
Proof.
  intros Hs. unfold changeState.
  destruct (State_eqb death (state z)) eqn:E.
  - apply State_eqb_eq in E. congruence.
  - split; reflexivity.
Qed.

Lemma loseTrack_live (z : t) : live z -> live (loseTrack z).
Proof.
  intros H. unfold loseTrack. destruct (_ && _); [|exact H].
  apply changeState_live; [exact H | discriminate].
Qed.

Lemma processChaseState_live (player : option PlayerObs) (z : t) :
  live z -> live (processChaseState player z).
Proof.
  intros H. unfold processChaseState. destruct player as [p|]; [|exact H].
  set (z1 := if canSeePlayer z then _ else z).
  assert (H1 : live z1) by (unfold z1; destruct (canSeePlayer z); exact H).
  destruct (lastKnownPlayerPosition z1); [destruct (Qle_bool _ _)|].
  - apply changeState_live; [exact H1 | discriminate].
  - now apply loseTrack_live.
  - now apply loseTrack_live.
Qed.

Lemma processAttackState_live (player : option PlayerObs) (z : t) :
  live z -> live (fst (processAttackState player z)).
Proof.
  intros H. unfold processAttackState. destruct player as [p|]; [|exact H].
  destruct (Qlt_bool _ _); [|destruct (Qlt_bool _ _)]; simpl.
  - apply changeState_live; [exact H | discriminate].
  - exact H.
  - exact H.
Qed.

Lemma processStateMachine_live (player : option PlayerObs) (z : t) :
  live z -> live (fst (processStateMachine player z)).
Proof.
  intros H. unfold processStateMachine.
  set (z1 := if State_eqb (state z) idle && canSeePlayer z then changeState chase z else z).
  assert (H1 : live z1).
  { unfold z1. destruct (_ && _); [|exact H].
    apply changeState_live; [exact H | discriminate]. }
  destruct (state z1); simpl;
    [exact H1 | now apply processChaseState_live
     | now apply processAttackState_live | exact H1].
Qed.

Lemma updatePerception_live (deltaTime : Q) (player : option PlayerObs) (z : t) :
  live z -> live (updatePerception deltaTime player z).
Proof.
  intros H. unfold updatePerception, onPlayerSpotted. simpl.
  destruct (Qle_bool _ _); [|exact H].
  destruct player as [p|]; [|exact H].
  simpl. destruct (Qle_bool _ _); [|exact H].
  destruct (_ && _); [|exact H].
  apply changeState_live; [exact H | discriminate].
Qed.

Lemma update_consistent (deltaTime : Q) (player : option PlayerObs) (z : t) :
  consistent z -> consistent (fst (update deltaTime player z)).
Proof.
  intros Hc. unfold update.
  destruct (negb (enabled z) || negb (isAlive z)) eqn:E; [exact Hc|].
  apply orb_false_iff in E. destruct E as [_ Ha]. apply negb_false_iff in Ha.
  pose proof (consistent_live z Hc Ha) as Hl.
  apply live_consistent.
  assert (H : forall z0, live z0 ->
                live (fst (processStateMachine player (updatePerception deltaTime player z0)))).
  { intros z0 H0. now apply processStateMachine_live, updatePerception_live. }
  destruct (_ && _); [destruct (Qlt_bool _ _)|]; try (apply H); exact Hl.
Qed.

Lemma takeDamage_consistent (amount : Q) (z : t) :
  consistent z -> consistent (takeDamage amount z).
Proof.
  intros Hc. unfold takeDamage.
  destruct (Qle_bool _ _ && isAlive _) eqn:E; [|exact Hc].
  apply andb_true_iff in E. destruct E as [_ Ha]. simpl in Ha.
  destruct (consistent_live z Hc Ha) as [_ Hs].
  destruct (changeState_death (with_health (health z - amount) z) Hs) as [H1 H2].
  unfold consistent. now rewrite H1, H2.
Qed.

Lemma returnToChase_consistent (z : t) : consistent z -> consistent (returnToChase z).
Proof.
  intros Hc. unfold returnToChase.
  destruct (State_eqb (state z) attack) eqn:E; [|exact Hc].
  apply State_eqb_eq in E. apply live_consistent, changeState_live; [|discriminate].
  apply consistent_live; [exact Hc|].
  unfold consistent in Hc. now rewrite Hc, E.
Qed.

(** ** An idle agent holds no stale sighting *)

Lemma loseTrack_settled (z : t) : state z <> idle -> settled (loseTrack z).
Proof.
  intros Hs. unfold loseTrack, settled.
  destruct (negb (canSeePlayer z) && _) eqn:E.
  - intros _. rewrite changeState_canSeePlayer.
    apply andb_true_iff in E. destruct E as [E _]. now apply negb_true_iff in E.
  - intros H. congruence.
Qed.

Lemma processChaseState_settled (player : option PlayerObs) (z : t) :
  state z = chase -> settled (processChaseState player z).
Proof.
  intros Hs. unfold processChaseState.
  destruct player as [p|]; [|unfold settled; intros H; congruence].
  set (z1 := if canSeePlayer z then _ else z).
  assert (H1 : state z1 = chase) by (unfold z1; destruct (canSeePlayer z); exact Hs).
  assert (H2 : state z1 <> idle) by congruence.
  destruct (lastKnownPlayerPosition z1); [destruct (Qle_bool _ _)|].
  - unfold settled. rewrite changeState_state. discriminate.
  - now apply loseTrack_settled.
  - now apply loseTrack_settled.
Qed.

Lemma processAttackState_settled (player : option PlayerObs) (z : t) :
  state z = attack -> settled (fst (processAttackState player z)).
Proof.
  intros Hs. unfold processAttackState, settled.
  destruct player as [p|]; [|simpl; intros H; congruence].
  destruct (Qlt_bool _ _); [|destruct (Qlt_bool _ _)]; simpl.
  - rewrite changeState_state. discriminate.
  - intros H; congruence.
  - intros H; congruence.
Qed.

Lemma processStateMachine_settled (player : option PlayerObs) (z : t) :
  settled (fst (processStateMachine player z)).
Proof.
  unfold processStateMachine.
  set (z1 := if State_eqb (state z) idle && canSeePlayer z then changeState chase z else z).
  assert (H1 : settled z1).
  { unfold z1, settled. destruct (State_eqb (state z) idle && canSeePlayer z) eqn:E.
    - rewrite changeState_state. discriminate.
    - intros Hs. rewrite Hs in E. exact E. }
  destruct (state z1) eqn:Hs; simpl.
  - exact H1.
  - now apply processChaseState_settled.
  - now apply processAttackState_settled.
  - exact H1.
Qed.

Lemma update_settled (deltaTime : Q) (player : option PlayerObs) (z : t) :
  settled z -> settled (fst (update deltaTime player z)).
Proof.
  intros Hc. unfold update.
  destruct (_ || _); [exact Hc|].
  destruct (_ && _); [destruct (Qlt_bool _ _)|];
    first [apply processStateMachine_settled | exact Hc].
Qed.

Lemma takeDamage_settled (amount : Q) (z : t) : settled z -> settled (takeDamage amount z).
Proof.
  intros Hc. unfold takeDamage. destruct (_ && _); [|exact Hc].
  unfold settled. rewrite changeState_state. discriminate.
Qed.

Lemma returnToChase_settled (z : t) : settled z -> settled (returnToChase z).
Proof.
  intros Hc. unfold returnToChase. destruct (State_eqb _ _); [|exact Hc].
  unfold settled. rewrite changeState_state. discriminate.
Qed.

(** ** The perception countdown stays within one period *)

Lemma evolves_paced (z z' : t) : evolves z z' -> paced z -> paced z'.
Proof.
  intros [[Hs _] Hu] [H1 H2]. unfold paced, sameStats in *.
  destruct Hs as [_ [_ [Hr _]]]. rewrite Hu, Hr. now split.
Qed.

Lemma updatePerception_paced (deltaTime : Q) (player : option PlayerObs) (z : t) :
  0 <= deltaTime -> paced z -> paced (updatePerception deltaTime player z).
Proof.
  intros Hdt [H1 H2]. unfold updatePerception, onPlayerSpotted. simpl.
  assert (Hreset : forall z0, perceptionUpdateRate z0 = perceptionUpdateRate z ->
                     updatePerceptionTime z0 = perceptionUpdateRate z -> paced z0).
  { intros z0 Hr Hu. unfold paced. rewrite Hr, Hu. split; [apply Qle_refl | exact H2]. }
  destruct (Qle_bool _ _).
  - destruct player as [p|]; [|now apply Hreset].
    simpl. destruct (Qle_bool _ _); [|now apply Hreset].
    destruct (_ && _); [|now apply Hreset].
    eapply evolves_paced; [apply changeState_evolves|]. now apply Hreset.
  - unfold paced; simpl. split; [|exact H2].
    now apply js_sub_below_period.
Qed.

Lemma update_paced (deltaTime : Q) (player : option PlayerObs) (z : t) :
  0 <= deltaTime -> paced z -> paced (fst (update deltaTime player z)).
Proof.
  intros Hdt Hp. unfold update.
  destruct (_ || _); [exact Hp|].
  assert (H : forall z0, paced z0 ->
                paced (fst (processStateMachine player (updatePerception deltaTime player z0)))).
  { intros z0 H0. eapply evolves_paced; [apply processStateMachine_evolves|].
    now apply updatePerception_paced. }
  destruct (_ && _); [destruct (Qlt_bool _ _)|]; try (apply H); exact Hp.
Qed.

(** ** The invariant along a run *)

Lemma spawn_invariant (properties : Properties) : invariant (zombie (spawn properties)).
Proof.
  repeat split; try reflexivity; simpl; discriminate.
Qed.

Lemma step_zombie_tick (w : World) (deltaTime : Q) (player : option PlayerObs) :
  zombie (step w (Tick deltaTime player)) = fst (update deltaTime player (zombie w)).
Proof. simpl. now destruct (update deltaTime player (zombie w)). Qed.

Lemma step_invariant (w : World) (e : Event) :
  forward e -> invariant (zombie w) -> invariant (zombie (step w e)).
Proof.
  intros Hf Hi. pose proof Hi as [Hc [Hs Hp]]. destruct e as [deltaTime player|amount|b|ms|n p].
  - rewrite step_zombie_tick. split; [|split].
    + now apply update_consistent.
    + now apply update_settled.
    + now apply update_paced.
  - simpl. split; [|split].
    + now apply takeDamage_consistent.
    + now apply takeDamage_settled.
    + eapply evolves_paced; [apply takeDamage_evolves | exact Hp].
  - exact Hi.
  - simpl. destruct (Qle_bool 0 ms); exact Hi.
  - simpl. destruct (nth_error (pending w) n) as [tm|]; [|exact Hi].
    destruct (Qle_bool _ _); [|exact Hi].
    destruct (pending_callback tm); simpl.
    + destruct (dealDamage p (zombie w)); exact Hi.
    + split; [|split].
      * now apply returnToChase_consistent.
      * now apply returnToChase_settled.
      * eapply evolves_paced; [apply returnToChase_evolves | exact Hp].
Qed.

Lemma run_invariant (es : list Event) :
  forall w, Forall forward es -> invariant (zombie w) -> invariant (zombie (run w es)).
Proof.
  induction es as [|e es IH]; intros w Hf Hi; [exact Hi|].
  inversion Hf; subst. simpl. apply IH; [assumption|].
  now apply step_invariant.
Qed.

Lemma run_consistent (es : list Event) :
  forall w, consistent (zombie w) -> consistent (zombie (run w es)).
Proof.
  induction es as [|e es IH]; intros w Hc; [exact Hc|].
  simpl. apply IH. destruct e as [deltaTime player|amount|b|ms|n p].
  - rewrite step_zombie_tick. now apply update_consistent.
  - now apply takeDamage_consistent.
  - exact Hc.
  - simpl. now destruct (Qle_bool 0 ms).
  - simpl. destruct (nth_error (pending w) n) as [tm|]; [|exact Hc].
    destruct (Qle_bool _ _); [|exact Hc].
    destruct (pending_callback tm); simpl.
    + now destruct (dealDamage p (zombie w)).
    + now apply returnToChase_consistent.
Qed.

Lemma step_grows (w : World) (e : Event) : grows (zombie w) (zombie (step w e)).
Proof.
  destruct e as [deltaTime player|amount|b|ms|n p].
  - rewrite step_zombie_tick. apply update_grows.
  - apply takeDamage_evolves.
  - by_setter.
  - simpl. destruct (Qle_bool 0 ms); apply grows_refl.
  - simpl. destruct (nth_error (pending w) n) as [tm|]; [|apply grows_refl].
    destruct (Qle_bool _ _); [|apply grows_refl].
    destruct (pending_callback tm); simpl.
    + destruct (dealDamage p (zombie w)); apply grows_refl.
    + apply returnToChase_evolves.
Qed.

Lemma run_grows (es : list Event) : forall w, grows (zombie w) (zombie (run w es)).
Proof.
  induction es as [|e es IH]; intros w; [apply grows_refl|].
  simpl. eapply grows_trans; [apply step_grows | apply IH].
Qed.

End AgentInvariants.

(** * The agent: combat *)

Section AgentCombat.

Import Zombie.

Lemma takeDamage_dead (amount : Q) (z : t) :
  isAlive z = false ->
  takeDamage amount z = with_health (health z - amount) z.
Proof.
  intros Ha. unfold takeDamage. simpl. rewrite Ha. now rewrite andb_false_r.
Qed.

Lemma repeatDamage_dead (n : nat) (amount : Q) (z : t) :
  dead z ->
  dead (repeatDamage n amount z)
  /\ health (repeatDamage n amount z) == health z - inject_Z (Z.of_nat n) * amount.
Proof.
  intros Hd. induction n as [|n [IHd IHh]].
  - split; [exact Hd|]. simpl. ring.
  - destruct IHd as [Hs Ha]. simpl repeatDamage.
    rewrite (takeDamage_dead _ _ Ha). split; [now split|].
    simpl health. rewrite IHh, Nat2Z.inj_succ. unfold Z.succ.
    rewrite inject_Z_plus. ring.
Qed.

(** C6.  On every agent that a run of events can produce: if it is alive,
    a call of [takeDamage] that brings [health] to 0 or below returns with
    [state = death] and [isAlive = false]; if it is not alive (it is in
    state [death]), every further call subtracts the amount from [health],
    without a lower bound, and leaves [state] and [isAlive] as they are. *)
Theorem takeDamage_lethal_enters_death_then_inert :
  forall (properties : Properties) (history : list Event) (amount : Q),
    let z := zombie (run (spawn properties) history) in
    (isAlive z = true ->
     health z - amount <= 0 ->
     state (takeDamage amount z) = death /\ isAlive (takeDamage amount z) = false)
    /\ (isAlive z = false ->
        state z = death
        /\ health (takeDamage amount z) = health z - amount
        /\ (0 < amount -> health (takeDamage amount z) < health z)
        /\ state (takeDamage amount z) = state z
        /\ isAlive (takeDamage amount z) = isAlive z
        /\ forall n,
             state (repeatDamage n amount z) = death
             /\ isAlive (repeatDamage n amount z) = false
             /\ health (repeatDamage n amount z) == health z - inject_Z (Z.of_nat n) * amount).
Proof.
  intros properties history amount z.
  assert (Hc : consistent z).
  { apply run_consistent. apply spawn_invariant. }
  split.
  - intros Ha Hle.
    destruct (consistent_live z Hc Ha) as [_ Hs].
    unfold takeDamage. simpl. rewrite Ha.
    apply Qle_bool_iff in Hle. rewrite Hle. simpl.
    now apply changeState_death.
  - intros Ha.
    assert (Hs : state z = death).
    { unfold consistent in Hc. rewrite Ha in Hc.
      destruct (state z); simpl in Hc; congruence. }
    rewrite (takeDamage_dead _ _ Ha). simpl.
    repeat split; try assumption.
    + intros Hpos. rewrite <- (Qplus_0_r (health z)) at 2.
      unfold Qminus. apply Qplus_lt_r.
      apply (Qopp_lt_compat 0 amount) in Hpos. exact Hpos.
    + now apply repeatDamage_dead.
    + now apply repeatDamage_dead.
    + now apply repeatDamage_dead.
Qed.

Lemma takeDamage_lethal_enters_death_then_inert_witness :
  let fresh := zombie (run (spawn defaultProperties) []) in
  let corpse := zombie (run (spawn defaultProperties) [Hit 60; Hit 40]) in
  (state (takeDamage 100 fresh) = death /\ isAlive (takeDamage 100 fresh) = false)
  /\ (state corpse = death
      /\ health (takeDamage 25 corpse) = health corpse - 25
      /\ (0 < 25 -> health (takeDamage 25 corpse) < health corpse)
      /\ state (takeDamage 25 corpse) = state corpse
      /\ isAlive (takeDamage 25 corpse) = isAlive corpse
      /\ forall n,
           state (repeatDamage n 25 corpse) = death
           /\ isAlive (repeatDamage n 25 corpse) = false
           /\ health (repeatDamage n 25 corpse) == health corpse - inject_Z (Z.of_nat n) * 25).
Proof.
  intros fresh corpse. split.
  - apply (takeDamage_lethal_enters_death_then_inert defaultProperties [] 100).
    + reflexivity.
    + vm_compute. discriminate.
  - apply (takeDamage_lethal_enters_death_then_inert defaultProperties [Hit 60; Hit 40] 25).
    reflexivity.
Defined.

(** ** The damage dealt to the player *)

Lemma dealDamage_amount (p : PlayerObs) (z : t) (amount : Q) :
  dealDamage p z = Some amount ->
  amount = 20
  /\ state z = attack
  /\ player_takeDamage p = true
  /\ distanceToPlayer p <= attackRange z.
Proof.
  unfold dealDamage.
  destruct (State_eqb (state z) attack) eqn:Es; simpl; [|discriminate].
  destruct (player_takeDamage p); simpl; [|discriminate].
  destruct (Qle_bool _ _) eqn:Ed; [|discriminate].
  intros H. injection H as <-.
  repeat split.
  - now apply State_eqb_eq.
  - now apply Qle_bool_iff.
Qed.

Lemma step_hits (w : World) (e : Event) :
  playerHits (step w e) = playerHits w
  \/ exists n p tm,
       e = Fire n p
       /\ nth_error (pending w) n = Some tm
       /\ pending_callback tm = DealDamage
       /\ due tm <= clock w
       /\ dealDamage p (zombie w) = Some 20
       /\ playerHits (step w e) = mkPlayerHit 20 (clock w) :: playerHits w.
Proof.
  destruct e as [deltaTime player|amount|b|ms|n p]; simpl.
  - left. now destruct (update deltaTime player (zombie w)).
  - now left.
  - now left.
  - left. now destruct (Qle_bool 0 ms).
  - destruct (nth_error (pending w) n) as [tm|] eqn:En; [|now left].
    destruct (Qle_bool (due tm) (clock w)) eqn:Ed; [|now left].
    destruct (pending_callback tm) eqn:Ec; simpl; [|now left].
    destruct (dealDamage p (zombie w)) as [amount|] eqn:Ea; [|now left].
    right. exists n, p, tm.
    destruct (dealDamage_amount _ _ _ Ea) as [-> _].
    repeat split; try assumption; try reflexivity.
    now apply Qle_bool_iff.
Qed.

Lemma run_hits_20 (es : list Event) :
  forall w,
    Forall (fun h => hit_amount h = 20) (playerHits w) ->
    Forall (fun h => hit_amount h = 20) (playerHits (run w es)).
Proof.
  induction es as [|e es IH]; intros w Hw; [exact Hw|].
  simpl. apply IH.
  destruct (step_hits w e) as [->|[n [p [tm [_ [_ [_ [_ [_ ->]]]]]]]]].
  - exact Hw.
  - now constructor.
Qed.

(** C10.  Along every run of an agent built from any archetype, the field
    [attackDamage] keeps the value derived from the archetype's [damage],
    and every amount handed to [player.takeDamage] is 20.  With the [tank]
    archetype ([damage] 35) a hit is dealt, and its amount is 20. *)
Theorem attack_damage_applied_is_constant_20 :
  (forall (properties : Properties) (history : list Event),
     let w := run (spawn properties) history in
     attackDamage (zombie w) = js_or (p_damage properties) 20
     /\ Forall (fun h => hit_amount h = 20) (playerHits w))
  /\ (let w := run (spawn tankProperties)
                   (repeat (Tick 0.1 (Some (playerAt 1))) 13
                    ++ [Elapse 500; Fire 0 (playerAt 1)]) in
      attackDamage (zombie w) = 35
      /\ List.map hit_amount (playerHits w) = [20]).
Proof.
  split.
  - intros properties history w. split.
    + destruct (run_grows history (spawn properties)) as [Hs _].
      unfold sameStats in Hs.
      destruct Hs as [_ [_ [_ [_ [_ [_ [Hd _]]]]]]].
      unfold w. rewrite Hd. reflexivity.
    + apply run_hits_20. constructor.
  - vm_compute. split; reflexivity.
Qed.

End AgentCombat.

(** * The agent: deferred damage *)

Section DeferredDamage.

Import Zombie.

Lemma processAttackState_timeouts (player : option PlayerObs) (z : t) :
  snd (processAttackState player z) = []
  \/ snd (processAttackState player z)
     = [mkTimeoutCall DealDamage 500; mkTimeoutCall ReturnToChase 1200].
Proof.
  unfold processAttackState. destruct player as [p|]; [|now left].
  destruct (Qlt_bool _ _); [now left|].
  destruct (Qlt_bool _ _); [now right | now left].
Qed.

Lemma update_timeouts (deltaTime : Q) (player : option PlayerObs) (z : t) :
  snd (update deltaTime player z) = []
  \/ snd (update deltaTime player z)
     = [mkTimeoutCall DealDamage 500; mkTimeoutCall ReturnToChase 1200].
Proof.
  assert (H : forall z0,
             snd (processStateMachine player z0) = []
             \/ snd (processStateMachine player z0)
                = [mkTimeoutCall DealDamage 500; mkTimeoutCall ReturnToChase 1200]).
  { intros z0. unfold processStateMachine.
    set (z1 := if State_eqb (state z0) idle && canSeePlayer z0
               then changeState chase z0 else z0).
    destruct (state z1); try now left.
    apply processAttackState_timeouts. }
  unfold update.
  destruct (_ || _); [now left|].
  destruct (_ && _); [destruct (Qlt_bool _ _)|]; try apply H. now left.
Qed.

Lemma dead_step (w : World) (e : Event) :
  dead (zombie w) ->
  dead (zombie (step w e)) /\ playerHits (step w e) = playerHits w.
Proof.
  intros [Hs Ha]. destruct e as [deltaTime player|amount|b|ms|n p]; simpl.
  - unfold update. rewrite Ha, orb_true_r. simpl. now repeat split.
  - rewrite (takeDamage_dead _ _ Ha). now repeat split.
  - now repeat split.
  - destruct (Qle_bool 0 ms); now repeat split.
  - destruct (nth_error (pending w) n) as [tm|]; [|now repeat split].
    destruct (Qle_bool _ _); [|now repeat split].
    destruct (pending_callback tm); simpl.
    + unfold dealDamage. rewrite Hs. simpl. now repeat split.
    + unfold returnToChase. rewrite Hs. simpl. now repeat split.
Qed.

Lemma dead_run (es : list Event) :
  forall w, dead (zombie w) ->
    dead (zombie (run w es)) /\ playerHits (run w es) = playerHits w.
Proof.
  induction es as [|e es IH]; intros w Hd; [now split|].
  simpl. destruct (dead_step w e Hd) as [Hd' Hh].
  destruct (IH _ Hd') as [Hd'' Hh']. split; [exact Hd''|congruence].
Qed.

(** C5.  (1) A call of [update] never damages the player; when it triggers
    an attack it registers the damage callback to become due 500 ms after the
    trigger (and the return callback 1200 ms after it).  (2) The player is
    damaged only by the firing of a due damage callback, and only if at that
    instant the agent's state is [attack], the player can be damaged and the
    distance is at most the attack range; then the hit is recorded at that
    instant.  (3) Once a live agent has taken lethal damage, no later event,
    among them the firing of a callback registered before, damages the
    player. *)
Theorem attack_damage_is_deferred_and_rechecked :
  (forall (w : World) (deltaTime : Q) (player : option PlayerObs),
     let w' := step w (Tick deltaTime player) in
     playerHits w' = playerHits w
     /\ (pending w' = pending w
         \/ pending w' = pending w ++ [mkPendingTimer (clock w + 500) DealDamage;
                                       mkPendingTimer (clock w + 1200) ReturnToChase]))
  /\ (forall (w : World) (e : Event),
        playerHits (step w e) <> playerHits w ->
        exists n p tm,
          e = Fire n p
          /\ nth_error (pending w) n = Some tm
          /\ pending_callback tm = DealDamage
          /\ due tm <= clock w
          /\ state (zombie w) = attack
          /\ player_takeDamage p = true
          /\ distanceToPlayer p <= attackRange (zombie w)
          /\ playerHits (step w e) = mkPlayerHit 20 (clock w) :: playerHits w)
  /\ (forall (properties : Properties) (history later : list Event) (amount : Q),
        let w := run (spawn properties) history in
        isAlive (zombie w) = true ->
        health (zombie w) - amount <= 0 ->
        state (zombie (step w (Hit amount))) = death
        /\ playerHits (run (step w (Hit amount)) later) = playerHits w).
Proof.
  split; [|split].
  - intros w deltaTime player w'. unfold w'. simpl.
    pose proof (update_timeouts deltaTime player (zombie w)) as Ht.
    destruct (update deltaTime player (zombie w)) as [z ts]. simpl in *.
    split; [reflexivity|].
    destruct Ht as [->| ->]; simpl; [left; apply app_nil_r | now right].
  - intros w e Hne.
    destruct (step_hits w e) as [H|[n [p [tm [He [Hn [Hc [Hd [Ha Hh]]]]]]]]];
      [contradiction|].
    exists n, p, tm.
    destruct (dealDamage_amount _ _ _ Ha) as [_ [Hs [Ht Hr]]].
    repeat split; assumption.
  - intros properties history later amount w Ha Hle.
    assert (Hc : consistent (zombie w)).
    { apply run_consistent. apply spawn_invariant. }
    destruct (consistent_live _ Hc Ha) as [_ Hs].
    assert (Hd : dead (zombie (step w (Hit amount)))).
    { simpl. unfold takeDamage. simpl. rewrite Ha.
      apply Qle_bool_iff in Hle. rewrite Hle. simpl.
      now apply changeState_death. }
    split; [apply Hd|].
    now destruct (dead_run later _ Hd) as [_ ->].
Qed.

Lemma attack_damage_is_deferred_and_rechecked_witness :
  let history := repeat (Tick 0.1 (Some (playerAt 1))) 13 in
  let w := run (spawn defaultProperties) history in
  let later := [Elapse 500; Fire 0 (playerAt 1); Elapse 700; Fire 0 (playerAt 1)] in
  (exists n p tm,
     Fire 0 (playerAt 1) = Fire n p
     /\ nth_error (pending (run w [Elapse 500])) n = Some tm
     /\ pending_callback tm = DealDamage
     /\ due tm <= clock (run w [Elapse 500])
     /\ state (zombie (run w [Elapse 500])) = attack
     /\ player_takeDamage p = true
     /\ distanceToPlayer p <= attackRange (zombie (run w [Elapse 500]))
     /\ playerHits (step (run w [Elapse 500]) (Fire 0 (playerAt 1)))
        = mkPlayerHit 20 (clock (run w [Elapse 500])) :: playerHits (run w [Elapse 500]))
  /\ (state (zombie (step w (Hit 100))) = death
      /\ playerHits (run (step w (Hit 100)) later) = playerHits w).
Proof.
  intros history w later. split.
  - apply (proj1 (proj2 attack_damage_is_deferred_and_rechecked)).
    vm_compute. discriminate.
  - apply (proj2 (proj2 attack_damage_is_deferred_and_rechecked)
             defaultProperties history later 100).
    + reflexivity.
    + vm_compute. discriminate.
Defined.

End DeferredDamage.

(** * The agent: perception and the transition to chase *)

Section Perception.

Import Zombie.

(** An idle agent whose countdown has not run out waits: the call of
    [update] only advances the clocks. *)
Lemma update_idle_waits (deltaTime : Q) (p : PlayerObs) (z : t) :
  enabled z = true ->
  isAlive z = true ->
  state z = idle ->
  canSeePlayer z = false ->
  distanceToPlayer p <= farDistance z ->
  0 < js_sub (updatePerceptionTime z) deltaTime ->
  fst (update deltaTime (Some p) z)
  = with_updatePerceptionTime (js_sub (updatePerceptionTime z) deltaTime)
      (with_timeInCurrentState (timeInCurrentState z + deltaTime)
         (with_timeSinceSpawn (timeSinceSpawn z + deltaTime) z)).
Proof.
  intros He Ha Hs Hc Hfar Hwait.
  assert (Hf : Qlt_bool (farDistance z) (distanceToPlayer p) = false).
  { unfold Qlt_bool. apply Qle_bool_iff in Hfar. now rewrite Hfar. }
  apply Qle_bool_false in Hwait.
  destruct z. simpl in *. subst.
  unfold update, isFar, updatePerception, processStateMachine. simpl.
  rewrite Hf, andb_false_r. simpl. rewrite Hwait. reflexivity.
Qed.

(** An idle agent whose countdown runs out while the player is within the
    detection range enters [chase] during the call. *)
Lemma update_idle_spots (deltaTime : Q) (p : PlayerObs) (z : t) :
  enabled z = true ->
  isAlive z = true ->
  state z = idle ->
  canSeePlayer z = false ->
  distanceToPlayer p <= farDistance z ->
  distanceToPlayer p <= detectionRange z ->
  js_sub (updatePerceptionTime z) deltaTime <= 0 ->
  exists l,
    transitions (fst (update deltaTime (Some p) z)) = l ++ (idle, chase) :: transitions z.
Proof.
  intros He Ha Hs Hc Hfar Hdet Hfire.
  assert (Hf : Qlt_bool (farDistance z) (distanceToPlayer p) = false).
  { unfold Qlt_bool. apply Qle_bool_iff in Hfar. now rewrite Hfar. }
  apply Qle_bool_iff in Hdet. apply Qle_bool_iff in Hfire.
  unfold update. rewrite He, Ha. simpl.
  unfold isFar. simpl. rewrite Hf, andb_false_r.
  set (z1 := updatePerception deltaTime (Some p) _).
  assert (H1 : transitions z1 = (idle, chase) :: transitions z).
  { unfold z1, updatePerception, onPlayerSpotted. simpl.
    rewrite Hfire, Hdet, Hc, Hs. simpl.
    rewrite changeState_log; simpl; [now rewrite Hs | rewrite Hs; discriminate]. }
  destruct (processStateMachine_evolves (Some p) z1) as [[_ [l Hl]] _].
  exists l. now rewrite Hl, H1.
Qed.

Lemma roundingSlack_0 : roundingSlack 0 == 0.
Proof. reflexivity. Qed.

Lemma roundingSlack_S (n : nat) : roundingSlack (S n) == roundingSlack n + (1 # 2 ^ 56).
Proof.
  unfold roundingSlack. rewrite Nat2Z.inj_succ, <- Z.add_1_r, inject_Z_plus.
  change (inject_Z 1) with 1. ring.
Qed.

(** Over consecutive in-range updates of an idle agent, each subtraction
    of the countdown adds at most [2 ^ -56] to the exact difference, so the
    countdown has run out by the update at which the time elapsed reaches
    the countdown plus [2 ^ -56] per earlier update. *)
Lemma idle_spots_within_countdown (ticks : list (Q * PlayerObs)) :
  forall (w : World),
    let z := zombie w in
    enabled z = true ->
    isAlive z = true ->
    state z = idle ->
    canSeePlayer z = false ->
    paced z ->
    Forall (fun tk => 0 <= fst tk
                      /\ distanceToPlayer (snd tk) <= detectionRange z
                      /\ distanceToPlayer (snd tk) <= farDistance z) ticks ->
    ticks <> [] ->
    updatePerceptionTime z + roundingSlack (List.length ticks)
    <= totalTime ticks + (1 # 2 ^ 56) ->
    exists l,
      transitions (zombie (run w (List.map asTick ticks))) = l ++ transitions z
      /\ In (idle, chase) l.
Proof.
  induction ticks as [|[deltaTime p] ticks IH];
    intros w z He Ha Hs Hc Hp Hall Hne Hle.
  - congruence.
  - apply Forall_cons_iff in Hall. destruct Hall as [[Hdt [Hdet Hfar]] Hrest].
    simpl in Hdt, Hdet, Hfar.
    change (run w (List.map asTick ((deltaTime, p) :: ticks)))
      with (run (step w (Tick deltaTime (Some p))) (List.map asTick ticks)).
    set (w1 := step w (Tick deltaTime (Some p))).
    assert (Hz1 : zombie w1 = fst (update deltaTime (Some p) z))
      by apply step_zombie_tick.
    change (totalTime ((deltaTime, p) :: ticks)) with (deltaTime + totalTime ticks) in Hle.
    change (List.length ((deltaTime, p) :: ticks)) with (S (List.length ticks)) in Hle.
    rewrite roundingSlack_S in Hle.
    destruct (Qlt_le_dec 0 (js_sub (updatePerceptionTime z) deltaTime)) as [Hwait|Hfire].
    + pose proof (update_idle_waits deltaTime p z He Ha Hs Hc Hfar Hwait) as Hu.
      destruct Hp as [Hp1 Hp2].
      destruct (js_sub_upper _ _ _ Hdt Hp1 Hp2 Hwait) as [Hd Hup].
      assert (Hp' : paced (zombie w1)).
      { rewrite Hz1. apply update_paced; [exact Hdt | now split]. }
      rewrite Hu in Hz1.
      assert (Hne' : ticks <> []).
      { intros ->. cbn [List.length totalTime fold_right] in Hle.
        rewrite roundingSlack_0 in Hle. Lqa.lra. }
      destruct (IH w1) as [l [Hl Hin]]; rewrite ?Hz1; simpl; try assumption.
      * rewrite <- Hz1. exact Hp'.
      * Lqa.lra.
      * exists l. split; [|exact Hin]. rewrite Hl, Hz1. reflexivity.
    + destruct (update_idle_spots deltaTime p z He Ha Hs Hc Hfar Hdet Hfire) as [l Hl].
      destruct (run_grows (List.map asTick ticks) w1) as [_ [l' Hl']].
      exists (l' ++ l ++ [(idle, chase)]). split.
      * rewrite Hl', Hz1, Hl. rewrite <- !app_assoc. reflexivity.
      * apply in_or_app. right. apply in_or_app. right. now left.
Qed.

(** An idle agent that holds no sighting stays idle through a call of
    [update] made while the player is absent or beyond the detection range. *)
Lemma update_idle_out_of_range (deltaTime : Q) (player : option PlayerObs) (z : t) :
  state z = idle ->
  canSeePlayer z = false ->
  (forall p, player = Some p -> detectionRange z < distanceToPlayer p) ->
  state (fst (update deltaTime player z)) = idle
  /\ transitions (fst (update deltaTime player z)) = transitions z.
Proof.
  intros Hs Hc Hout.
  assert (Hup : forall u,
    state u = idle -> canSeePlayer u = false ->
    detectionRange u = detectionRange z ->
    state (updatePerception deltaTime player u) = idle
    /\ canSeePlayer (updatePerception deltaTime player u) = false
    /\ transitions (updatePerception deltaTime player u) = transitions u).
  { intros u Hsu Hcu Hdu. unfold updatePerception. simpl.
    destruct (Qle_bool _ _); [|now repeat split].
    destruct player as [p|]; [|now repeat split].
    simpl. rewrite Hdu.
    assert (Hd : Qle_bool (distanceToPlayer p) (detectionRange z) = false)
      by (apply Qle_bool_false; now apply Hout).
    rewrite Hd. now repeat split. }
  assert (Hsm : forall u, state u = idle -> canSeePlayer u = false ->
                 fst (processStateMachine player u) = u).
  { intros u Hsu Hcu. unfold processStateMachine. rewrite Hsu, Hcu. simpl.
    now rewrite Hsu. }
  unfold update.
  destruct (_ || _); [now split|].
  set (u := with_timeInCurrentState _ (with_timeSinceSpawn _ z)).
  destruct (Hup u Hs Hc eq_refl) as [H1 [H2 H3]].
  destruct (_ && _); [destruct (Qlt_bool _ _)|]; rewrite ?Hsm; auto.
Qed.

(** C7 (as amended).  Take an agent, as a run of events from its creation
    leaves it, in state [idle].  (1) If it is enabled, then over consecutive
    calls of [update] during which the player stays within the detection
    range and within the full-rate tier ([farDistance]), the agent has
    entered [chase] by the call at which the simulated time elapsed reaches
    0.2 seconds plus [2 ^ -56] seconds for each call made: the countdown is
    decremented in double precision, and each subtraction can leave it that
    much above the exact difference.  (2) A call of [update] made while the
    player is absent or beyond the detection range leaves the agent idle: no
    transition happens. *)
Theorem idle_enters_chase_within_one_perception_period :
  forall (properties : Properties) (history : list Event),
    Forall forward history ->
    let w := run (spawn properties) history in
    let z := zombie w in
    state z = idle ->
    (enabled z = true ->
     forall ticks : list (Q * PlayerObs),
       Forall (fun tk => 0 <= fst tk
                         /\ distanceToPlayer (snd tk) <= detectionRange z
                         /\ distanceToPlayer (snd tk) <= farDistance z) ticks ->
       0.2 + roundingSlack (List.length ticks) <= totalTime ticks ->
       exists l,
         transitions (zombie (run w (List.map asTick ticks))) = l ++ transitions z
         /\ In (idle, chase) l)
    /\ (forall (deltaTime : Q) (player : option PlayerObs),
          (forall p, player = Some p -> detectionRange z < distanceToPlayer p) ->
          state (zombie (step w (Tick deltaTime player))) = idle
          /\ transitions (zombie (step w (Tick deltaTime player))) = transitions z).
Proof.
  intros properties history Hfwd w z Hs.
  destruct (run_invariant history (spawn properties) Hfwd (spawn_invariant properties))
    as [Hc [Hset [Hp1 Hp2]]].
  fold w in Hc, Hset, Hp1, Hp2. fold z in Hc, Hset, Hp1, Hp2.
  assert (Hsee : canSeePlayer z = false) by (now apply Hset).
  split.
  - intros He ticks Hall Htotal.
    assert (Ha : isAlive z = true).
    { unfold consistent in Hc. now rewrite Hc, Hs. }
    destruct binary64_period as [_ [_ [_ Hrate]]].
    apply (idle_spots_within_countdown ticks w He Ha Hs Hsee).
    + now split.
    + exact Hall.
    + intros ->. cbn [List.length totalTime fold_right] in Htotal.
      rewrite roundingSlack_0 in Htotal. Lqa.lra.
    + fold z. Lqa.lra.
  - intros deltaTime player Hout. rewrite step_zombie_tick.
    now apply update_idle_out_of_range.
Qed.

Lemma idle_enters_chase_within_one_perception_period_witness :
  let w := run (spawn defaultProperties) [Tick 0.1 (Some (playerAt 30))] in
  (exists l,
     transitions (zombie (run w (List.map asTick [(0.1, playerAt 10); (0.11, playerAt 9)])))
     = l ++ transitions (zombie w)
     /\ In (Zombie.idle, Zombie.chase) l)
  /\ (state (zombie (step w (Tick 0.1 (Some (playerAt 30))))) = idle
      /\ transitions (zombie (step w (Tick 0.1 (Some (playerAt 30)))))
         = transitions (zombie w)).
Proof.
  intros w.
  assert (Hfwd : Forall forward [Tick 0.1 (Some (playerAt 30))]).
  { constructor; [vm_compute; discriminate | constructor]. }
  pose proof (idle_enters_chase_within_one_perception_period
                defaultProperties [Tick 0.1 (Some (playerAt 30))] Hfwd eq_refl)
    as [H1 H2].
  split.
  - apply H1.
    + reflexivity.
    + repeat constructor; vm_compute; discriminate.
    + vm_compute. discriminate.
  - apply H2. intros p Hp. injection Hp as <-. vm_compute. reflexivity.
Defined.

(** C7, the claim as written fails on three counts.  An agent in [attack]
    whose player moves to distance 20, beyond its detection range of 15,
    enters [chase] at the next call of [update].  An idle agent with a
    detection range of 60 whose player comes to distance 55, beyond
    [farDistance], is still idle after 0.3 simulated seconds; so is an idle
    agent that is disabled (preloaded, not yet activated) with the player at
    distance 5.  And an idle, enabled agent whose player comes to distance
    10 right after a perception scan is still idle after four calls of
    [update] of 0.05 seconds each: the doubles 0.2 and 0.05 being what they
    are, the four subtractions leave the countdown at [2 ^ -56], not at
    zero, and the agent enters [chase] at the fifth call. *)
Lemma chase_transition_ignores_detection_range_and_far_tier_delays :
  (let w := run (spawn defaultProperties) [Tick 0.1 (Some (playerAt 1))] in
   let w' := step w (Tick 0.1 (Some (playerAt 20))) in
   state (zombie w) = attack
   /\ detectionRange (zombie w) < 20
   /\ state (zombie w') = chase
   /\ transitions (zombie w') = (attack, chase) :: transitions (zombie w))
  /\ (let keen := mkProperties None None None (Some 60) None in
      let w := run (spawn keen) [Tick 0.5 (Some (playerAt 100))] in
      let w' := run w (List.map asTick [(0.1, playerAt 55); (0.1, playerAt 55);
                                        (0.1, playerAt 55)]) in
      state (zombie w) = idle
      /\ 55 <= detectionRange (zombie w)
      /\ 0.2 <= totalTime [(0.1, playerAt 55); (0.1, playerAt 55); (0.1, playerAt 55)]
      /\ state (zombie w') = idle
      /\ transitions (zombie w') = transitions (zombie w))
  /\ (let w := run (spawn defaultProperties) [SetEnabled false] in
      let w' := run w (List.map asTick [(0.1, playerAt 5); (0.1, playerAt 5);
                                        (0.1, playerAt 5)]) in
      state (zombie w) = idle
      /\ 5 <= detectionRange (zombie w)
      /\ 5 <= farDistance (zombie w)
      /\ state (zombie w') = idle
      /\ transitions (zombie w') = transitions (zombie w))
  /\ (let deltaTime := binary64 0.05 in
      let w := run (spawn defaultProperties) [Tick deltaTime (Some (playerAt 30))] in
      let ticks := [(deltaTime, playerAt 10); (deltaTime, playerAt 10);
                    (deltaTime, playerAt 10); (deltaTime, playerAt 10)] in
      let w' := run w (List.map asTick ticks) in
      state (zombie w) = idle
      /\ enabled (zombie w) = true
      /\ updatePerceptionTime (zombie w) = binary64 0.2
      /\ 10 <= detectionRange (zombie w)
      /\ 10 <= farDistance (zombie w)
      /\ 0.2 <= totalTime ticks
      /\ state (zombie w') = idle
      /\ transitions (zombie w') = transitions (zombie w)
      /\ updatePerceptionTime (zombie w') == 1 # 2 ^ 56
      /\ state (zombie (step w' (Tick deltaTime (Some (playerAt 10))))) = chase).
Proof.
  split; [|split; [|split]].
  - vm_compute. repeat split.
  - vm_compute. repeat split; discriminate.
  - vm_compute. repeat split; discriminate.
  - vm_compute. repeat split; discriminate.
Qed.

End Perception.

(** * The manager: pruning *)

Section Pruning.

(** C2 (as amended).  With the manager enabled and the preload complete, a
    tick keeps in the active roster exactly the agents whose [isAlive] is
    true, in their order, and makes no call to the entity registry; with the
    manager disabled or the preload not complete, the tick changes
    nothing. *)
Theorem update_prunes_roster_and_leaves_registry :
  forall (e : Engine) (deltaTime : Q),
    (enabled (manager e) = true ->
     preloadComplete (manager e) = true ->
     (forall h, In h (enemies (manager (update deltaTime e)))
                <-> In h (enemies (manager e)) /\ isAliveAt (store e) h = true)
     /\ enemies (manager (update deltaTime e))
        = filter (isAliveAt (store e)) (enemies (manager e))
     /\ entityManager (update deltaTime e) = entityManager e
     /\ store (update deltaTime e) = store e
     /\ preloadedZombies (manager (update deltaTime e)) = preloadedZombies (manager e))
    /\ (enabled (manager e) = false \/ preloadComplete (manager e) = false ->
        update deltaTime e = e).
Proof.
  intros e deltaTime. unfold update. split.
  - intros He Hp. rewrite He, Hp. simpl.
    split; [|repeat split].
    intros h. apply filter_In.
  - intros [H|H]; rewrite H; simpl; [reflexivity|].
    now destruct (enabled (manager e)).
Qed.

Lemma update_prunes_roster_and_leaves_registry_witness :
  let c := mkConfigData (Some 2%nat) None (Some 2%nat) None None None in
  let e0 := fst (preloadZombies (fun _ => 1 # 2) (configuredEngine c [])) in
  let e := hitZombie 0%nat 100 (activatePreloadedZombies e0) in
  ((forall h, In h (enemies (manager (update 0.016 e)))
              <-> In h (enemies (manager e)) /\ isAliveAt (store e) h = true)
   /\ enemies (manager (update 0.016 e)) = filter (isAliveAt (store e)) (enemies (manager e))
   /\ entityManager (update 0.016 e) = entityManager e
   /\ store (update 0.016 e) = store e
   /\ preloadedZombies (manager (update 0.016 e)) = preloadedZombies (manager e))
  /\ update 0.016 (configuredEngine c []) = configuredEngine c [].
Proof.
  intros c e0 e. split.
  - apply (proj1 (update_prunes_roster_and_leaves_registry e 0.016)); reflexivity.
  - apply (proj2 (update_prunes_roster_and_leaves_registry (configuredEngine c []) 0.016)).
    right. reflexivity.
Defined.

(** C2, the claim as written fails: two agents are preloaded and activated,
    the first is killed, and the next tick drops it from the active roster
    without any [removeEntity] call reaching the registry. *)
Lemma update_does_not_deregister_pruned_agent :
  let c := mkConfigData (Some 2%nat) None (Some 2%nat) None None None in
  let e0 := fst (preloadZombies (fun _ => 1 # 2) (configuredEngine c [])) in
  let e := hitZombie 0%nat 100 (activatePreloadedZombies e0) in
  enabled (manager e) = true
  /\ preloadComplete (manager e) = true
  /\ enemies (manager e) = [0%nat; 1%nat]
  /\ isAliveAt (store e) 0%nat = false
  /\ enemies (manager (update 0.016 e)) = [1%nat]
  /\ entityManager (update 0.016 e) = [AddEntity 0%nat; AddEntity 1%nat]
  /\ ~ In (RemoveEntity 0%nat) (entityManager (update 0.016 e)).
Proof.
  intros c e0 e. vm_compute. repeat split.
  intros [H|[H|[]]]; discriminate.
Qed.

End Pruning.

(** * The manager: preload and staged activation *)

Section StagedActivation.

Lemma map_set_nonempty {V} (k : string) (v : V) (m : JsMap V) : map_set k v m <> [].
Proof.
  destruct m as [|[k' v'] m]; simpl; [discriminate|].
  destruct (String.eqb k k'); discriminate.
Qed.

Lemma registered_nonempty (tds : list TypeData) :
  forall acc : JsMap EnemyType,
    acc <> [] ->
    fold_left (fun acc typeData => map_set (td_id typeData) (registerType typeData) acc)
              tds acc <> [].
Proof.
  induction tds as [|td tds IH]; intros acc Hacc; simpl; [exact Hacc|].
  apply IH, map_set_nonempty.
Qed.

Lemma configure_enemyTypes_nonempty (c : ConfigData) (m : t) :
  enemyTypes m <> [] -> enemyTypes (configure c m) <> [].
Proof.
  intros Hm. unfold configure.
  destruct (cd_enemyTypes c) as [[|td tds]|]; simpl; try exact Hm.
  apply registered_nonempty. discriminate.
Qed.

Lemma configureSpawnAreas_frame (data : list AreaData) (m : t) :
  let m' := configureSpawnAreas data m in
  enemies m' = enemies m
  /\ config m' = config m
  /\ enemyTypes m' = enemyTypes m
  /\ preloadedZombies m' = preloadedZombies m.
Proof.
  unfold configureSpawnAreas.
  assert (H : forall acc,
             let m' := fold_left
                         (fun acc d =>
                            let area := buildArea d in
                            with_spawnAreas (spawnAreas acc ++ [area])
                                            (totalSpawnWeight acc + area_weight area) acc)
                         data acc in
             enemies m' = enemies acc
             /\ config m' = config acc
             /\ enemyTypes m' = enemyTypes acc
             /\ preloadedZombies m' = preloadedZombies acc).
  { induction data as [|d data IH]; intros acc; simpl; [now repeat split|].
    destruct (IH (with_spawnAreas (spawnAreas acc ++ [buildArea d])
                                  (totalSpawnWeight acc + area_weight (buildArea d)) acc))
      as [H1 [H2 [H3 H4]]].
    now repeat split. }
  apply (H (with_spawnAreas [] 0 m)).
Qed.

Lemma getRandomEnemyType_some (m : t) (rnd : Q) :
  enemyTypes m <> [] -> exists ty, getRandomEnemyType m rnd = Some ty.
Proof.
  intros Hm. unfold getRandomEnemyType.
  destruct (walkTypes _ _ _) as [ty|]; [now exists ty|].
  destruct (enemyTypes m) as [|[k ty] rest]; [contradiction|].
  now exists ty.
Qed.

(** ** The loop of [preloadZombies] *)

Lemma preloadLoop_spec (count : nat) (rnd : nat -> Q) :
  forall (i : nat) (e : Engine),
    enemyTypes (manager e) <> [] ->
    let r := preloadLoop count i rnd e in
    snd r = true
    /\ List.length (preloadedZombies (manager (fst r)))
       = (List.length (preloadedZombies (manager e)) + count)%nat
    /\ enemies (manager (fst r)) = enemies (manager e)
    /\ config (manager (fst r)) = config (manager e)
    /\ intervals (fst r) = intervals e
    /\ nextInterval (fst r) = nextInterval e
    /\ entityManager (fst r) = entityManager e.
Proof.
  induction count as [|count IH]; intros i e Hty; simpl.
  - repeat split. lia.
  - set (m := with_preloadProgress _ (manager e)).
    destruct (getRandomEnemyType_some m (rnd (i * drawsPerZombie m)%nat) Hty) as [ty ->].
    match goal with
    | |- context [preloadLoop count (S i) rnd ?e1] =>
        destruct (IH (S i) e1 Hty) as [H1 [H2 [H3 [H4 [H5 [H6 H7]]]]]]
    end.
    repeat split; try assumption.
    rewrite H2. simpl. rewrite length_app. simpl. lia.
Qed.

(** ** Activation *)

Lemma activateInitial_spec (count : nat) :
  forall (i : nat) (e : Engine),
    (i + count <= List.length (preloadedZombies (manager e)))%nat ->
    let e' := activateInitial count i e in
    List.length (enemies (manager e')) = (List.length (enemies (manager e)) + count)%nat
    /\ preloadedZombies (manager e') = preloadedZombies (manager e)
    /\ config (manager e') = config (manager e)
    /\ intervals e' = intervals e
    /\ nextInterval e' = nextInterval e.
Proof.
  induction count as [|count IH]; intros i e Hle; simpl.
  - repeat split. lia.
  - destruct (nth_error (preloadedZombies (manager e)) i) as [h|] eqn:En.
    + destruct (IH (S i) (activate h e)) as [H1 [H2 [H3 [H4 H5]]]].
      { simpl. lia. }
      repeat split; try assumption.
      rewrite H1. simpl. rewrite length_app. simpl. lia.
    + apply nth_error_None in En. lia.
Qed.

Lemma activateBatch_spec (budget : nat) :
  forall (index : nat) (e : Engine),
    (index <= List.length (preloadedZombies (manager e)))%nat ->
    let r := activateBatch budget index e in
    fst r = Nat.min (index + budget) (List.length (preloadedZombies (manager e)))
    /\ List.length (enemies (manager (snd r)))
       = (List.length (enemies (manager e)) + (fst r - index))%nat
    /\ preloadedZombies (manager (snd r)) = preloadedZombies (manager e)
    /\ config (manager (snd r)) = config (manager e)
    /\ intervals (snd r) = intervals e
    /\ nextInterval (snd r) = nextInterval e.
Proof.
  induction budget as [|budget IH]; intros index e Hle; cbn [activateBatch].
  - cbn [fst snd]. repeat split; lia.
  - destruct (nth_error (preloadedZombies (manager e)) index) as [h|] eqn:En.
    + assert (Hlt : (index < List.length (preloadedZombies (manager e)))%nat).
      { apply nth_error_Some. congruence. }
      pose proof (IH (S index) (activate h e)) as IH'.
      change (preloadedZombies (manager (activate h e)))
        with (preloadedZombies (manager e)) in IH'.
      change (enemies (manager (activate h e)))
        with (enemies (manager e) ++ [h]) in IH'.
      change (config (manager (activate h e))) with (config (manager e)) in IH'.
      change (intervals (activate h e)) with (intervals e) in IH'.
      change (nextInterval (activate h e)) with (nextInterval e) in IH'.
      destruct (IH' Hlt) as [H1 [H2 [H3 [H4 [H5 H6]]]]].
      rewrite length_app in H2. cbn [List.length] in H2.
      repeat split; try assumption; lia.
    + apply nth_error_None in En. cbn [fst snd]. repeat split; lia.
Qed.

Lemma fireInterval_staged (n rate index : nat) (e : Engine) :
  staged n rate index e ->
  staged n rate (Nat.min n (index + rate)) (fireInterval 0 e).
Proof.
  intros [He [Hn [Hr [Hle Hiv]]]]. unfold fireInterval.
  destruct Hiv as [[period Hiv]|[Hiv Hidx]].
  - rewrite Hiv. cbn [find interval_id Nat.eqb interval_index]. rewrite Hn.
    destruct (Nat.leb n index) eqn:E.
    + apply Nat.leb_le in E.
      replace (Nat.min n (index + rate)) with index by lia.
      split; [exact He|]. split; [exact Hn|]. split; [exact Hr|]. split; [lia|].
      right. split; [reflexivity|lia].
    + apply Nat.leb_gt in E. rewrite Hr.
      pose proof (activateBatch_spec rate index e) as Hb.
      destruct (activateBatch rate index e) as [index' e'].
      cbn [fst snd] in Hb.
      destruct Hb as [H1 [H2 [H3 [H4 [H5 H6]]]]]; [lia|].
      rewrite Hn in H1.
      assert (Hidx : index' = Nat.min n (index + rate)) by lia.
      split; [|split; [|split; [|split]]].
      * cbn. lia.
      * cbn. congruence.
      * cbn. congruence.
      * lia.
      * left. exists period. cbn. rewrite H5, Hiv. cbn. now rewrite Hidx.
  - rewrite Hiv. cbn [find].
    replace (Nat.min n (index + rate)) with index by lia.
    split; [exact He|]. split; [exact Hn|]. split; [exact Hr|]. split; [lia|].
    right. now split.
Qed.

Lemma fireTimes_staged (n rate index : nat) (e : Engine) (k : nat) :
  staged n rate index e ->
  staged n rate (Nat.min n (index + k * rate)) (fireTimes k 0 e).
Proof.
  intros Hs. induction k as [|k IH]; simpl.
  - destruct Hs as [He [Hn [Hr [Hle Hiv]]]].
    replace (Nat.min n (index + 0)) with index by lia.
    split; [exact He|]. split; [exact Hn|]. split; [exact Hr|]. split; [lia|exact Hiv].
  - apply fireInterval_staged in IH.
    replace (Nat.min n (index + (rate + k * rate)))
      with (Nat.min n (Nat.min n (index + k * rate) + rate)) by lia.
    exact IH.
Qed.

Lemma ceilDiv_covers (a b : nat) : (0 < b)%nat -> (a <= ceilDiv a b * b)%nat.
Proof.
  intros Hb. unfold ceilDiv.
  pose proof (Nat.div_mod (a + b - 1) b ltac:(lia)) as Hdm.
  pose proof (Nat.mod_upper_bound (a + b - 1) b ltac:(lia)) as Hmod.
  nia.
Qed.

Lemma preloadZombies_spec (rnd : nat -> Q) (e : Engine) :
  player e = true ->
  enemyTypes (manager e) <> [] ->
  let r := preloadZombies rnd e in
  snd r = Some true
  /\ List.length (preloadedZombies (manager (fst r)))
     = (List.length (preloadedZombies (manager e)) + maxEnemies (config (manager e)))%nat
  /\ enemies (manager (fst r)) = enemies (manager e)
  /\ config (manager (fst r)) = config (manager e)
  /\ intervals (fst r) = intervals e
  /\ nextInterval (fst r) = nextInterval e.
Proof.
  intros Hpl Hty. unfold preloadZombies. rewrite Hpl. cbn [negb].
  pose proof (preloadLoop_spec (maxEnemies (config (manager e))) rnd 0 e Hty) as Hloop.
  destruct (preloadLoop (maxEnemies (config (manager e))) 0 rnd e) as [e' b].
  cbn [fst snd] in Hloop.
  destruct Hloop as [-> [L2 [L3 [L4 [L5 [L6 _]]]]]].
  cbn. now repeat split.
Qed.

Lemma activatePreloadedZombies_spec (e : Engine) :
  let initialCount := Nat.min (initialActiveCount (config (manager e)))
                              (List.length (preloadedZombies (manager e))) in
  let e' := activatePreloadedZombies e in
  List.length (enemies (manager e'))
  = (List.length (enemies (manager e)) + initialCount)%nat
  /\ preloadedZombies (manager e') = preloadedZombies (manager e)
  /\ config (manager e') = config (manager e)
  /\ intervals e'
     = intervals e ++ [mkInterval (nextInterval e) initialCount
                                  (activationInterval (config (manager e)))].
Proof.
  intros initialCount e'. unfold e', activatePreloadedZombies. fold initialCount.
  pose proof (activateInitial_spec initialCount 0 e) as Hinit.
  assert (Hle : (0 + initialCount <= List.length (preloadedZombies (manager e)))%nat)
    by (unfold initialCount; lia).
  specialize (Hinit Hle). cbv zeta in Hinit.
  destruct (activateInitial initialCount 0 e) as [m' s' p' r' iv' nx'].
  cbn in Hinit. destruct Hinit as [A1 [A2 [A3 [A4 A5]]]].
  unfold scheduleRemainingZombies. cbn.
  rewrite A1, A2, A3, A4, A5. now repeat split.
Qed.

(** C8.  The manager is configured with [maxEnemies = 10],
    [initialActiveCount = 3] and an activation rate [rate > 0] (any
    archetypes, any spawn areas, any draws).  The preload succeeds and builds
    10 agents, none of them active; activating the initial batch makes the
    active roster exactly [min 3 10 = 3] long; after [k] firings of the timer
    its length is [min 10 (3 + k * rate)], which is never more than 10 and is
    10 after [ceil (7 / rate)] firings. *)
Theorem staged_activation_reaches_max_population :
  forall (rate : nat) (rnd : nat -> Q) (areas : list AreaData)
         (preload : option bool) (interval : option nat) (types : option (list TypeData)),
    (0 < rate)%nat ->
    let c := mkConfigData (Some 10%nat) preload (Some 3%nat) (Some rate) interval types in
    let e0 := configuredEngine c areas in
    let e1 := fst (preloadZombies rnd e0) in
    let e2 := activatePreloadedZombies e1 in
    snd (preloadZombies rnd e0) = Some true
    /\ List.length (preloadedZombies (manager e1)) = 10%nat
    /\ enemies (manager e1) = []
    /\ List.length (enemies (manager e2))
       = Nat.min (initialActiveCount (config (manager e1)))
                 (List.length (preloadedZombies (manager e1)))
    /\ List.length (enemies (manager e2)) = 3%nat
    /\ (forall k, List.length (enemies (manager (fireTimes k 0 e2)))
                  = Nat.min 10 (3 + k * rate))
    /\ (forall k, (List.length (enemies (manager (fireTimes k 0 e2)))
                   <= maxEnemies (config (manager e2)))%nat)
    /\ List.length (enemies (manager (fireTimes (ceilDiv 7 rate) 0 e2))) = 10%nat.
Proof.
  intros rate rnd areas preload interval types Hrate c e0 e1 e2.
  set (m0 := configure c (manager (newEngine true))).
  assert (Hm0 : manager e0 = configureSpawnAreas areas m0) by reflexivity.
  destruct (configureSpawnAreas_frame areas m0) as [F1 [F2 [F3 F4]]].
  assert (Hty : enemyTypes (manager e0) <> []).
  { rewrite Hm0, F3. apply configure_enemyTypes_nonempty. discriminate. }
  assert (Hcfg : config (manager e0)
                 = mkConfig 10 (match preload with Some v => v | None => true end) 3 rate
                            (match interval with Some v => v | None => 1000%nat end)).
  { rewrite Hm0, F2. unfold m0, c, configure. cbn [cd_enemyTypes].
    now destruct types as [[|td tds]|]. }
  assert (Hen : enemies (manager e0) = []).
  { rewrite Hm0, F1. unfold m0, c, configure. cbn [cd_enemyTypes].
    now destruct types as [[|td tds]|]. }
  assert (Hpre : preloadedZombies (manager e0) = []).
  { rewrite Hm0, F4. unfold m0, c, configure. cbn [cd_enemyTypes].
    now destruct types as [[|td tds]|]. }
  assert (Hiv0 : intervals e0 = []) by reflexivity.
  assert (Hnx0 : nextInterval e0 = 0%nat) by reflexivity.
  assert (Hpl0 : player e0 = true) by reflexivity.
  clear Hm0 F1 F2 F3 F4. clearbody e0. clear m0.
  destruct (preloadZombies_spec rnd e0 Hpl0 Hty) as [P1 [P2 [P3 [P4 [P5 P6]]]]].
  fold e1 in P2, P3, P4, P5, P6.
  rewrite Hpre, Hcfg in P2. cbn [List.length maxEnemies Nat.add] in P2.
  rewrite Hen in P3. rewrite Hcfg in P4. rewrite Hiv0 in P5. rewrite Hnx0 in P6.
  clearbody e1.
  destruct (activatePreloadedZombies_spec e1) as [A1 [A2 [A3 A4]]].
  fold e2 in A1, A2, A3, A4.
  rewrite P2, P4 in A1, A4. cbn [initialActiveCount activationInterval] in A1, A4.
  rewrite P3 in A1. rewrite P5, P6 in A4.
  apply (f_equal (@List.length Handle)) in A2. rewrite P2 in A2. rewrite P4 in A3.
  change (Nat.min 3 10) with 3%nat in A1, A4.
  cbn [List.length Nat.add app] in A1, A4.
  clearbody e2.
  assert (Hstaged : staged 10 rate 3 e2).
  { unfold staged. rewrite A1, A2, A3, A4. cbn [activationRate].
    repeat split; try lia. left. now eexists. }
  assert (Hk : forall k, List.length (enemies (manager (fireTimes k 0 e2)))
                         = Nat.min 10 (3 + k * rate)).
  { intros k. now destruct (fireTimes_staged 10 rate 3 e2 k Hstaged) as [H _]. }
  split; [exact P1|].
  split; [exact P2|].
  split; [exact P3|].
  split; [rewrite A1, P4, P2; reflexivity|].
  split; [exact A1|].
  split; [exact Hk|].
  split.
  - intros k. rewrite Hk, A3. cbn [maxEnemies]. lia.
  - rewrite Hk. pose proof (ceilDiv_covers 7 rate Hrate). lia.
Qed.

Lemma staged_activation_reaches_max_population_witness :
  let c := mkConfigData (Some 10%nat) None (Some 3%nat) (Some 2%nat) None None in
  let e0 := configuredEngine c [] in
  let e1 := fst (preloadZombies (fun _ => 1 # 2) e0) in
  let e2 := activatePreloadedZombies e1 in
  snd (preloadZombies (fun _ => 1 # 2) e0) = Some true
  /\ List.length (preloadedZombies (manager e1)) = 10%nat
  /\ enemies (manager e1) = []
  /\ List.length (enemies (manager e2))
     = Nat.min (initialActiveCount (config (manager e1)))
               (List.length (preloadedZombies (manager e1)))
  /\ List.length (enemies (manager e2)) = 3%nat
  /\ (forall k, List.length (enemies (manager (fireTimes k 0 e2)))
                = Nat.min 10 (3 + k * 2))
  /\ (forall k, (List.length (enemies (manager (fireTimes k 0 e2)))
                 <= maxEnemies (config (manager e2)))%nat)
  /\ List.length (enemies (manager (fireTimes (ceilDiv 7 2) 0 e2))) = 10%nat.
Proof.
  apply (staged_activation_reaches_max_population 2 (fun _ => 1 # 2) [] None None None).
  lia.
Defined.

End StagedActivation.

(** * The manager: [clear] and the activation timer *)

Section ClearAndTimer.

Lemma find_after_clearInterval (id : nat) (l : list Interval) :
  find (fun iv => Nat.eqb (interval_id iv) id)
       (filter (fun iv => negb (Nat.eqb (interval_id iv) id)) l) = None.
Proof.
  induction l as [|iv l IH]; simpl; [reflexivity|].
  destruct (Nat.eqb (interval_id iv) id) eqn:E; simpl; [exact IH|].
  now rewrite E.
Qed.

Lemma fireInterval_exhausted (e : Engine) (iv : Interval) :
  find (fun iv' => Nat.eqb (interval_id iv') (interval_id iv)) (intervals e) = Some iv ->
  (List.length (preloadedZombies (manager e)) <= interval_index iv)%nat ->
  let e' := fireInterval (interval_id iv) e in
  manager e' = manager e
  /\ store e' = store e
  /\ entityManager e' = entityManager e
  /\ find (fun iv' => Nat.eqb (interval_id iv') (interval_id iv)) (intervals e') = None.
Proof.
  intros Hfind Hle. unfold fireInterval. rewrite Hfind.
  apply Nat.leb_le in Hle. rewrite Hle. simpl.
  repeat split. apply find_after_clearInterval.
Qed.

(** C4 (as amended).  [clear()] does not cancel an outstanding activation
    timer: the closure stays registered.  When the closure fires next with
    the preloaded roster no longer than its index (as [clear()] leaves it,
    and as it stays until agents are preloaded again), it cancels itself,
    enables no agent, appends nothing to the active roster and makes no call
    to the registry. *)
Theorem clear_keeps_timer_which_then_cancels_itself :
  forall (e : Engine) (iv : Interval),
    find (fun iv' => Nat.eqb (interval_id iv') (interval_id iv)) (intervals e) = Some iv ->
    intervals (clear e) = intervals e
    /\ (let e' := fireInterval (interval_id iv) (clear e) in
        enemies (manager e') = []
        /\ preloadedZombies (manager e') = []
        /\ store e' = store e
        /\ entityManager e' = entityManager (clear e)
        /\ find (fun iv' => Nat.eqb (interval_id iv') (interval_id iv)) (intervals e') = None)
    /\ (forall e1 : Engine,
          find (fun iv' => Nat.eqb (interval_id iv') (interval_id iv)) (intervals e1) = Some iv ->
          (List.length (preloadedZombies (manager e1)) <= interval_index iv)%nat ->
          let e' := fireInterval (interval_id iv) e1 in
          manager e' = manager e1
          /\ store e' = store e1
          /\ entityManager e' = entityManager e1
          /\ find (fun iv' => Nat.eqb (interval_id iv') (interval_id iv)) (intervals e') = None).
Proof.
  intros e iv Hfind. split; [reflexivity|]. split.
  - assert (Hfind' : find (fun iv' => Nat.eqb (interval_id iv') (interval_id iv))
                          (intervals (clear e)) = Some iv) by exact Hfind.
    destruct (fireInterval_exhausted (clear e) iv Hfind') as [H1 [H2 [H3 H4]]].
    { simpl. lia. }
    cbv zeta. rewrite H1, H2, H3. now repeat split.
  - intros e1 Hfind1 Hle. now apply fireInterval_exhausted.
Qed.

Lemma clear_keeps_timer_which_then_cancels_itself_witness :
  let c := mkConfigData (Some 10%nat) None (Some 3%nat) (Some 2%nat) None None in
  let e := activatePreloadedZombies
             (fst (preloadZombies (fun _ => 1 # 2) (configuredEngine c []))) in
  let iv := mkInterval 0%nat 3%nat 1000%nat in
  intervals (clear e) = intervals e
  /\ (let e' := fireInterval (interval_id iv) (clear e) in
      enemies (manager e') = []
      /\ preloadedZombies (manager e') = []
      /\ store e' = store e
      /\ entityManager e' = entityManager (clear e)
      /\ find (fun iv' => Nat.eqb (interval_id iv') (interval_id iv)) (intervals e') = None)
  /\ (forall e1 : Engine,
        find (fun iv' => Nat.eqb (interval_id iv') (interval_id iv)) (intervals e1) = Some iv ->
        (List.length (preloadedZombies (manager e1)) <= interval_index iv)%nat ->
        let e' := fireInterval (interval_id iv) e1 in
        manager e' = manager e1
        /\ store e' = store e1
        /\ entityManager e' = entityManager e1
        /\ find (fun iv' => Nat.eqb (interval_id iv') (interval_id iv)) (intervals e') = None).
Proof.
  intros c e iv.
  apply (clear_keeps_timer_which_then_cancels_itself e iv).
  reflexivity.
Defined.

(** C4, the claim as written fails: [clear()] leaves the timer registered,
    and when ten agents are preloaded again before its next firing, that
    firing enables the fresh agents at indices 3 and 4 and appends them to
    the active roster. *)
Lemma cleared_timer_activates_fresh_population :
  let c := mkConfigData (Some 10%nat) None (Some 3%nat) (Some 2%nat) None None in
  let rnd := fun _ : nat => 1 # 2 in
  let e2 := activatePreloadedZombies (fst (preloadZombies rnd (configuredEngine c []))) in
  let e3 := clear e2 in
  let e4 := fst (preloadZombies rnd e3) in
  let e5 := fireInterval 0 e4 in
  intervals e2 = [mkInterval 0%nat 3%nat 1000%nat]
  /\ intervals e3 = [mkInterval 0%nat 3%nat 1000%nat]
  /\ enemies (manager e3) = []
  /\ enemies (manager e4) = []
  /\ enabledAt (store e4) 13%nat = false
  /\ enemies (manager e5) = [13%nat; 14%nat]
  /\ enabledAt (store e5) 13%nat = true
  /\ entityManager e5 = entityManager e4 ++ [AddEntity 13%nat; AddEntity 14%nat].
Proof.
  vm_compute. repeat split.
Qed.

End ClearAndTimer.

(** * Further properties: sampling a spawn position *)

Section SpawnPositions.

Local Open Scope R_scope.

(** X1.  For a rectangle region with non-negative extents and draws in
    [[0,1)], the sampled point has the elevation of the centre and lies
    within half the extent of the centre on each horizontal axis. *)
Theorem getPositionInArea_rectangle_bounds :
  forall (area : SpawnArea R) (c playerPosition : Vector3 R) (sx sz u1 u2 : R),
    area_type area = "rectangle"%string ->
    center area = Some c ->
    size area = Some (sx, sz) ->
    0 <= sx -> 0 <= sz ->
    0 <= u1 < 1 -> 0 <= u2 < 1 ->
    exists p,
      getPositionInArea area playerPosition u1 u2 = Some p
      /\ vy p = vy c
      /\ vx c - sx / 2 <= vx p <= vx c + sx / 2
      /\ vz c - sz / 2 <= vz p <= vz c + sz / 2.
Proof.
  intros area c pp sx sz u1 u2 Hty Hc Hs Hsx Hsz [Hu1 Hu1'] [Hu2 Hu2'].
  unfold getPositionInArea. rewrite Hty, Hc, Hs. simpl.
  eexists. split; [reflexivity|]. simpl.
  split; [reflexivity|]. split; split; nra.
Qed.

Lemma getPositionInArea_rectangle_bounds_witness :
  let c := mkVector3 10 0 (-5) in
  let area := mkSpawnArea "yard" "rectangle" 1 30 80 (Some c) None (Some (60, 40)) in
  exists p,
    getPositionInArea area (mkVector3 0 2 0) (1 / 4) (3 / 4) = Some p
    /\ vy p = vy c
    /\ vx c - 60 / 2 <= vx p <= vx c + 60 / 2
    /\ vz c - 40 / 2 <= vz p <= vz c + 40 / 2.
Proof.
  intros c area.
  apply (getPositionInArea_rectangle_bounds area c (mkVector3 0 2 0) 60 40 (1 / 4) (3 / 4));
    try reflexivity; lra.
Defined.

(** X2.  The default spawn position lies at the player's elevation, at
    horizontal distance [30 + 50 * draw] from the player: at least 30 and
    less than 80 for a draw in [[0,1)]. *)
Theorem getDefaultSpawnPosition_band :
  forall (playerPosition : Vector3 R) (u1 u2 : R),
    0 <= u2 < 1 ->
    let p := getDefaultSpawnPosition playerPosition u1 u2 in
    vy p = vy playerPosition
    /\ horizontalDistance p playerPosition = 30 + u2 * 50
    /\ 30 <= horizontalDistance p playerPosition < 80.
Proof.
  intros pp u1 u2 [Hu0 Hu1] p.
  assert (Hd : 0 <= 30 + u2 * 50) by lra.
  assert (Hdist : horizontalDistance p pp = 30 + u2 * 50).
  { unfold p, getDefaultSpawnPosition, horizontalDistance; simpl.
    replace ((vx pp + cos (u1 * PI * 2) * (30 + u2 * 50) - vx pp) *
             (vx pp + cos (u1 * PI * 2) * (30 + u2 * 50) - vx pp) +
             (vz pp + sin (u1 * PI * 2) * (30 + u2 * 50) - vz pp) *
             (vz pp + sin (u1 * PI * 2) * (30 + u2 * 50) - vz pp))
      with ((30 + u2 * 50) * (30 + u2 * 50) *
            (Rsqr (sin (u1 * PI * 2)) + Rsqr (cos (u1 * PI * 2))))
      by (unfold Rsqr; ring).
    rewrite sin2_cos2, Rmult_1_r.
    now apply sqrt_square. }
  split; [reflexivity|]. split; [exact Hdist|].
  rewrite Hdist. lra.
Qed.

Lemma getDefaultSpawnPosition_band_witness :
  let p := getDefaultSpawnPosition (mkVector3 0 2 0) (1 / 8) (1 / 2) in
  vy p = vy (mkVector3 0 2 0)
  /\ horizontalDistance p (mkVector3 0 2 0) = 30 + 1 / 2 * 50
  /\ 30 <= horizontalDistance p (mkVector3 0 2 0) < 80.
Proof.
  apply (getDefaultSpawnPosition_band (mkVector3 0 2 0) (1 / 8) (1 / 2)). lra.
Defined.

End SpawnPositions.

Section SpawnPositionTotal.

Lemma walkAreas_member (areas : list (SpawnArea Q)) :
  forall (r s : Q) (a : SpawnArea Q), walkAreas r s areas = Some a -> In a areas.
Proof.
  induction areas as [|area rest IH]; intros r s a H; simpl in H; [discriminate|].
  destruct (Qle_bool r (s + area_weight area)).
  - injection H as <-. now left.
  - right. now apply (IH r (s + area_weight area) a).
Qed.

Lemma selectWeightedSpawnAreaAt_member (areas : list (SpawnArea Q)) (r : Q) (a : SpawnArea Q) :
  selectWeightedSpawnAreaAt areas r = Some a -> In a areas.
Proof.
  unfold selectWeightedSpawnAreaAt.
  destruct (walkAreas r 0 areas) as [a'|] eqn:E.
  - intros H. injection H as <-. now apply (walkAreas_member areas r 0).
  - destruct areas as [|a0 rest]; simpl; [discriminate|].
    intros H. injection H as <-. now left.
Qed.

Lemma configureSpawnAreas_areas (data : list AreaData) (m : t) :
  spawnAreas (configureSpawnAreas data m) = List.map buildArea data
  /\ totalSpawnWeight (configureSpawnAreas data m) = totalWeightOf (List.map buildArea data).
Proof.
  unfold configureSpawnAreas, totalWeightOf.
  assert (H : forall acc,
             let m' := fold_left
                         (fun acc d =>
                            let area := buildArea d in
                            with_spawnAreas (spawnAreas acc ++ [area])
                                            (totalSpawnWeight acc + area_weight area) acc)
                         data acc in
             spawnAreas m' = spawnAreas acc ++ List.map buildArea data
             /\ totalSpawnWeight m'
                = fold_left (fun s a => s + area_weight a) (List.map buildArea data)
                            (totalSpawnWeight acc)).
  { induction data as [|d data IH]; intros acc; cbn [fold_left List.map].
    - split; [now rewrite app_nil_r | reflexivity].
    - destruct (IH (with_spawnAreas (spawnAreas acc ++ [buildArea d])
                                    (totalSpawnWeight acc + area_weight (buildArea d)) acc))
        as [H1 H2].
      cbv zeta in *. rewrite H1, H2. cbn [spawnAreas totalSpawnWeight with_spawnAreas].
      split; [now rewrite <- app_assoc | reflexivity]. }
  destruct (H (with_spawnAreas [] 0 m)) as [H1 H2]. cbv zeta in *.
  now rewrite H1, H2.
Qed.

Lemma getPositionInArea_built (d : AreaData) (playerPosition : Vector3 R) (u1 u2 : R) :
  exists p, getPositionInArea (areaToR (buildArea d)) playerPosition u1 u2 = Some p.
Proof.
  unfold getPositionInArea, areaToR, buildArea. cbn [area_type center radius size].
  destruct (ad_center d) as [[x y] z].
  destruct (String.eqb (js_or_string (ad_type d) "circle") "circle") eqn:E1.
  - cbn. now eexists.
  - destruct (String.eqb (js_or_string (ad_type d) "circle") "rectangle") eqn:E2.
    + cbn. now eexists.
    + now eexists.
Qed.

(** X3.  Whatever areas have been configured and whatever the draws, asking
    for a spawn position yields a point: with no area it is the default
    position around the player, and with areas the selected area is one of
    the configured ones and carries the fields its type needs. *)
Theorem getSpawnPosition_always_yields_a_point :
  forall (data : list AreaData) (m : t) (playerPosition : Vector3 R) (rnd : Q) (u1 u2 : R),
    let m' := configureSpawnAreas data m in
    (exists p, getSpawnPosition m' playerPosition rnd u1 u2 = Some p)
    /\ (data = [] ->
        getSpawnPosition m' playerPosition rnd u1 u2
        = Some (getDefaultSpawnPosition playerPosition u1 u2))
    /\ (data <> [] ->
        exists d, In d data
                  /\ selectWeightedSpawnArea m' rnd = Some (buildArea d)
                  /\ getSpawnPosition m' playerPosition rnd u1 u2
                     = getPositionInArea (areaToR (buildArea d)) playerPosition u1 u2).
Proof.
  intros data m pp rnd u1 u2 m'.
  destruct (configureSpawnAreas_areas data m) as [Ha _]. fold m' in Ha.
  assert (Hsel : data <> [] ->
                 exists d, In d data /\ selectWeightedSpawnArea m' rnd = Some (buildArea d)).
  { intros Hne. unfold selectWeightedSpawnArea. rewrite Ha.
    destruct (selectWeightedSpawnAreaAt (List.map buildArea data)
                                        (rnd * totalSpawnWeight m')) as [a|] eqn:E.
    - apply selectWeightedSpawnAreaAt_member in E. apply in_map_iff in E.
      destruct E as [d [<- Hd]]. now exists d.
    - unfold selectWeightedSpawnAreaAt in E.
      destruct (walkAreas _ 0 _); [discriminate|].
      destruct data; [contradiction | discriminate]. }
  unfold getSpawnPosition. rewrite Ha.
  destruct data as [|d0 data]; cbn [List.map].
  - split; [now eexists|]. split; [reflexivity | intros H; contradiction].
  - destruct Hsel as [d [Hd Hs]]; [discriminate|].
    rewrite Hs. split; [apply getPositionInArea_built|].
    split; [discriminate|]. intros _. now exists d.
Qed.

End SpawnPositionTotal.

(** * Further properties: configuration and weighted draws *)

Section ConfigurationExtras.

Lemma configureSpawnAreas_shape (data : list AreaData) :
  forall acc : t,
    exists areas w,
      fold_left
        (fun acc d =>
           let area := buildArea d in
           with_spawnAreas (spawnAreas acc ++ [area])
                           (totalSpawnWeight acc + area_weight area) acc)
        data acc
      = with_spawnAreas areas w acc.
Proof.
  induction data as [|d data IH]; intros acc; cbn [fold_left].
  - exists (spawnAreas acc), (totalSpawnWeight acc). now destruct acc.
  - destruct (IH (with_spawnAreas (spawnAreas acc ++ [buildArea d])
                                  (totalSpawnWeight acc + area_weight (buildArea d)) acc))
      as [areas [w H]].
    exists areas, w. exact H.
Qed.

Lemma buildArea_weight_nonzero (d : AreaData) : ~ area_weight (buildArea d) == 0.
Proof. unfold buildArea. cbn [area_weight]. apply js_or_nonzero. discriminate. Qed.

(** X4.  Configuring the spawn areas replaces whatever areas were configured
    before: the result depends on the new data only.  The areas are the
    records built from the data, in order, the cached total is the sum of
    their weights, and no area has weight 0. *)
Theorem configureSpawnAreas_replaces_previous_areas :
  forall (data0 data : list AreaData) (m : t),
    configureSpawnAreas data (configureSpawnAreas data0 m) = configureSpawnAreas data m
    /\ spawnAreas (configureSpawnAreas data m) = List.map buildArea data
    /\ totalSpawnWeight (configureSpawnAreas data m)
       = totalWeightOf (spawnAreas (configureSpawnAreas data m))
    /\ Forall (fun a => ~ area_weight a == 0) (spawnAreas (configureSpawnAreas data m)).
Proof.
  intros data0 data m.
  destruct (configureSpawnAreas_areas data m) as [Ha Hw].
  split; [|split; [exact Ha|split]].
  - assert (H0 : exists areas w,
               configureSpawnAreas data0 m
               = with_spawnAreas areas w (with_spawnAreas [] 0 m))
      by apply configureSpawnAreas_shape.
    destruct H0 as [areas [w H0]]. rewrite H0. reflexivity.
  - now rewrite Hw, Ha.
  - rewrite Ha. apply Forall_forall. intros a Hin.
    apply in_map_iff in Hin. destruct Hin as [d [<- _]].
    apply buildArea_weight_nonzero.
Qed.

Lemma weights_sum_grows (areas : list (SpawnArea Q)) :
  forall s : Q,
    Forall (fun a => 0 <= area_weight a) areas ->
    s <= fold_left (fun s a => s + area_weight a) areas s.
Proof.
  induction areas as [|a areas IH]; intros s Hall; cbn [fold_left].
  - apply Qle_refl.
  - apply Forall_cons_iff in Hall. destruct Hall as [Ha Hall].
    apply Qle_trans with (s + area_weight a); [Lqa.lra | now apply IH].
Qed.

Lemma walkAreas_matches_below_total (areas : list (SpawnArea Q)) :
  forall r s : Q,
    areas <> [] ->
    r <= fold_left (fun s a => s + area_weight a) areas s ->
    exists a, walkAreas r s areas = Some a.
Proof.
  induction areas as [|area rest IH]; intros r s Hne Hle; [contradiction|].
  cbn [walkAreas fold_left] in *.
  destruct (Qle_bool r (s + area_weight area)) eqn:E; [now eexists|].
  destruct rest as [|area' rest'].
  - cbn [fold_left] in Hle. apply Qle_bool_iff in Hle. congruence.
  - apply IH; [discriminate | exact Hle].
Qed.

(** X5.  When no configured area has a negative weight and the draw of
    [Math.random()] lies in [[0,1]], the walk over the cumulative weights
    returns one of the configured areas: the fallback line after the loop is
    not reached. *)
Theorem selectWeightedSpawnArea_walk_finds_area :
  forall (data : list AreaData) (m : t) (rnd : Q),
    data <> [] ->
    Forall (fun d => 0 <= area_weight (buildArea d)) data ->
    0 <= rnd <= 1 ->
    let m' := configureSpawnAreas data m in
    exists a,
      walkAreas (rnd * totalSpawnWeight m') 0 (spawnAreas m') = Some a
      /\ selectWeightedSpawnArea m' rnd = Some a
      /\ In a (spawnAreas m').
Proof.
  intros data m rnd Hne Hall [Hr0 Hr1] m'.
  destruct (configureSpawnAreas_areas data m) as [Ha Hw].
  fold m' in Ha, Hw.
  assert (Hnn : Forall (fun a => 0 <= area_weight a) (List.map buildArea data)).
  { apply Forall_forall. intros a Hin. apply in_map_iff in Hin.
    destruct Hin as [d [<- Hd]].
    now apply (proj1 (Forall_forall _ data) Hall). }
  assert (Htot : 0 <= totalSpawnWeight m').
  { rewrite Hw. unfold totalWeightOf. now apply weights_sum_grows. }
  assert (Hle : rnd * totalSpawnWeight m' <= totalSpawnWeight m').
  { rewrite <- (Qmult_1_l (totalSpawnWeight m')) at 2.
    now apply Qmult_le_compat_r. }
  destruct (walkAreas_matches_below_total (spawnAreas m')
              (rnd * totalSpawnWeight m') 0) as [a Hwalk].
  - rewrite Ha. destruct data; [contradiction | discriminate].
  - rewrite Hw in Hle at 2. unfold totalWeightOf in Hle. now rewrite Ha.
  - exists a. split; [exact Hwalk|]. split.
    + unfold selectWeightedSpawnArea, selectWeightedSpawnAreaAt. now rewrite Hwalk.
    + now apply (walkAreas_member (spawnAreas m') (rnd * totalSpawnWeight m') 0).
Qed.

Lemma selectWeightedSpawnArea_walk_finds_area_witness :
  let data := [circleData "north_area" 2 0 (-50); circleData "east_area" 1 50 0] in
  let m' := configureSpawnAreas data new in
  exists a,
    walkAreas ((9 # 10) * totalSpawnWeight m') 0 (spawnAreas m') = Some a
    /\ selectWeightedSpawnArea m' (9 # 10) = Some a
    /\ In a (spawnAreas m').
Proof.
  intros data.
  apply (selectWeightedSpawnArea_walk_finds_area data new (9 # 10)).
  - discriminate.
  - repeat constructor; vm_compute; discriminate.
  - split; vm_compute; discriminate.
Defined.

Lemma walkTypes_member (types : list EnemyType) :
  forall (r s : Q) (ty : EnemyType), walkTypes r s types = Some ty -> In ty types.
Proof.
  induction types as [|ty0 rest IH]; intros r s ty H; simpl in H; [discriminate|].
  destruct (Qle_bool r (s + type_weight ty0)).
  - injection H as <-. now left.
  - right. now apply (IH r (s + type_weight ty0) ty).
Qed.

Lemma getRandomEnemyType_member (m : t) (rnd : Q) (ty : EnemyType) :
  getRandomEnemyType m rnd = Some ty -> exists id, In (id, ty) (enemyTypes m).
Proof.
  unfold getRandomEnemyType. intros H.
  assert (Hin : In ty (map_values (enemyTypes m))).
  { destruct (walkTypes _ 0 _) as [ty'|] eqn:E.
    - injection H as <-.
      now apply (walkTypes_member _ (rnd * totalTypeWeight (map_values (enemyTypes m))) 0).
    - destruct (map_values (enemyTypes m)); [discriminate|].
      simpl in H. injection H as <-. now left. }
  unfold map_values in Hin. apply in_map_iff in Hin.
  destruct Hin as [[id ty'] [Heq Hin]]. simpl in Heq. subst ty'. now exists id.
Qed.

(** X6.  Drawing an archetype returns nothing exactly when no archetype is
    registered, and an archetype that is returned is always one of the
    registered ones, whatever the draw and the weights. *)
Theorem getRandomEnemyType_returns_registered_type :
  forall (m : t) (rnd : Q),
    (getRandomEnemyType m rnd = None <-> enemyTypes m = [])
    /\ (forall ty, getRandomEnemyType m rnd = Some ty ->
                   exists id, In (id, ty) (enemyTypes m)).
Proof.
  intros m rnd. split.
  - unfold getRandomEnemyType. destruct (walkTypes _ 0 _) as [ty|] eqn:E.
    + split; [discriminate|]. intros Hm. rewrite Hm in E. discriminate.
    + destruct (enemyTypes m) as [|[k ty] rest]; simpl; split; congruence.
  - intros ty. apply getRandomEnemyType_member.
Qed.

Lemma find_last (A : Type) (p : A -> bool) (l : list A) (x : A) :
  find p (l ++ [x])
  = match find p l with
    | Some y => Some y
    | None => if p x then Some x else None
    end.
Proof.
  induction l as [|y l IH]; simpl; [reflexivity|].
  now destruct (p y).
Qed.

Lemma registerAll_lookup (tds : list TypeData) :
  forall (acc : JsMap EnemyType) (id : string),
    map_get id (registerAll tds acc)
    = match find (fun td => String.eqb id (td_id td)) (rev tds) with
      | Some td => Some (registerType td)
      | None => map_get id acc
      end.
Proof.
  induction tds as [|td tds IH]; intros acc id; [reflexivity|].
  cbn [registerAll fold_left rev].
  change (fold_left (fun acc typeData => map_set (td_id typeData) (registerType typeData) acc)
                    tds (map_set (td_id td) (registerType td) acc))
    with (registerAll tds (map_set (td_id td) (registerType td) acc)).
  rewrite IH, find_last.
  destruct (find _ (rev tds)); [reflexivity|].
  destruct (String.eqb id (td_id td)) eqn:E.
  - apply String.eqb_eq in E. subst id. apply map_get_set_same.
  - apply String.eqb_neq in E. apply map_get_set_other. congruence.
Qed.

(** X7.  Registering a non-empty archetype list replaces the registered set
    entirely: after [configure], the archetype found under an id is the one
    built from the last entry of the list with that id, and an id that does
    not occur in the list (the default [standard] included) is not
    registered. *)
Theorem configure_last_entry_wins :
  forall (m : t) (c : ConfigData) (tds : list TypeData) (id : string),
    cd_enemyTypes c = Some tds ->
    tds <> [] ->
    map_get id (enemyTypes (configure c m))
    = option_map registerType (find (fun td => String.eqb id (td_id td)) (rev tds)).
Proof.
  intros m c tds id Hc Hne. unfold configure. rewrite Hc.
  destruct tds as [|td0 tds0]; [contradiction|].
  change (map_get id (registerAll (td0 :: tds0) [])
          = option_map registerType
                       (find (fun td => String.eqb id (td_id td)) (rev (td0 :: tds0)))).
  rewrite registerAll_lookup.
  now destruct (find _ (rev (td0 :: tds0))).
Qed.

Lemma configure_last_entry_wins_witness :
  let tds := [mkTypeData "runner" (Some (1 # 5)) (Some 70) (Some 5) (Some 15) (Some 20);
              mkTypeData "tank" (Some (1 # 10)) (Some 200) (Some 2) (Some 35) (Some 12);
              mkTypeData "runner" (Some (1 # 2)) (Some 60) None None None] in
  let c := mkConfigData None None None None None (Some tds) in
  map_get "runner" (enemyTypes (configure c (init new)))
  = option_map registerType (find (fun td => String.eqb "runner" (td_id td)) (rev tds)).
Proof.
  intros tds c.
  apply (configure_last_entry_wins (init new) c tds "runner").
  - reflexivity.
  - discriminate.
Defined.

(** X8.  [configure] is idempotent, and it leaves the rosters, the spawn
    areas and the flags of the manager as they are. *)
Theorem configure_is_idempotent :
  forall (c : ConfigData) (m : t),
    configure c (configure c m) = configure c m
    /\ enemies (configure c m) = enemies m
    /\ preloadedZombies (configure c m) = preloadedZombies m
    /\ spawnAreas (configure c m) = spawnAreas m
    /\ totalSpawnWeight (configure c m) = totalSpawnWeight m
    /\ enabled (configure c m) = enabled m
    /\ preloadComplete (configure c m) = preloadComplete m.
Proof.
  intros c m. unfold configure.
  assert (Hmerge : mergeConfig (mergeConfig (config m) c) c = mergeConfig (config m) c).
  { unfold mergeConfig. cbn.
    destruct (cd_maxEnemies c), (cd_preloadAtStart c), (cd_initialActiveCount c),
      (cd_activationRate c), (cd_activationInterval c); reflexivity. }
  destruct (cd_enemyTypes c) as [[|td tds]|]; cbn;
    unfold with_config, with_enemyTypes; cbn; rewrite Hmerge; now repeat split.
Qed.

End ConfigurationExtras.

(** * Further properties: the rosters of the manager *)

Section RosterExtras.

Lemma filter_twice (A : Type) (f : A -> bool) (l : list A) :
  filter f (filter f l) = filter f l.
Proof.
  induction l as [|x l IH]; simpl; [reflexivity|].
  destruct (f x) eqn:E; simpl; [rewrite E; now f_equal | exact IH].
Qed.

Lemma filter_shorter (A : Type) (f : A -> bool) (l : list A) :
  (List.length (filter f l) <= List.length l)%nat.
Proof.
  induction l as [|x l IH]; simpl; [lia|].
  destruct (f x); simpl; lia.
Qed.

(** X9.  A tick of the manager is idempotent: a second tick right after the
    first changes nothing more.  A tick never lengthens the active roster,
    and after a tick that prunes, every agent left in the roster is alive. *)
Theorem update_is_idempotent_and_never_grows :
  forall (e : Engine) (dt1 dt2 : Q),
    update dt2 (update dt1 e) = update dt1 e
    /\ (List.length (enemies (manager (update dt1 e)))
        <= List.length (enemies (manager e)))%nat
    /\ (enabled (manager e) = true ->
        preloadComplete (manager e) = true ->
        Forall (fun h => isAliveAt (store e) h = true) (enemies (manager (update dt1 e)))).
Proof.
  intros e dt1 dt2. unfold update.
  destruct (enabled (manager e)) eqn:He; cbn [negb].
  - destruct (preloadComplete (manager e)) eqn:Hp; cbn [negb].
    + cbn. rewrite He, Hp. cbn. rewrite filter_twice.
      split; [reflexivity|]. split; [apply filter_shorter|].
      intros _ _. apply Forall_forall. intros h Hin.
      now apply filter_In in Hin.
    + rewrite He, Hp. cbn. split; [reflexivity|]. split; [lia|]. discriminate.
  - rewrite He. cbn. split; [reflexivity|]. split; [lia|]. discriminate.
Qed.

(** X10.  [clear()] empties both rosters and resets the preload flag, and
    makes one [removeEntity] call per agent of the active roster, in roster
    order.  A second [clear()] makes no call and changes nothing, and so does
    a tick after [clear()].  A [clear()] that follows a pruning tick
    deregisters the agents that were alive at the tick and no other: an
    agent that the tick pruned as dead gets no [removeEntity] call from
    either. *)
Theorem clear_empties_rosters_and_is_idempotent :
  forall (e : Engine) (deltaTime : Q),
    enemies (manager (clear e)) = []
    /\ preloadedZombies (manager (clear e)) = []
    /\ preloadComplete (manager (clear e)) = false
    /\ entityManager (clear e) = entityManager e ++ List.map RemoveEntity (enemies (manager e))
    /\ clear (clear e) = clear e
    /\ update deltaTime (clear e) = clear e
    /\ (enabled (manager e) = true ->
        preloadComplete (manager e) = true ->
        let calls := List.map RemoveEntity
                       (filter (isAliveAt (store e)) (enemies (manager e))) in
        entityManager (clear (update deltaTime e)) = entityManager e ++ calls
        /\ (forall h, isAliveAt (store e) h = false -> ~ In (RemoveEntity h) calls)).
Proof.
  intros e deltaTime. repeat split.
  - unfold clear. cbn. now rewrite app_nil_r.
  - unfold update, clear. cbn. now destruct (enabled (manager e)).
  - unfold update. rewrite H, H0. reflexivity.
  - intros h Hdead Hin. apply in_map_iff in Hin. destruct Hin as [h' [Heq Hin]].
    injection Heq as ->. apply filter_In in Hin. destruct Hin as [_ Hal]. congruence.
Qed.

(** X11.  [spawnZombie] builds the zombie from the archetype registered
    under the requested id; when the id is unknown or omitted it uses the
    archetype registered under [standard]; when neither is registered it
    returns [null] and changes nothing.  A successful spawn stores one new
    enabled zombie under a fresh handle, appends it to the active roster and
    registers it, whatever the length of the roster. *)
Theorem spawnZombie_falls_back_to_standard :
  forall (e : Engine) (id : string) (ty : EnemyType),
    (map_get id (enemyTypes (manager e)) = Some ty ->
     spawnedFrom ty e (spawnZombie (Some id) e))
    /\ (map_get id (enemyTypes (manager e)) = None ->
        map_get "standard" (enemyTypes (manager e)) = Some ty ->
        spawnedFrom ty e (spawnZombie (Some id) e))
    /\ (map_get "standard" (enemyTypes (manager e)) = Some ty ->
        spawnedFrom ty e (spawnZombie None e))
    /\ (map_get id (enemyTypes (manager e)) = None ->
        map_get "standard" (enemyTypes (manager e)) = None ->
        spawnZombie (Some id) e = (e, None) /\ spawnZombie None e = (e, None)).
Proof.
  intros e id ty.
  assert (Hok : forall typeId found,
            match map_get (match typeId with Some i => i | None => "standard"%string end)
                          (enemyTypes (manager e)) with
            | Some t0 => Some t0
            | None => map_get "standard" (enemyTypes (manager e))
            end = Some found ->
            spawnedFrom found e (spawnZombie typeId e)).
  { intros typeId found Hf. unfold spawnZombie. rewrite Hf.
    unfold spawnedFrom, enabledAt, isAliveAt. cbn [fst snd store manager].
    rewrite nth_error_app2 by lia. rewrite Nat.sub_diag. cbn.
    now repeat split. }
  split; [|split; [|split]].
  - intros H. apply Hok. now rewrite H.
  - intros H1 H2. apply Hok. now rewrite H1.
  - intros H. apply Hok. cbn. now rewrite H.
  - intros H1 H2. unfold spawnZombie. rewrite H1, H2. split; reflexivity.
Qed.

Lemma preloadLoop_appends (count : nat) (rnd : nat -> Q) :
  forall (i : nat) (e : Engine),
    enemyTypes (manager e) <> [] ->
    let r := preloadLoop count i rnd e in
    snd r = true
    /\ preloadedZombies (manager (fst r))
       = preloadedZombies (manager e) ++ seq (List.length (store e)) count
    /\ (exists zs,
          store (fst r) = store e ++ zs
          /\ List.length zs = count
          /\ Forall (fun z => exists id ty,
                                In (id, ty) (enemyTypes (manager e)) /\ z = preloadedFrom ty)
                    zs)
    /\ enemies (manager (fst r)) = enemies (manager e)
    /\ entityManager (fst r) = entityManager e
    /\ intervals (fst r) = intervals e
    /\ config (manager (fst r)) = config (manager e).
Proof.
  induction count as [|count IH]; intros i e Hty; cbn [preloadLoop].
  - cbn. rewrite app_nil_r. repeat split. exists []. rewrite app_nil_r. now repeat split.
  - set (m := with_preloadProgress _ (manager e)).
    destruct (getRandomEnemyType m (rnd (i * drawsPerZombie m)%nat)) as [ty|] eqn:Ety.
    + apply getRandomEnemyType_member in Ety. destruct Ety as [id Hin].
      match goal with
      | |- context [preloadLoop count (S i) rnd ?e1] =>
          pose proof (IH (S i) e1 Hty) as IH'; set (r := preloadLoop count (S i) rnd e1) in *
      end.
      cbv zeta in IH'. cbn [manager store enemies preloadedZombies with_preloaded
                            entityManager intervals config enemyTypes] in IH'.
      destruct IH' as [H1 [H2 [[zs [H3 [H4 H5]]] [H6 [H7 [H8 H9]]]]]].
      split; [exact H1|]. split.
      { rewrite H2. rewrite length_app. cbn [List.length].
        rewrite <- app_assoc. cbn [app seq].
        now replace (List.length (store e) + 1)%nat with (S (List.length (store e))) by lia. }
      split.
      { exists (preloadedFrom ty :: zs). split; [|split].
        - rewrite H3. now rewrite <- app_assoc.
        - cbn. now rewrite H4.
        - constructor; [now exists id, ty | exact H5]. }
      now repeat split.
    + destruct (getRandomEnemyType_some m (rnd (i * drawsPerZombie m)%nat) Hty) as [ty Hty'].
      congruence.
Qed.

(** X12.  Without a player, [preloadZombies] returns [false] and changes
    nothing.  With a player and at least one registered archetype it
    succeeds: it stores [maxEnemies] new zombies, each built disabled from a
    registered archetype, appends their fresh handles, in order, to the
    preloaded roster (which is not emptied first), sets the preload flag, and
    touches neither the active roster, nor the registry, nor the timers. *)
Theorem preloadZombies_appends_disabled_agents :
  forall (rnd : nat -> Q) (e : Engine),
    (player e = false -> preloadZombies rnd e = (e, Some false))
    /\ (player e = true ->
        enemyTypes (manager e) <> [] ->
        let e' := fst (preloadZombies rnd e) in
        let n := maxEnemies (config (manager e)) in
        snd (preloadZombies rnd e) = Some true
        /\ preloadComplete (manager e') = true
        /\ preloadedZombies (manager e')
           = preloadedZombies (manager e) ++ seq (List.length (store e)) n
        /\ (exists zs,
              store e' = store e ++ zs
              /\ List.length zs = n
              /\ Forall (fun z => Zombie.enabled z = false
                                  /\ Zombie.isAlive z = true
                                  /\ Zombie.state z = Zombie.idle
                                  /\ exists id ty,
                                       In (id, ty) (enemyTypes (manager e))
                                       /\ z = preloadedFrom ty)
                        zs)
        /\ enemies (manager e') = enemies (manager e)
        /\ entityManager e' = entityManager e
        /\ intervals e' = intervals e).
Proof.
  intros rnd e. split.
  - intros Hp. unfold preloadZombies. now rewrite Hp.
  - intros Hp Hty. unfold preloadZombies. rewrite Hp. cbn [negb].
    pose proof (preloadLoop_appends (maxEnemies (config (manager e))) rnd 0 e Hty) as Hloop.
    destruct (preloadLoop (maxEnemies (config (manager e))) 0 rnd e) as [e1 b].
    cbn [fst snd] in Hloop.
    destruct Hloop as [-> [H2 [[zs [H3 [H4 H5]]] [H6 [H7 [H8 H9]]]]]].
    cbn. repeat split; try assumption.
    exists zs. repeat split; try assumption.
    apply Forall_forall. intros z Hz.
    destruct (proj1 (Forall_forall _ zs) H5 z Hz) as [id [ty [Hin ->]]].
    repeat split. now exists id, ty.
Qed.

Lemma preloadZombies_appends_disabled_agents_witness :
  let c := mkConfigData (Some 4%nat) None None None None None in
  let e := configuredEngine c [] in
  let e' := fst (preloadZombies (fun _ => 1 # 2) e) in
  let n := maxEnemies (config (manager e)) in
  snd (preloadZombies (fun _ => 1 # 2) e) = Some true
  /\ preloadComplete (manager e') = true
  /\ preloadedZombies (manager e')
     = preloadedZombies (manager e) ++ seq (List.length (store e)) n
  /\ (exists zs,
        store e' = store e ++ zs
        /\ List.length zs = n
        /\ Forall (fun z => Zombie.enabled z = false
                            /\ Zombie.isAlive z = true
                            /\ Zombie.state z = Zombie.idle
                            /\ exists id ty,
                                 In (id, ty) (enemyTypes (manager e))
                                 /\ z = preloadedFrom ty)
                  zs)
  /\ enemies (manager e') = enemies (manager e)
  /\ entityManager e' = entityManager e
  /\ intervals e' = intervals e.
Proof.
  intros c e.
  apply (proj2 (preloadZombies_appends_disabled_agents (fun _ => 1 # 2) e)).
  - reflexivity.
  - discriminate.
Defined.

End RosterExtras.

(** * Further properties: staged activation in general *)

Section ActivationExtras.

Lemma skipn_cons_nth (A : Type) (l : list A) :
  forall (i : nat) (x : A), nth_error l i = Some x -> skipn i l = x :: skipn (S i) l.
Proof.
  induction l as [|y l IH]; intros i x H; destruct i; simpl in *; try discriminate.
  - now injection H as ->.
  - now apply IH.
Qed.

Lemma firstn_plus (A : Type) (l : list A) :
  forall i d : nat, firstn i l ++ firstn d (skipn i l) = firstn (i + d) l.
Proof.
  induction l as [|y l IH]; intros i d.
  - now rewrite skipn_nil, !firstn_nil.
  - destruct i; simpl; [reflexivity|]. now rewrite IH.
Qed.

Lemma update_nth_length (A : Type) (f : A -> A) (l : list A) :
  forall n, List.length (update_nth n f l) = List.length l.
Proof.
  induction l as [|x l IH]; intros n; destruct n; simpl; try reflexivity.
  now rewrite IH.
Qed.

Lemma update_nth_same (A : Type) (f : A -> A) (l : list A) :
  forall n, nth_error (update_nth n f l) n = option_map f (nth_error l n).
Proof.
  induction l as [|x l IH]; intros n; destruct n; simpl; try reflexivity.
  apply IH.
Qed.

Lemma update_nth_other (A : Type) (f : A -> A) (l : list A) :
  forall n k, n <> k -> nth_error (update_nth n f l) k = nth_error l k.
Proof.
  induction l as [|x l IH]; intros n k Hne; destruct n, k; simpl; try reflexivity.
  - congruence.
  - apply IH. congruence.
Qed.

Lemma enableAll_length (hs : list Handle) :
  forall s, List.length (enableAll hs s) = List.length s.
Proof.
  induction hs as [|h hs IH]; intros s; cbn [enableAll fold_left]; [reflexivity|].
  change (List.length (enableAll hs (update_nth h (Zombie.with_enabled true) s))
          = List.length s).
  now rewrite IH, update_nth_length.
Qed.

Lemma enableAll_other (hs : list Handle) :
  forall s h, ~ In h hs -> nth_error (enableAll hs s) h = nth_error s h.
Proof.
  induction hs as [|h0 hs IH]; intros s h Hnin; cbn [enableAll fold_left]; [reflexivity|].
  change (nth_error (enableAll hs (update_nth h0 (Zombie.with_enabled true) s)) h
          = nth_error s h).
  rewrite IH by (intros H; apply Hnin; now right).
  apply update_nth_other. intros ->. apply Hnin. now left.
Qed.

Lemma enableAll_enabled (hs : list Handle) :
  forall s h,
    In h hs -> (h < List.length s)%nat -> enabledAt (enableAll hs s) h = true.
Proof.
  induction hs as [|h0 hs IH]; intros s h Hin Hlt; [destruct Hin|].
  cbn [enableAll fold_left].
  change (enabledAt (enableAll hs (update_nth h0 (Zombie.with_enabled true) s)) h = true).
  destruct (in_dec Nat.eq_dec h hs) as [Hrest|Hrest].
  - apply IH; [exact Hrest | now rewrite update_nth_length].
  - destruct Hin as [->|Hin]; [|contradiction].
    unfold enabledAt. rewrite enableAll_other by exact Hrest.
    rewrite update_nth_same.
    destruct (nth_error s h) as [z|] eqn:E; [reflexivity|].
    apply nth_error_None in E. lia.
Qed.

(** The loops of [activatePreloadedZombies] and of the timer both activate
    the preloaded agents from position [i] on, one after the other. *)
Lemma activateInitial_prefix (count : nat) :
  forall (i : nat) (e : Engine),
    (i + count <= List.length (preloadedZombies (manager e)))%nat ->
    let hs := firstn count (skipn i (preloadedZombies (manager e))) in
    let e' := activateInitial count i e in
    enemies (manager e') = enemies (manager e) ++ hs
    /\ entityManager e' = entityManager e ++ List.map AddEntity hs
    /\ store e' = enableAll hs (store e)
    /\ preloadedZombies (manager e') = preloadedZombies (manager e)
    /\ config (manager e') = config (manager e)
    /\ intervals e' = intervals e
    /\ nextInterval e' = nextInterval e.
Proof.
  induction count as [|count IH]; intros i e Hle; cbn [activateInitial firstn].
  - cbn. rewrite !app_nil_r. now repeat split.
  - destruct (nth_error (preloadedZombies (manager e)) i) as [h|] eqn:En.
    + rewrite (skipn_cons_nth _ _ _ _ En). cbn [firstn].
      pose proof (IH (S i) (activate h e)) as IH'.
      change (preloadedZombies (manager (activate h e)))
        with (preloadedZombies (manager e)) in IH'.
      change (enemies (manager (activate h e)))
        with (enemies (manager e) ++ [h]) in IH'.
      change (entityManager (activate h e)) with (entityManager e ++ [AddEntity h]) in IH'.
      change (store (activate h e))
        with (update_nth h (Zombie.with_enabled true) (store e)) in IH'.
      change (config (manager (activate h e))) with (config (manager e)) in IH'.
      change (intervals (activate h e)) with (intervals e) in IH'.
      change (nextInterval (activate h e)) with (nextInterval e) in IH'.
      destruct IH' as [H1 [H2 [H3 [H4 [H5 [H6 H7]]]]]]; [lia|].
      rewrite H1, H2, H3. cbn [List.map]. rewrite <- !app_assoc.
      now repeat split.
    + apply nth_error_None in En. lia.
Qed.

Lemma activateBatch_prefix (budget : nat) :
  forall (index : nat) (e : Engine),
    (index <= List.length (preloadedZombies (manager e)))%nat ->
    let r := activateBatch budget index e in
    let hs := firstn (fst r - index) (skipn index (preloadedZombies (manager e))) in
    fst r = Nat.min (index + budget) (List.length (preloadedZombies (manager e)))
    /\ enemies (manager (snd r)) = enemies (manager e) ++ hs
    /\ entityManager (snd r) = entityManager e ++ List.map AddEntity hs
    /\ store (snd r) = enableAll hs (store e)
    /\ preloadedZombies (manager (snd r)) = preloadedZombies (manager e)
    /\ config (manager (snd r)) = config (manager e)
    /\ intervals (snd r) = intervals e
    /\ nextInterval (snd r) = nextInterval e.
Proof.
  induction budget as [|budget IH]; intros index e Hle; cbn [activateBatch].
  - cbn [fst snd]. rewrite Nat.sub_diag. cbn. rewrite !app_nil_r.
    repeat split. lia.
  - destruct (nth_error (preloadedZombies (manager e)) index) as [h|] eqn:En.
    + assert (Hlt : (index < List.length (preloadedZombies (manager e)))%nat).
      { apply nth_error_Some. congruence. }
      pose proof (IH (S index) (activate h e)) as IH'.
      change (preloadedZombies (manager (activate h e)))
        with (preloadedZombies (manager e)) in IH'.
      change (enemies (manager (activate h e)))
        with (enemies (manager e) ++ [h]) in IH'.
      change (entityManager (activate h e)) with (entityManager e ++ [AddEntity h]) in IH'.
      change (store (activate h e))
        with (update_nth h (Zombie.with_enabled true) (store e)) in IH'.
      change (config (manager (activate h e))) with (config (manager e)) in IH'.
      change (intervals (activate h e)) with (intervals e) in IH'.
      change (nextInterval (activate h e)) with (nextInterval e) in IH'.
      destruct (IH' Hlt) as [H1 [H2 [H3 [H4 [H5 [H6 [H7 H8]]]]]]].
      set (r := activateBatch budget (S index) (activate h e)) in *.
      assert (Hge : (S index <= fst r)%nat) by lia.
      replace (fst r - index)%nat with (S (fst r - S index)) by lia.
      rewrite (skipn_cons_nth _ _ _ _ En). cbn [firstn].
      rewrite H2, H3, H4. cbn [List.map]. rewrite <- !app_assoc.
      repeat split; try assumption. lia.
    + apply nth_error_None in En. cbn [fst snd]. rewrite Nat.sub_diag. cbn.
      rewrite !app_nil_r. repeat split. lia.
Qed.

Lemma fireInterval_prefix (e0 e : Engine) (id period index : nat) :
  intervals e0 = [] ->
  activatedPrefix e0 id period index e ->
  activatedPrefix e0 id period
    (Nat.min (List.length (preloadedZombies (manager e0)))
             (index + activationRate (config (manager e0))))
    (fireInterval id e).
Proof.
  unfold activatedPrefix. cbv zeta. intros Hiv0. rewrite Hiv0. cbn [app].
  intros [He [Hp [Hc [Hr [Hs [Hle Hiv]]]]]].
  set (P := preloadedZombies (manager e0)) in *.
  destruct Hiv as [Hiv|[Hiv Hidx]].
  - assert (Hfind : find (fun iv => Nat.eqb (interval_id iv) id) (intervals e)
                    = Some (mkInterval id index period)).
    { rewrite Hiv. cbn. now rewrite Nat.eqb_refl. }
    unfold fireInterval. rewrite Hfind. cbn [interval_index]. rewrite Hp.
    destruct (Nat.leb (List.length P) index) eqn:E.
    + apply Nat.leb_le in E.
      replace (Nat.min (List.length P) (index + activationRate (config (manager e0))))
        with index by lia.
      rewrite Hiv. cbn [filter interval_id]. rewrite Nat.eqb_refl. cbn [negb].
      cbn [manager store entityManager intervals with_intervals].
      split; [exact He|]. split; [exact Hp|]. split; [exact Hc|].
      split; [exact Hr|]. split; [exact Hs|]. split; [lia|].
      right. split; [reflexivity | lia].
    + apply Nat.leb_gt in E. rewrite Hc.
      pose proof (activateBatch_prefix (activationRate (config (manager e0))) index e) as Hb.
      rewrite Hp in Hb.
      destruct (activateBatch (activationRate (config (manager e0))) index e) as [index' e'].
      cbn [fst snd] in Hb. cbv zeta in Hb.
      destruct Hb as [H1 [H2 [H3 [H4 [H5 [H6 [H7 H8]]]]]]]; [lia|].
      assert (Hidx : Nat.min (List.length P) (index + activationRate (config (manager e0)))
                     = index') by lia.
      rewrite Hidx.
      assert (Hcat : firstn index P ++ firstn (index' - index) (skipn index P)
                     = firstn index' P).
      { rewrite firstn_plus. f_equal. lia. }
      cbn [manager store entityManager intervals with_intervals].
      split; [rewrite H2, He, <- app_assoc; f_equal; exact Hcat|].
      split; [now rewrite H5|].
      split; [now rewrite H6|].
      split; [rewrite H3, Hr, <- app_assoc, <- map_app; do 2 f_equal; exact Hcat|].
      split.
      { rewrite H4, Hs. unfold enableAll. rewrite <- fold_left_app.
        f_equal. exact Hcat. }
      split; [lia|].
      left. rewrite H7, Hiv. cbn. now rewrite Nat.eqb_refl.
  - unfold fireInterval. rewrite Hiv. cbn [find].
    replace (Nat.min (List.length P) (index + activationRate (config (manager e0))))
      with index by lia.
    split; [exact He|]. split; [exact Hp|]. split; [exact Hc|].
    split; [exact Hr|]. split; [exact Hs|]. split; [lia|].
    right. now split.
Qed.

Lemma fireTimes_prefix (e0 e : Engine) (id period index k : nat) :
  intervals e0 = [] ->
  activatedPrefix e0 id period index e ->
  activatedPrefix e0 id period
    (Nat.min (List.length (preloadedZombies (manager e0)))
             (index + k * activationRate (config (manager e0))))
    (fireTimes k id e).
Proof.
  intros Hiv0 H. induction k as [|k IH]; cbn [fireTimes].
  - replace (Nat.min _ (index + 0 * _)) with index; [exact H|].
    destruct H as [_ [_ [_ [_ [_ [Hle _]]]]]]. cbn. lia.
  - apply (fireInterval_prefix e0 _ id period _ Hiv0) in IH.
    replace (Nat.min (List.length (preloadedZombies (manager e0)))
                     (index + S k * activationRate (config (manager e0))))
      with (Nat.min (List.length (preloadedZombies (manager e0)))
                    (Nat.min (List.length (preloadedZombies (manager e0)))
                             (index + k * activationRate (config (manager e0)))
                     + activationRate (config (manager e0)))) by lia.
    exact IH.
Qed.

(** X13.  Staged activation in general.  Start from any engine with no
    timer registered; activate the initial batch and let the timer fire [k]
    times.  Then the agents activated so far are exactly the first
    [min n (c + k * rate)] preloaded agents ([n] preloaded, [c] the initial
    batch), in preload order: they have been appended to the active roster
    and registered, once each, and [enabled] has been set on them and on no
    other zombie; the preloaded roster itself is never shortened.  The timer
    stays registered until a firing finds the roster exhausted, and that
    firing removes it. *)
Theorem staged_activation_activates_each_agent_once :
  forall (e0 : Engine) (k : nat),
    intervals e0 = [] ->
    let P := preloadedZombies (manager e0) in
    let n := List.length P in
    let c := Nat.min (initialActiveCount (config (manager e0))) n in
    let id := nextInterval e0 in
    let period := activationInterval (config (manager e0)) in
    let index := Nat.min n (c + k * activationRate (config (manager e0))) in
    let e := fireTimes k id (activatePreloadedZombies e0) in
    enemies (manager e) = enemies (manager e0) ++ firstn index P
    /\ entityManager e = entityManager e0 ++ List.map AddEntity (firstn index P)
    /\ preloadedZombies (manager e) = P
    /\ store e = enableAll (firstn index P) (store e0)
    /\ (forall h, In h (firstn index P) -> (h < List.length (store e0))%nat ->
                  enabledAt (store e) h = true)
    /\ (forall h, ~ In h (firstn index P) -> nth_error (store e) h = nth_error (store e0) h)
    /\ (intervals e = [mkInterval id index period] \/ (intervals e = [] /\ index = n))
    /\ ((index < n)%nat -> intervals e = [mkInterval id index period])
    /\ (index = n -> intervals (fireInterval id e) = []).
Proof.
  intros e0 k Hiv0 P n c id period index e.
  assert (Hstart : activatedPrefix e0 id period c (activatePreloadedZombies e0)).
  { unfold activatePreloadedZombies. fold P. fold n. fold c.
    destruct (activateInitial_prefix c 0 e0) as [H1 [H2 [H3 [H4 [H5 [H6 H7]]]]]].
    { fold P. fold n. lia. }
    fold P in H1, H2, H3, H4. cbn [skipn] in H1, H2, H3.
    unfold activatedPrefix, scheduleRemainingZombies. cbv zeta. fold P.
    cbn [manager store entityManager intervals].
    rewrite H1, H2, H3, H4, H5, H6, H7, Hiv0. fold n.
    repeat split; try lia. left. reflexivity. }
  pose proof (fireTimes_prefix e0 _ id period c k Hiv0 Hstart) as Hk.
  fold P in Hk. fold n in Hk. fold index in Hk. fold e in Hk.
  unfold activatedPrefix in Hk. cbv zeta in Hk. fold P in Hk. fold n in Hk.
  rewrite Hiv0 in Hk. cbn [app] in Hk.
  destruct Hk as [H1 [H2 [H3 [H4 [H5 [H6 H7]]]]]].
  split; [exact H1|]. split; [exact H4|]. split; [exact H2|]. split; [exact H5|].
  split; [intros h Hin Hlt; rewrite H5; now apply enableAll_enabled|].
  split; [intros h Hnin; rewrite H5; now apply enableAll_other|].
  split; [exact H7|].
  split.
  - intros Hlt. destruct H7 as [H7|[_ H7]]; [exact H7 | lia].
  - intros Hn. unfold fireInterval.
    destruct H7 as [H7|[H7 _]]; rewrite H7; [|cbn [find]; exact H7].
    cbn [find interval_id interval_index]. rewrite Nat.eqb_refl.
    rewrite H2. fold n. rewrite Hn, Nat.leb_refl. cbn. now rewrite Nat.eqb_refl.
Qed.

Lemma staged_activation_activates_each_agent_once_witness :
  let c0 := mkConfigData (Some 6%nat) None (Some 2%nat) (Some 3%nat) None None in
  let e0 := fst (preloadZombies (fun _ => 1 # 2) (configuredEngine c0 [])) in
  let P := preloadedZombies (manager e0) in
  let n := List.length P in
  let c := Nat.min (initialActiveCount (config (manager e0))) n in
  let id := nextInterval e0 in
  let period := activationInterval (config (manager e0)) in
  let index := Nat.min n (c + 1 * activationRate (config (manager e0))) in
  let e := fireTimes 1 id (activatePreloadedZombies e0) in
  enemies (manager e) = enemies (manager e0) ++ firstn index P
  /\ entityManager e = entityManager e0 ++ List.map AddEntity (firstn index P)
  /\ preloadedZombies (manager e) = P
  /\ store e = enableAll (firstn index P) (store e0)
  /\ (forall h, In h (firstn index P) -> (h < List.length (store e0))%nat ->
                enabledAt (store e) h = true)
  /\ (forall h, ~ In h (firstn index P) -> nth_error (store e) h = nth_error (store e0) h)
  /\ (intervals e = [mkInterval id index period] \/ (intervals e = [] /\ index = n))
  /\ ((index < n)%nat -> intervals e = [mkInterval id index period])
  /\ (index = n -> intervals (fireInterval id e) = []).
Proof.
  intros c0 e0.
  apply (staged_activation_activates_each_agent_once e0 1).
  reflexivity.
Defined.

End ActivationExtras.

(** * Further properties: the behaviour state machine *)

Section StateMachineExtras.

Import Zombie.

(** ** The log of transitions is a path in the state diagram *)

Lemma changeState_tracked (s : State) (z : t) :
  tracked z ->
  s = state z \/ allowedTransition (state z, s) ->
  tracked (changeState s z).
Proof.
  unfold tracked. intros Ht Hs.
  destruct (State_eqb s (state z)) eqn:E.
  - unfold changeState. now rewrite E.
  - assert (Hne : state z <> s).
    { intros H. rewrite <- H in E. destruct (state z); discriminate. }
    destruct Hs as [Hs|Hs]; [congruence|].
    rewrite changeState_state, changeState_log by exact Hne.
    cbn [pathTo]. now repeat split.
Qed.

Lemma loseTrack_tracked (z : t) : state z = chase -> tracked z -> tracked (loseTrack z).
Proof.
  intros Hs Ht. unfold loseTrack. destruct (_ && _); [|exact Ht].
  apply changeState_tracked; [exact Ht|]. right. rewrite Hs. exact I.
Qed.

Lemma processChaseState_tracked (player : option PlayerObs) (z : t) :
  state z = chase -> tracked z -> tracked (processChaseState player z).
Proof.
  intros Hs Ht. unfold processChaseState. destruct player as [p|]; [|exact Ht].
  set (z1 := if canSeePlayer z then _ else z).
  assert (H1 : state z1 = chase /\ tracked z1).
  { unfold z1. destruct (canSeePlayer z); split; assumption. }
  destruct H1 as [Hs1 Ht1].
  destruct (lastKnownPlayerPosition z1); [destruct (Qle_bool _ _)|].
  - apply changeState_tracked; [exact Ht1|]. right. rewrite Hs1. exact I.
  - now apply loseTrack_tracked.
  - now apply loseTrack_tracked.
Qed.

Lemma processAttackState_tracked (player : option PlayerObs) (z : t) :
  state z = attack -> tracked z -> tracked (fst (processAttackState player z)).
Proof.
  intros Hs Ht. unfold processAttackState. destruct player as [p|]; [|exact Ht].
  destruct (Qlt_bool _ _); [|destruct (Qlt_bool _ _)]; cbn [fst].
  - apply changeState_tracked; [exact Ht|]. right. rewrite Hs. exact I.
  - exact Ht.
  - exact Ht.
Qed.

Lemma processStateMachine_tracked (player : option PlayerObs) (z : t) :
  tracked z -> tracked (fst (processStateMachine player z)).
Proof.
  intros Ht. unfold processStateMachine.
  set (z1 := if State_eqb (state z) idle && canSeePlayer z then changeState chase z else z).
  assert (H1 : tracked z1).
  { unfold z1. destruct (State_eqb (state z) idle && canSeePlayer z) eqn:E; [|exact Ht].
    apply andb_true_iff in E. destruct E as [E _]. apply State_eqb_eq in E.
    apply changeState_tracked; [exact Ht|]. right. rewrite E. exact I. }
  destruct (state z1) eqn:Hs; cbn [fst].
  - exact H1.
  - now apply processChaseState_tracked.
  - now apply processAttackState_tracked.
  - exact H1.
Qed.

Lemma updatePerception_tracked (deltaTime : Q) (player : option PlayerObs) (z : t) :
  tracked z -> tracked (updatePerception deltaTime player z).
Proof.
  intros Ht. unfold updatePerception, onPlayerSpotted. cbn.
  destruct (Qle_bool _ _); [|exact Ht].
  destruct player as [p|]; [|exact Ht].
  cbn. destruct (Qle_bool _ _); [|exact Ht].
  destruct (negb (canSeePlayer z) && State_eqb (state z) idle) eqn:E; [|exact Ht].
  apply andb_true_iff in E. destruct E as [_ E]. apply State_eqb_eq in E.
  apply changeState_tracked; [exact Ht|]. right. cbn. rewrite E. exact I.
Qed.

Lemma update_tracked (deltaTime : Q) (player : option PlayerObs) (z : t) :
  tracked z -> tracked (fst (update deltaTime player z)).
Proof.
  intros Ht. unfold update.
  destruct (_ || _); [exact Ht|].
  assert (H : forall z0, tracked z0 ->
                tracked (fst (processStateMachine player (updatePerception deltaTime player z0)))).
  { intros z0 H0. now apply processStateMachine_tracked, updatePerception_tracked. }
  destruct (_ && _); [destruct (Qlt_bool _ _)|]; try (apply H); exact Ht.
Qed.

Lemma takeDamage_tracked (amount : Q) (z : t) : tracked z -> tracked (takeDamage amount z).
Proof.
  intros Ht. unfold takeDamage. destruct (_ && _); [|exact Ht].
  apply changeState_tracked; [exact Ht|]. cbn.
  destruct (state z); [right | right | right | left]; cbn; congruence.
Qed.

Lemma returnToChase_tracked (z : t) : tracked z -> tracked (returnToChase z).
Proof.
  intros Ht. unfold returnToChase.
  destruct (State_eqb (state z) attack) eqn:E; [|exact Ht].
  apply State_eqb_eq in E.
  apply changeState_tracked; [exact Ht|]. right. rewrite E. exact I.
Qed.

Lemma step_tracked (w : World) (e : Event) :
  tracked (zombie w) -> tracked (zombie (step w e)).
Proof.
  intros Ht. destruct e as [deltaTime player|amount|b|ms|n p].
  - rewrite step_zombie_tick. now apply update_tracked.
  - now apply takeDamage_tracked.
  - exact Ht.
  - cbn. now destruct (Qle_bool 0 ms).
  - cbn. destruct (nth_error (pending w) n) as [tm|]; [|exact Ht].
    destruct (Qle_bool _ _); [|exact Ht].
    destruct (pending_callback tm); cbn.
    + now destruct (dealDamage p (zombie w)).
    + now apply returnToChase_tracked.
Qed.

Lemma pathTo_allowed (log : list (State * State)) :
  forall s, pathTo s log -> Forall allowedTransition log.
Proof.
  induction log as [|[a b] log IH]; intros s H; [constructor|].
  cbn [pathTo] in H. destruct H as [_ [Ha Hp]].
  constructor; [exact Ha | now apply (IH a)].
Qed.

(** X14.  Along every run of an agent, the log that [changeState] prints is
    a path in the state diagram from [idle] to the current state: each entry
    starts where the previous one ended, and the only steps are idle to
    chase, chase to attack, chase to idle, attack to chase, and from a state
    other than [death] to [death].  In particular nothing leaves [death],
    and [attack] is entered from [chase] only. *)
Theorem transitions_follow_the_state_diagram :
  forall (properties : Properties) (history : list Event),
    let z := zombie (run (spawn properties) history) in
    pathTo (state z) (transitions z)
    /\ Forall allowedTransition (transitions z).
Proof.
  intros properties history z.
  assert (H : forall es w, tracked (zombie w) -> tracked (zombie (run w es))).
  { induction es as [|e es IH]; intros w Hw; [exact Hw|].
    cbn. apply IH. now apply step_tracked. }
  assert (Ht : tracked z) by (apply H; reflexivity).
  split; [exact Ht | now apply (pathTo_allowed _ (state z))].
Qed.

(** ** Death is terminal *)

Lemma remove_nth_shorter (A : Type) (l : list A) :
  forall n, (List.length (remove_nth n l) <= List.length l)%nat.
Proof.
  induction l as [|x l IH]; intros n; destruct n; cbn; try lia.
  specialize (IH n). lia.
Qed.

Lemma dead_step_quiet (w : World) (e : Event) :
  dead (zombie w) ->
  transitions (zombie (step w e)) = transitions (zombie w)
  /\ (List.length (pending (step w e)) <= List.length (pending w))%nat.
Proof.
  intros [Hs Ha]. destruct e as [deltaTime player|amount|b|ms|n p]; cbn.
  - unfold update. rewrite Ha, orb_true_r. cbn. rewrite app_nil_r. split; [reflexivity|lia].
  - rewrite (takeDamage_dead _ _ Ha). split; [reflexivity|lia].
  - split; [reflexivity|lia].
  - destruct (Qle_bool 0 ms); split; try reflexivity; lia.
  - destruct (nth_error (pending w) n) as [tm|]; [|split; [reflexivity|lia]].
    destruct (Qle_bool _ _); [|split; [reflexivity|lia]].
    pose proof (remove_nth_shorter _ (pending w) n) as Hlen.
    destruct (pending_callback tm); cbn.
    + unfold dealDamage. rewrite Hs. cbn. split; [reflexivity|exact Hlen].
    + unfold returnToChase. rewrite Hs. cbn. split; [reflexivity|exact Hlen].
Qed.

(** X15.  [death] is terminal.  Once an agent is in state [death] with
    [isAlive] false, whatever events follow (updates, further hits, timer
    callbacks, enabling): it stays so, no transition is logged, no callback
    is scheduled, and the player is not damaged. *)
Theorem death_is_terminal :
  forall (w : World) (es : list Event),
    dead (zombie w) ->
    state (zombie (run w es)) = death
    /\ isAlive (zombie (run w es)) = false
    /\ transitions (zombie (run w es)) = transitions (zombie w)
    /\ (List.length (pending (run w es)) <= List.length (pending w))%nat
    /\ playerHits (run w es) = playerHits w.
Proof.
  intros w es. revert w. induction es as [|e es IH]; intros w Hd.
  - destruct Hd as [Hs Ha]. cbn. repeat split; try assumption. lia.
  - cbn [run fold_left]. fold (run (step w e) es).
    destruct (dead_step w e Hd) as [Hd' Hh].
    destruct (dead_step_quiet w e Hd) as [Ht Hp].
    destruct (IH _ Hd') as [I1 [I2 [I3 [I4 I5]]]].
    repeat split; try assumption; try congruence. lia.
Qed.

Lemma death_is_terminal_witness :
  let w := run (spawn defaultProperties)
               (repeat (Tick 0.1 (Some (playerAt 1))) 13 ++ [Hit 100]) in
  let es := [Elapse 500; Fire 0 (playerAt 1); Tick 0.1 (Some (playerAt 1)); Hit 10;
             Elapse 700; Fire 0 (playerAt 1)] in
  state (zombie (run w es)) = death
  /\ isAlive (zombie (run w es)) = false
  /\ transitions (zombie (run w es)) = transitions (zombie w)
  /\ (List.length (pending (run w es)) <= List.length (pending w))%nat
  /\ playerHits (run w es) = playerHits w.
Proof.
  intros w es. apply (death_is_terminal w es). split; reflexivity.
Defined.

End StateMachineExtras.

(** * Further properties: attacks, health and the absent player *)

Section CombatExtras.

Import Zombie.

(** ** When an attack is triggered *)






(** ** Without a player *)

Lemma run_settled (es : list Event) :
  forall w, settled (zombie w) -> settled (zombie (run w es)).
Proof.
  induction es as [|e es IH]; intros w Hs; [exact Hs|].
  cbn. apply IH. destruct e as [deltaTime player|amount|b|ms|n p].
  - rewrite step_zombie_tick. now apply update_settled.
  - now apply takeDamage_settled.
  - exact Hs.
  - cbn. now destruct (Qle_bool 0 ms).
  - cbn. destruct (nth_error (pending w) n) as [tm|]; [|exact Hs].
    destruct (Qle_bool _ _); [|exact Hs].
    destruct (pending_callback tm); cbn.
    + now destruct (dealDamage p (zombie w)).
    + now apply returnToChase_settled.
Qed.

(** X17.  While the engine has no player, a call of [update] never changes
    the state of an agent: no transition is logged and no callback is
    scheduled, on any agent that a run of events can produce.  In particular
    a chasing agent does not give up the chase and an attacking agent stays
    in [attack]. *)
Theorem without_player_the_state_is_frozen :
  forall (properties : Properties) (history : list Event) (deltaTime : Q),
    let z := zombie (run (spawn properties) history) in
    state (fst (update deltaTime None z)) = state z
    /\ transitions (fst (update deltaTime None z)) = transitions z
    /\ snd (update deltaTime None z) = [].
Proof.
  intros properties history deltaTime z.
  assert (Hset : settled z).
  { apply run_settled. intros _. reflexivity. }
  assert (Hup : forall u, state u = state z -> transitions u = transitions z ->
                  canSeePlayer u = canSeePlayer z ->
                  let u' := updatePerception deltaTime None u in
                  state u' = state z /\ transitions u' = transitions z
                  /\ (state u' = idle -> canSeePlayer u' = false)).
  { intros u Hs Ht Hc. unfold updatePerception. cbn.
    destruct (Qle_bool _ _); cbn.
    - now repeat split.
    - repeat split; try assumption. rewrite Hs, Hc. exact Hset. }
  assert (Hsm : forall u, (state u = idle -> canSeePlayer u = false) ->
                  processStateMachine None u = (u, [])).
  { intros u Hu. unfold processStateMachine.
    destruct (state u) eqn:Hs; cbn; rewrite ?Hs; try reflexivity.
    rewrite (Hu eq_refl). cbn. now rewrite Hs. }
  unfold update.
  destruct (_ || _); [now repeat split|].
  set (u := with_timeInCurrentState _ (with_timeSinceSpawn _ z)).
  destruct (Hup u eq_refl eq_refl eq_refl) as [H1 [H2 H3]].
  rewrite (Hsm _ H3).
  destruct (_ && _); [destruct (Qlt_bool _ _)|]; cbn [fst snd]; now repeat split.
Qed.

(** ** Health *)

Lemma changeState_health (s : State) (z : t) : health (changeState s z) = health z.
Proof.
  unfold changeState. destruct (State_eqb s (state z)); [reflexivity|].
  now destruct s.
Qed.

Lemma update_health (deltaTime : Q) (player : option PlayerObs) (z : t) :
  health (fst (update deltaTime player z)) = health z.
Proof.
  assert (Hlose : forall u, health (loseTrack u) = health u).
  { intros u. unfold loseTrack. destruct (_ && _); [apply changeState_health|reflexivity]. }
  assert (Hchase : forall u, health (processChaseState player u) = health u).
  { intros u. unfold processChaseState. destruct player as [p|]; [|reflexivity].
    destruct (canSeePlayer u); cbn.
    - destruct (Qle_bool _ _); [now rewrite changeState_health | now rewrite Hlose].
    - destruct (lastKnownPlayerPosition u); [destruct (Qle_bool _ _)|];
        first [now rewrite changeState_health | now rewrite Hlose]. }
  assert (Hattack : forall u, health (fst (processAttackState player u)) = health u).
  { intros u. unfold processAttackState. destruct player as [p|]; [|reflexivity].
    destruct (Qlt_bool _ _); [|destruct (Qlt_bool _ _)]; cbn;
      first [apply changeState_health | reflexivity]. }
  assert (Hsm : forall u, health (fst (processStateMachine player u)) = health u).
  { intros u. unfold processStateMachine.
    set (u1 := if State_eqb (state u) idle && canSeePlayer u then changeState chase u else u).
    assert (H1 : health u1 = health u).
    { unfold u1. destruct (_ && _); [apply changeState_health|reflexivity]. }
    destruct (state u1); cbn [fst]; unfold processIdleState;
      rewrite ?Hchase, ?Hattack; exact H1. }
  assert (Hup : forall u, health (updatePerception deltaTime player u) = health u).
  { intros u. unfold updatePerception, onPlayerSpotted. cbn.
    destruct (Qle_bool _ _); [|reflexivity].
    destruct player as [p|]; [|reflexivity].
    cbn. destruct (Qle_bool _ _); [|reflexivity].
    destruct (_ && _); [|reflexivity].
    now rewrite changeState_health. }
  unfold update.
  destruct (_ || _); [reflexivity|].
  destruct (_ && _); [destruct (Qlt_bool _ _)|]; rewrite ?Hsm, ?Hup; reflexivity.
Qed.

Lemma step_health (w : World) (e : Event) :
  health (zombie (step w e))
  = match e with
    | Hit amount => health (zombie w) - amount
    | _ => health (zombie w)
    end.
Proof.
  destruct e as [deltaTime player|amount|b|ms|n p].
  - rewrite step_zombie_tick. apply update_health.
  - cbn. unfold takeDamage. destruct (_ && _); [now rewrite changeState_health|reflexivity].
  - reflexivity.
  - cbn. now destruct (Qle_bool 0 ms).
  - cbn. destruct (nth_error (pending w) n) as [tm|]; [|reflexivity].
    destruct (Qle_bool _ _); [|reflexivity].
    destruct (pending_callback tm); cbn.
    + now destruct (dealDamage p (zombie w)).
    + unfold returnToChase. destruct (State_eqb _ _); [apply changeState_health|reflexivity].
Qed.

(** X18.  Health is changed by [takeDamage] and by nothing else: after any
    run of events, the health of the agent is its health before the run
    minus the sum of the amounts of the hits in the run (it is not clamped,
    and neither updates nor timer callbacks touch it). *)
Theorem health_is_initial_health_minus_hits :
  forall (w : World) (es : list Event),
    health (zombie (run w es)) == health (zombie w) - totalDamage es.
Proof.
  intros w es. revert w. induction es as [|e es IH]; intros w.
  - cbn. Lqa.lra.
  - cbn [run fold_left]. fold (run (step w e) es).
    rewrite IH, step_health.
    destruct e; cbn [totalDamage fold_right]; fold (totalDamage es); Lqa.lra.
Qed.

(** X19.  An agent built with a positive health (or with none given) and
    still alive has positive health, whatever events it went through: a hit
    that brings the health to 0 or below always kills. *)
Theorem live_agent_has_positive_health :
  forall (properties : Properties) (history : list Event),
    0 < js_or (p_health properties) 100 ->
    let z := zombie (run (spawn properties) history) in
    isAlive z = true -> 0 < health z.
Proof.
  intros properties history Hpos.
  assert (H : forall es w,
             consistent (zombie w) ->
             (isAlive (zombie w) = true -> 0 < health (zombie w)) ->
             isAlive (zombie (run w es)) = true -> 0 < health (zombie (run w es))).
  { induction es as [|e es IH]; intros w Hc Hw; [exact Hw|].
    cbn [run fold_left]. fold (run (step w e) es).
    apply IH.
    - apply (run_consistent [e] w Hc).
    - intros Ha. rewrite step_health.
      destruct e as [deltaTime player|amount|b|ms|n p].
      + apply Hw. rewrite step_zombie_tick in Ha.
        destruct (isAlive (zombie w)) eqn:E; [reflexivity|].
        unfold update in Ha. rewrite E, orb_true_r in Ha. cbn in Ha. congruence.
      + cbn in Ha. unfold takeDamage in Ha. cbn in Ha.
        destruct (Qle_bool (health (zombie w) - amount) 0) eqn:Eh.
        * destruct (isAlive (zombie w)) eqn:E; cbn in Ha; [|congruence].
          destruct (consistent_live _ Hc E) as [_ Hs].
          destruct (changeState_death (with_health (health (zombie w) - amount) (zombie w)) Hs)
            as [_ Hd].
          congruence.
        * now apply Qle_bool_false.
      + apply Hw. exact Ha.
      + apply Hw. cbn in Ha. now destruct (Qle_bool 0 ms).
      + apply Hw. cbn in Ha.
        destruct (nth_error (pending w) n) as [tm|]; [|exact Ha].
        destruct (Qle_bool _ _); [|exact Ha].
        destruct (pending_callback tm); cbn in Ha.
        * now destruct (dealDamage p (zombie w)).
        * unfold returnToChase in Ha.
          destruct (State_eqb _ _); [|exact Ha].
          rewrite changeState_isAlive in Ha; [exact Ha | discriminate]. }
  intros z. apply H.
  - apply spawn_invariant.
  - intros _. exact Hpos.
Qed.

Lemma live_agent_has_positive_health_witness :
  let z := zombie (run (spawn tankProperties)
                       [Hit 120; Tick 0.1 (Some (playerAt 3)); Hit 79]) in
  0 < health z.
Proof.
  intros z.
  apply (live_agent_has_positive_health tankProperties
           [Hit 120; Tick 0.1 (Some (playerAt 3)); Hit 79]).
  - vm_compute. reflexivity.
  - reflexivity.
Defined.

End CombatExtras.

(** * Further properties: animation clips *)

Section AnimationExtras.

Import Zombie.



End AnimationExtras.

(** * Further properties: giving up the chase, the first update, and the
      share of each area *)

Section ChaseExtras.

Import Zombie.

Lemma updatePerception_not_idle (deltaTime : Q) (player : option PlayerObs) (z : t) :
  state z <> idle ->
  state (updatePerception deltaTime player z) = state z
  /\ timeInCurrentState (updatePerception deltaTime player z) = timeInCurrentState z.
Proof.
  intros Hs. unfold updatePerception, onPlayerSpotted. cbn.
  destruct (Qle_bool _ _); [|now split].
  destruct player as [p|]; [|now split].
  cbn. destruct (Qle_bool _ _); [|now split].
  assert (E : State_eqb (state z) idle = false).
  { destruct (state z); try reflexivity. congruence. }
  rewrite E, andb_false_r. now split.
Qed.

(** X21.  A chasing agent gives up the chase only after the grace period: if
    a call of [update] takes an agent from [chase] to [idle], then the
    player exists, the agent does not see the player, and it has spent more
    than 8 simulated seconds in [chase], the time of this call included. *)
Theorem chase_is_given_up_only_after_grace_period :
  forall (deltaTime : Q) (player : option PlayerObs) (z : t),
    state z = chase ->
    state (fst (update deltaTime player z)) = idle ->
    player <> None
    /\ canSeePlayer (fst (update deltaTime player z)) = false
    /\ 8 < timeInCurrentState z + deltaTime
    /\ enabled z = true
    /\ isAlive z = true.
Proof.
  intros deltaTime player z Hs. unfold update.
  destruct (enabled z) eqn:He; cbn [negb orb]; [|cbn; congruence].
  destruct (isAlive z) eqn:Ha; cbn [negb]; [|cbn; congruence].
  set (z0 := with_timeInCurrentState _ (with_timeSinceSpawn _ z)).
  assert (Hmain : state (fst (processStateMachine player (updatePerception deltaTime player z0)))
                  = idle ->
                  player <> None
                  /\ canSeePlayer (fst (processStateMachine player
                                          (updatePerception deltaTime player z0))) = false
                  /\ 8 < timeInCurrentState z + deltaTime
                  /\ true = true /\ true = true).
  { destruct (updatePerception_not_idle deltaTime player z0) as [U1 U2].
    { cbn. congruence. }
    set (u := updatePerception deltaTime player z0) in *.
    cbn in U1, U2. rewrite Hs in U1.
    unfold processStateMachine. rewrite U1. cbn. rewrite U1.
    unfold processChaseState. destruct player as [p|]; [|cbn; congruence].
    set (u1 := if canSeePlayer u then _ else u).
    assert (H1 : state u1 = chase /\ timeInCurrentState u1 = timeInCurrentState u
                 /\ canSeePlayer u1 = canSeePlayer u).
    { unfold u1. destruct (canSeePlayer u) eqn:Ec; cbn; rewrite ?Ec; repeat split; assumption. }
    destruct H1 as [S1 [T1 C1]].
    assert (Hlose : state (loseTrack u1) = idle ->
                    Some p <> None /\ canSeePlayer (loseTrack u1) = false
                    /\ 8 < timeInCurrentState z + deltaTime /\ true = true /\ true = true).
    { unfold loseTrack.
      destruct (negb (canSeePlayer u1) && Qlt_bool 8 (timeInCurrentState u1)) eqn:E;
        [|congruence].
      apply andb_true_iff in E. destruct E as [E1 E2].
      apply negb_true_iff in E1. apply Qlt_bool_iff in E2.
      rewrite T1, U2 in E2.
      intros _. rewrite changeState_canSeePlayer.
      repeat split; try assumption. discriminate. }
    cbn [fst].
    destruct (lastKnownPlayerPosition u1); [destruct (Qle_bool _ _)|]; try exact Hlose.
    rewrite changeState_state. discriminate. }
  destruct (skipAnimationWhenFar z0 && isFar player z0);
    [destruct (Qlt_bool (js_rem (timeSinceSpawn z0) 3) 0.1)|];
    first [exact Hmain | cbn; congruence].
Qed.

Lemma chase_is_given_up_only_after_grace_period_witness :
  let z := zombie (run (spawn defaultProperties)
                       [Tick 0.1 (Some (playerAt 10)); Tick 0.2 (Some (playerAt 30));
                        Tick 7.7 (Some (playerAt 30))]) in
  let r := update 0.2 (Some (playerAt 30)) z in
  Some (playerAt 30) <> None
  /\ canSeePlayer (fst r) = false
  /\ 8 < timeInCurrentState z + 0.2
  /\ enabled z = true
  /\ isAlive z = true.
Proof.
  intros z.
  apply (chase_is_given_up_only_after_grace_period 0.2 (Some (playerAt 30)) z);
    reflexivity.
Defined.

Lemma update_idle_spots_state (deltaTime : Q) (p : PlayerObs) (z : t) :
  enabled z = true ->
  isAlive z = true ->
  state z = idle ->
  canSeePlayer z = false ->
  distanceToPlayer p <= farDistance z ->
  distanceToPlayer p <= detectionRange z ->
  js_sub (updatePerceptionTime z) deltaTime <= 0 ->
  state (fst (update deltaTime (Some p) z)) <> idle
  /\ canSeePlayer (fst (update deltaTime (Some p) z)) = true.
Proof.
  intros He Ha Hs Hc Hfar Hdet Hfire.
  assert (Hf : Qlt_bool (farDistance z) (distanceToPlayer p) = false).
  { unfold Qlt_bool. apply Qle_bool_iff in Hfar. now rewrite Hfar. }
  apply Qle_bool_iff in Hdet. apply Qle_bool_iff in Hfire.
  unfold update. rewrite He, Ha. simpl.
  unfold isFar. simpl. rewrite Hf, andb_false_r.
  set (z1 := updatePerception deltaTime (Some p) _).
  assert (H1 : state z1 = chase /\ canSeePlayer z1 = true).
  { unfold z1, updatePerception, onPlayerSpotted. simpl.
    rewrite Hfire, Hdet, Hc, Hs. simpl.
    now rewrite changeState_state, changeState_canSeePlayer. }
  destruct H1 as [S1 C1].
  unfold processStateMachine. rewrite S1. cbn. rewrite S1.
  unfold processChaseState. rewrite C1. cbn.
  destruct (Qle_bool (distanceToPlayer p) (attackRange z1)).
  - rewrite changeState_state, changeState_canSeePlayer. split; [discriminate | exact C1].
  - unfold loseTrack. cbn. rewrite C1. cbn. rewrite S1. split; [discriminate | exact C1].
Qed.

(** X22.  A freshly created, enabled agent evaluates its perception at its
    very first update: if the player is then within the detection range and
    within the full-rate tier, the agent leaves [idle] for [chase] during
    that first call, whatever its duration. *)
Theorem fresh_agent_spots_player_at_first_update :
  forall (properties : Properties) (deltaTime : Q) (p : PlayerObs),
    0 <= deltaTime ->
    distanceToPlayer p <= detectionRange (zombie (spawn properties)) ->
    distanceToPlayer p <= farDistance (zombie (spawn properties)) ->
    let z' := zombie (step (spawn properties) (Tick deltaTime (Some p))) in
    In (idle, chase) (transitions z') /\ state z' <> idle /\ canSeePlayer z' = true.
Proof.
  intros properties deltaTime p Hdt Hdet Hfar z'.
  set (z := zombie (spawn properties)) in *.
  assert (Hz : z' = fst (update deltaTime (Some p) z)) by apply step_zombie_tick.
  assert (Hfire : js_sub (updatePerceptionTime z) deltaTime <= 0)
    by (apply js_sub_nonpos; exact Hdt).
  destruct (update_idle_spots deltaTime p z eq_refl eq_refl eq_refl eq_refl Hfar Hdet Hfire)
    as [l Hl].
  destruct (update_idle_spots_state deltaTime p z eq_refl eq_refl eq_refl eq_refl
              Hfar Hdet Hfire) as [Hs Hc].
  rewrite Hz. split; [|split; assumption].
  rewrite Hl. apply in_or_app. right. now left.
Qed.

Lemma fresh_agent_spots_player_at_first_update_witness :
  let z' := zombie (step (spawn tankProperties) (Tick 0.016 (Some (playerAt 11)))) in
  In (Zombie.idle, Zombie.chase) (transitions z') /\ state z' <> idle
  /\ canSeePlayer z' = true.
Proof.
  apply (fresh_agent_spots_player_at_first_update tankProperties 0.016 (playerAt 11));
    vm_compute; discriminate.
Defined.

End ChaseExtras.

Section AreaShares.

Lemma weightSumFrom_lower (areas : list (SpawnArea Q)) :
  forall (s : Q) (k : nat),
    Forall (fun a => 0 <= area_weight a) areas ->
    s <= weightSumFrom s areas k.
Proof.
  induction areas as [|a areas IH]; intros s k Hall.
  - unfold weightSumFrom. cbn. apply Qle_refl.
  - apply Forall_cons_iff in Hall. destruct Hall as [Ha Hall].
    destruct k as [|k].
    + unfold weightSumFrom. cbn. Lqa.lra.
    + change (weightSumFrom s (a :: areas) (S k))
        with (weightSumFrom (s + area_weight a) areas k).
      apply Qle_trans with (s + area_weight a); [Lqa.lra | now apply IH].
Qed.

Lemma weightSumFrom_monotone (areas : list (SpawnArea Q)) :
  forall (s : Q) (j k : nat),
    Forall (fun a => 0 <= area_weight a) areas ->
    (j <= k)%nat ->
    weightSumFrom s areas j <= weightSumFrom s areas k.
Proof.
  induction areas as [|a areas IH]; intros s j k Hall Hjk.
  - unfold weightSumFrom. cbn. apply Qle_refl.
  - pose proof Hall as Hall'.
    apply Forall_cons_iff in Hall. destruct Hall as [Ha Hall].
    destruct k as [|k].
    + assert (j = 0%nat) as -> by lia. apply Qle_refl.
    + change (weightSumFrom s (a :: areas) (S k))
        with (weightSumFrom (s + area_weight a) areas k).
      destruct j as [|j].
      * apply Qle_trans with (s + area_weight a).
        -- unfold weightSumFrom. cbn. apply Qle_refl.
        -- now apply weightSumFrom_lower.
      * change (weightSumFrom s (a :: areas) (S j))
          with (weightSumFrom (s + area_weight a) areas j).
        apply IH; [exact Hall | lia].
Qed.

(** X23.  With non-negative weights, the area at position [k] is selected
    exactly for the draws that fall in its own slice of the total weight:
    above the cumulative weight of the areas before it and at most its own
    cumulative weight.  The slice is as wide as the weight of the area, so an
    area is drawn in proportion to its weight. *)
Theorem selectWeightedSpawnArea_slice :
  forall (areas : list (SpawnArea Q)) (r : Q) (k : nat) (a : SpawnArea Q),
    Forall (fun a => 0 <= area_weight a) areas ->
    nth_error areas k = Some a ->
    (k = 0%nat \/ cumulativeWeight areas (k - 1) < r) ->
    r <= cumulativeWeight areas k ->
    selectWeightedSpawnAreaAt areas r = Some a
    /\ cumulativeWeight areas k
       == (match k with O => 0 | S k' => cumulativeWeight areas k' end) + area_weight a.
Proof.
  intros areas r k a Hall Hnth Hlow Hhigh. split.
  - unfold selectWeightedSpawnAreaAt.
    rewrite (walkAreas_first_match areas r 0 k a Hnth Hhigh); [reflexivity|].
    intros j Hj Hle.
    destruct Hlow as [->|Hlow]; [lia|].
    assert (Hmono : cumulativeWeight areas j <= cumulativeWeight areas (k - 1)).
    { apply weightSumFrom_monotone; [exact Hall | lia]. }
    unfold cumulativeWeight in *. Lqa.lra.
  - unfold cumulativeWeight, weightSumFrom.
    assert (Hsplit : forall (l : list (SpawnArea Q)) n x s,
               nth_error l n = Some x ->
               fold_left Qplus (List.map area_weight (firstn (S n) l)) s
               = fold_left Qplus (List.map area_weight (firstn n l)) s + area_weight x).
    { induction l as [|y l IH]; intros n x s Hn; destruct n; try discriminate.
      - cbn in Hn. injection Hn as ->. reflexivity.
      - cbn [firstn List.map fold_left]. cbn in Hn.
        change (fold_left Qplus (List.map area_weight (firstn (S n) l)) (s + area_weight y)
                = fold_left Qplus (List.map area_weight (firstn n l)) (s + area_weight y)
                  + area_weight x).
        now apply IH. }
    rewrite (Hsplit areas k a 0 Hnth).
    destruct k as [|k']; [cbn; Lqa.lra | reflexivity].
Qed.

Lemma selectWeightedSpawnArea_slice_witness :
  let areas := List.map buildArea
                 [circleData "north_area" 2 0 (-50); circleData "east_area" 1 50 0;
                  circleData "south_area" 1 0 50; circleData "west_area" 1 (-50) 0] in
  let east := buildArea (circleData "east_area" 1 50 0) in
  selectWeightedSpawnAreaAt areas (5 # 2) = Some east
  /\ cumulativeWeight areas 1
     == (match 1%nat with O => 0 | S k' => cumulativeWeight areas k' end) + area_weight east.
Proof.
  intros areas east.
  apply (selectWeightedSpawnArea_slice areas (5 # 2) 1 east).
  - repeat constructor; vm_compute; discriminate.
  - reflexivity.
  - right. vm_compute. reflexivity.
  - vm_compute. discriminate.
Defined.

End AreaShares.
